(** * go-lookup: path lookups over Go values by reflection

    A shallow embedding of [lookup.go] (package [lookup]): the segment
    parser [parseIndex], the value resolver [getValueByName], the driver
    [lookup] and [Lookup], the aggregator [aggreateAggregableValue], the
    merger [mergeValue] and the type-only resolver [lookupType].

    Conventions of the embedding:
    - Go's [int] is the 64-bit integer, written as [Z]; a Go string is a
      byte string, written as [string];
    - a function returning [(T, error)] returns an [outcome T]: a value, one
      of the three sentinel errors, or [Panic] when the Go call panics;
    - a [reflect.Value] is an optional [val], [None] being the zero Value;
      struct fields are exported and not embedded;
    - [lookup] and [aggreateAggregableValue] call each other; the embedding
      of [lookup] takes a budget for the depth of that recursion
      ([lookup_fuel_mono] and [lookup_terminates] relate budgets);
    - what the program takes from its host ([strings.EqualFold], the JSON
      decoder, the order of iteration over a map, the struct declarations)
      is a [runtime]; the text printed by the debugging calls of
      [fmt.Printf] is left out, the panic of their argument [value.Type()]
      is kept;
    - values are passed as [reflect] reads them; the one place where the
      code writes through [reflect], the probe key of [getValueByName], is
      embedded a second time with the memory explicit (module [Stateful])
      and related to the embedding by values in [lookup_refines].

    The repository also holds a later revision of the file.  There the
    fall-back match is driven by [MatchFunctions] instead of
    [CaseInsentitive], the separator comes from [SplitToken], the errors
    are gRPC statuses and the debugging calls are gone; [parseIndex],
    [getRealValue], [aggreateAggregableValue], [indexFunction],
    [mergeValue], [removeZeroValues], [isAggregable] and [isMergeable]
    are the same in both.  Module [Later] embeds what differs otherwise
    than by the error values: [getSplitToken], [compareWithMatchFunc],
    the [switch] of [getValueByName] and [lookupType]. *)

From Stdlib Require Import ZArith List String Ascii Bool Lia Permutation.
Import ListNotations.

Local Open Scope string_scope.
Local Open Scope list_scope.
Local Open Scope Z_scope.

(** ** Outcomes of a Go call *)

(** The three sentinel errors declared at the top of [lookup.go]. *)
Inductive error : Type :=
| ErrMalformedIndex
| ErrInvalidIndexUsage
| ErrKeyNotFound.

(** Run-time panics raised by the Go runtime or by package [reflect]. *)
Inductive panic : Type :=
| SliceBoundsOutOfRange      (* s[lo:hi] with lo > hi or hi > len(s) *)
| CallOnZeroValue            (* Type or Interface called on the zero reflect.Value *)
| IndexOutOfRange            (* reflect.Value.Index outside 0 <= i < Len *)
| SetStringOnNonString       (* reflect.Value.SetString on a value whose kind is not String *)
| NotAssignable              (* reflect.Append with a value not assignable to the element type *)
| AppendSliceMismatch        (* reflect.AppendSlice with a non-slice or a slice of another type *)
| ElemOfInvalidType          (* reflect.Type.Elem on a type without elements *)
| UnsupportedKind.           (* the aggregator's own panic, unsuported kind for index *)

(** A call returns a value, returns an error, panics, or (in the model
    only) runs out of recursion budget. *)
Inductive outcome (A : Type) : Type :=
| Ok (a : A)
| Err (e : error)
| Panic (p : panic)
| OutOfFuel.

Arguments Ok {A} a.
Arguments Err {A} e.
Arguments Panic {A} p.
Arguments OutOfFuel {A}.

Definition bind {A B : Type} (m : outcome A) (k : A -> outcome B) : outcome B :=
  match m with
  | Ok a => k a
  | Err e => Err e
  | Panic p => Panic p
  | OutOfFuel => OutOfFuel
  end.

Notation "x <- m ;; k" := (bind m (fun x => k))
  (at level 61, m at next level, right associativity).

Definition is_ok {A : Type} (m : outcome A) : bool :=
  match m with Ok _ => true | _ => false end.

(** ** Package strings and strconv *)

Module GoString.

Definition len (s : string) : Z := Z.of_nat (String.length s).

(** [strings.Index(s, substr)]: byte offset of the first occurrence of
    [substr] in [s], or -1. *)
Fixpoint Index (s substr : string) : Z :=
  if prefix substr s then 0
  else match s with
       | EmptyString => -1
       | String _ s' =>
           let r := Index s' substr in
           if r =? -1 then -1 else r + 1
       end.

(** The slice expression [s[lo:hi]]; [None] is the run-time panic
    "slice bounds out of range". *)
Definition slice (s : string) (lo hi : Z) : option string :=
  if (0 <=? lo) && (lo <=? hi) && (hi <=? len s)
  then Some (substring (Z.to_nat lo) (Z.to_nat (hi - lo)) s)
  else None.

Definition minInt : Z := - 2 ^ 63.
Definition maxInt : Z := 2 ^ 63 - 1.

Definition digit (a : ascii) : option Z :=
  let n := Z.of_nat (nat_of_ascii a) in
  if (48 <=? n) && (n <=? 57) then Some (n - 48) else None.

Fixpoint digits (s : string) (acc : Z) : option Z :=
  match s with
  | EmptyString => Some acc
  | String a s' =>
      match digit a with
      | Some d => digits s' (acc * 10 + d)
      | None => None
      end
  end.

(** [strconv.Atoi]: an optional sign, then one or more decimal digits,
    the value within the range of [int]; [None] is a non-nil error. *)
Definition Atoi (s : string) : option Z :=
  match s with
  | EmptyString => None
  | String a s' =>
      let neg := Ascii.eqb a "-" in
      let body := if neg || Ascii.eqb a "+" then s' else s in
      match body with
      | EmptyString => None
      | _ =>
          match digits body 0 with
          | Some n =>
              let v := if neg then - n else n in
              if (minInt <=? v) && (v <=? maxInt) then Some v else None
          | None => None
          end
      end
  end.

(** [strings.Split(s, sep)] for a non-empty separator.  [skip] counts the
    bytes of a separator just matched that are still to be dropped and
    [cur] is the piece being read. *)
Fixpoint split_from (sep s cur : string) (skip : nat) : list string :=
  match s with
  | EmptyString => [cur]
  | String a s' =>
      match skip with
      | S k => split_from sep s' cur k
      | O =>
          if prefix sep s
          then cur :: split_from sep s' EmptyString (String.length sep - 1)
          else split_from sep s' (cur ++ String a EmptyString)%string O
      end
  end.

Definition Split (s sep : string) : list string := split_from sep s EmptyString O.

(** The byte [c] occurs in [s]. *)
Fixpoint occurs (c : ascii) (s : string) : bool :=
  match s with
  | EmptyString => false
  | String a s' => Ascii.eqb a c || occurs c s'
  end.

End GoString.

(** ** Segment parser *)

Definition SplitToken : string := ".".
Definition IndexCloseChar : string := "]".
Definition IndexOpenChar : string := "[".

(** [parseIndex(s)] returns the name, the index (-1 when there is none)
    and an error; on error the other two results are [""] and -1, so the
    outcome keeps the error alone. *)
Definition parseIndex (s : string) : outcome (string * Z) :=
  let start := GoString.Index s IndexOpenChar in
  let end_ := GoString.Index s IndexCloseChar in
  if (start =? -1) && (end_ =? -1) then Ok (s, -1)
  else if (negb (start =? -1) && (end_ =? -1)) || ((start =? -1) && negb (end_ =? -1))
  then Err ErrMalformedIndex
  else
    match GoString.slice s (start + 1) end_ with
    | None => Panic SliceBoundsOutOfRange
    | Some digits =>
        match GoString.Atoi digits with
        | None => Err ErrMalformedIndex
        | Some index =>
            match GoString.slice s 0 start with
            | None => Panic SliceBoundsOutOfRange
            | Some name => Ok (name, index)
            end
        end
    end.

Definition hasIndex (s : string) : bool :=
  negb (GoString.Index s IndexOpenChar =? -1).

(** ** Package reflect: kinds, types and values *)

Inductive kind : Type :=
| KInvalid | KBool | KInt | KFloat64 | KString | KFunc
| KInterface | KPtr | KSlice | KArray | KMap | KStruct.

Definition kind_eqb (a b : kind) : bool :=
  match a, b with
  | KInvalid, KInvalid | KBool, KBool | KInt, KInt | KFloat64, KFloat64
  | KString, KString | KFunc, KFunc | KInterface, KInterface | KPtr, KPtr
  | KSlice, KSlice | KArray, KArray | KMap, KMap | KStruct, KStruct => true
  | _, _ => false
  end.

(** Go types.  A struct type is referred to by its name and its fields are
    looked up in the declarations of the program ([StructDecl] below), so
    that a struct may mention itself under a pointer or a slice.  [TNamed]
    is a defined type over a type literal, such as [type MyKey string].
    Embedded fields and unexported fields are left out. *)
Inductive type : Type :=
| TBool | TInt | TFloat64 | TString | TFunc
| TInterface
| TNamed (name : string) (underlying : type)
| TPtr (elem : type)
| TSlice (elem : type)
| TArray (n : nat) (elem : type)
| TMap (key elem : type)
| TStruct (name : string).

Fixpoint type_eqb (a b : type) : bool :=
  match a, b with
  | TBool, TBool | TInt, TInt | TFloat64, TFloat64 | TString, TString
  | TFunc, TFunc | TInterface, TInterface => true
  | TNamed n u, TNamed n' u' => String.eqb n n' && type_eqb u u'
  | TPtr e, TPtr e' | TSlice e, TSlice e' => type_eqb e e'
  | TArray n e, TArray n' e' => Nat.eqb n n' && type_eqb e e'
  | TMap k e, TMap k' e' => type_eqb k k' && type_eqb e e'
  | TStruct n, TStruct n' => String.eqb n n'
  | _, _ => false
  end.

(** [reflect.Type.Kind] *)
Fixpoint TypeKind (t : type) : kind :=
  match t with
  | TBool => KBool | TInt => KInt | TFloat64 => KFloat64 | TString => KString
  | TFunc => KFunc | TInterface => KInterface
  | TNamed _ u => TypeKind u
  | TPtr _ => KPtr | TSlice _ => KSlice | TArray _ _ => KArray
  | TMap _ _ => KMap | TStruct _ => KStruct
  end.

(** [reflect.Type.Elem]; it panics on a type that has no element type. *)
Fixpoint TypeElem (t : type) : outcome type :=
  match t with
  | TPtr e | TSlice e | TArray _ e | TMap _ e => Ok e
  | TNamed _ u => TypeElem u
  | _ => Panic ElemOfInvalidType
  end.

Definition hasName (t : type) : bool :=
  match t with
  | TPtr _ | TSlice _ | TArray _ _ | TMap _ _ => false
  | _ => true
  end.

Definition underlying (t : type) : type :=
  match t with TNamed _ u => u | _ => t end.

(** Assignability of a value of type [src] to a variable of type [dst], as
    [reflect] checks it before storing: identical types, any type into
    [interface{}], or identical underlying types when one side is unnamed. *)
Definition assignable (dst src : type) : bool :=
  type_eqb dst src
  || kind_eqb (TypeKind dst) KInterface
  || (negb (hasName dst && hasName src) && type_eqb (underlying dst) (underlying src)).

#[local] Set Warnings "-register-all".

(** Go data as [reflect] sees it.  A map lists its entries without
    duplicate keys; the order of the list carries no meaning, the order of
    iteration is chosen by the runtime ([MapOrder] below).  A map key is
    given by its string; for a key type whose kind is not [String] the
    string only names the key.  [VInterface] is a place of static type
    [interface{}] (a field, an element) holding [nil] or a dynamic value. *)
Inductive val : Type :=
| VBool (b : bool)
| VInt (n : Z)
| VFloat64 (bits : Z)
| VString (s : string)
| VFunc
| VInterface (dyn : option val)
| VPtr (elem : type) (target : option val)
| VSlice (elem : type) (items : list val)
| VArray (elem : type) (items : list val)
| VMap (key elem : type) (entries : list (string * val))
| VStruct (name : string) (fields : list (string * val)).

(** A [reflect.Value]: [None] is the zero Value [reflect.Value{}]. *)
Definition Value : Type := option val.

(** An argument of static type [interface{}]: [nil] or a dynamic value. *)
Definition iface : Type := option val.

Definition TypeOf (d : val) : type :=
  match d with
  | VBool _ => TBool
  | VInt _ => TInt
  | VFloat64 _ => TFloat64
  | VString _ => TString
  | VFunc => TFunc
  | VInterface _ => TInterface
  | VPtr e _ => TPtr e
  | VSlice e _ => TSlice e
  | VArray e items => TArray (List.length items) e
  | VMap k e _ => TMap k e
  | VStruct n _ => TStruct n
  end.

Module Reflect.

Definition ValueOf (i : iface) : Value := i.

Definition IsValid (v : Value) : bool :=
  match v with Some _ => true | None => false end.

Definition Kind (v : Value) : kind :=
  match v with
  | None => KInvalid
  | Some d => TypeKind (TypeOf d)
  end.

(** [v.Type()] panics on the zero Value. *)
Definition Type_ (v : Value) : outcome type :=
  match v with
  | None => Panic CallOnZeroValue
  | Some d => Ok (TypeOf d)
  end.

(** [v.Interface()] panics on the zero Value; on a Value of kind
    [Interface] it yields the dynamic value held there. *)
Definition Interface (v : Value) : outcome iface :=
  match v with
  | None => Panic CallOnZeroValue
  | Some (VInterface dyn) => Ok dyn
  | Some d => Ok (Some d)
  end.

(** [v.Len()] of a slice or a map. *)
Definition Len (v : Value) : Z :=
  match v with
  | Some (VSlice _ items) | Some (VArray _ items) => Z.of_nat (List.length items)
  | Some (VMap _ _ entries) => Z.of_nat (List.length entries)
  | Some (VString s) => GoString.len s
  | _ => 0
  end.

(** [v.Index(i)] of a slice; it panics outside [0 <= i < v.Len()]. *)
Definition Index (v : Value) (i : Z) : outcome Value :=
  match v with
  | Some (VSlice _ items) =>
      if (0 <=? i) && (i <? Z.of_nat (List.length items))
      then match nth_error items (Z.to_nat i) with
           | Some d => Ok (Some d)
           | None => Panic IndexOutOfRange
           end
      else Panic IndexOutOfRange
  | _ => Panic IndexOutOfRange
  end.

(** [v.FieldByName(name)]: the zero Value when there is no such field. *)
Fixpoint FieldByName (fields : list (string * val)) (name : string) : Value :=
  match fields with
  | [] => None
  | (n, d) :: rest => if String.eqb n name then Some d else FieldByName rest name
  end.

(** [v.MapIndex(key)]: the zero Value when the key is not in the map. *)
Fixpoint MapIndex (entries : list (string * val)) (key : string) : Value :=
  match entries with
  | [] => None
  | (k, d) :: rest => if String.eqb k key then Some d else MapIndex rest key
  end.

Definition SliceOf (t : type) : type := TSlice t.

(** [reflect.MakeSlice(typ, 0, 0)] *)
Definition MakeSlice (typ : type) : outcome Value :=
  match typ with
  | TSlice e => Ok (Some (VSlice e []))
  | _ => Panic ElemOfInvalidType
  end.

(** [reflect.Append(s, x)]: [x] must be assignable to the element type of
    [s]; stored in an [interface{}] element it is boxed. *)
Definition Append (s x : Value) : outcome Value :=
  match s, x with
  | Some (VSlice e items), Some d =>
      if assignable e (TypeOf d) then
        if kind_eqb (TypeKind e) KInterface
        then match d with
             | VInterface _ => Ok (Some (VSlice e (items ++ [d])))
             | _ => Ok (Some (VSlice e (items ++ [VInterface (Some d)])))
             end
        else Ok (Some (VSlice e (items ++ [d])))
      else Panic NotAssignable
  | _, _ => Panic NotAssignable
  end.

(** [reflect.AppendSlice(s, t)]: both must be slices of one type. *)
Definition AppendSlice (s t : Value) : outcome Value :=
  match s, t with
  | Some (VSlice e items), Some (VSlice e' items') =>
      if type_eqb e e' then Ok (Some (VSlice e (items ++ items')))
      else Panic AppendSliceMismatch
  | _, _ => Panic AppendSliceMismatch
  end.

End Reflect.

(** What the program takes from its host: case folding of package
    [strings], the JSON decoder, the order in which the runtime iterates
    over a map, and the struct declarations of the program. *)
Record runtime : Type := {
  (** [strings.EqualFold] *)
  EqualFold : string -> string -> bool;
  (** [json.Unmarshal] of the text into a fresh [map[string]interface{}]:
      the entries of the map on success *)
  Unmarshal : string -> option (list (string * val));
  (** the order in which [MapRange] and [MapKeys] deliver the entries *)
  MapOrder : list (string * val) -> list (string * val);
  (** the fields, in declaration order, of the struct type of that name *)
  StructDecl : string -> list (string * type)
}.

(** ** Options *)

Record Options : Type := {
  ExpandStringAsJSON : bool;
  CaseInsentitive : bool
}.

(** ** The resolution engine *)

Section Engine.

Variable rt : runtime.

(** [getRealValue]: follow pointers and interfaces until the value is of
    another kind or is the zero Value. *)
Fixpoint realValueOf (d : val) : Value :=
  match d with
  | VPtr _ target =>
      match target with Some d' => realValueOf d' | None => None end
  | VInterface dyn =>
      match dyn with Some d' => realValueOf d' | None => None end
  | _ => Some d
  end.

Definition getRealValue (v : Value) : Value :=
  match v with
  | Some d => realValueOf d
  | None => None
  end.

(** The part of [getValueByName] after the [switch]: [value] is what the
    switch found, [index] what [parseIndex] returned. *)
Definition afterSwitch (value : Value) (index : Z) : outcome Value :=
  if negb (Reflect.IsValid value) then Err ErrKeyNotFound
  else
    let value := getRealValue value in
    if negb (index =? -1) then
      t <- Reflect.Type_ value ;;
      if negb (kind_eqb (TypeKind t) KSlice) then Err ErrInvalidIndexUsage
      else
        e <- Reflect.Index value index ;;
        Ok (getRealValue e)
    else Ok value.

(** [case reflect.Struct]: the field of that name; with
    [CaseInsentitive], failing that, the first declared field whose name
    equals [key] under case folding. *)
Definition structCase (fields : list (string * val)) (key : string)
    (opts : Options) : Value :=
  let value := Reflect.FieldByName fields key in
  if CaseInsentitive opts && kind_eqb (Reflect.Kind value) KInvalid then
    match find (fun f => EqualFold rt (fst f) key) fields with
    | Some (_, d) => Some d
    | None => value
    end
  else value.

(** [case reflect.Map]: the probe key is a fresh value of the key type,
    set with [SetString], which panics unless that type is of kind
    [String]; with [CaseInsentitive], failing the direct lookup, the
    first key delivered by the iterator that equals [key] under case
    folding is looked up. *)
Definition mapCase (kt : type) (entries : list (string * val)) (key : string)
    (opts : Options) : outcome Value :=
  if negb (kind_eqb (TypeKind kt) KString) then Panic SetStringOnNonString
  else
    let value := Reflect.MapIndex entries key in
    if CaseInsentitive opts && kind_eqb (Reflect.Kind value) KInvalid then
      match find (fun e => EqualFold rt key (fst e)) (MapOrder rt entries) with
      | Some (k, _) => Ok (Reflect.MapIndex entries k)
      | None => Ok value
      end
    else Ok value.

(** The [switch v.Kind()] of [getValueByName] for a value that is
    neither a pointer nor an interface: what [value] holds after it. *)
Definition switchValue (d : val) (key : string) (opts : Options)
    : outcome Value :=
  match d with
  | VStruct _ fields => Ok (structCase fields key opts)
  | VMap kt _ entries => mapCase kt entries key opts
  | _ => Ok None
  end.

(** [getValueByName] on the zero Value: no case of the switch applies. *)
Definition getValueByName_zero (key : string) : outcome Value :=
  ki <- parseIndex key ;;
  afterSwitch None (snd ki).

(** [getValueByName] on a valid Value.  For a pointer or an interface the
    call recurses on [v.Elem()] with the name [parseIndex] returned: the
    index it returned is not passed on. *)
Fixpoint getValueByName_val (d : val) (key : string) (opts : Options)
    : outcome Value :=
  ki <- parseIndex key ;;
  let key := fst ki in
  let index := snd ki in
  match d with
  | VPtr _ target =>
      match target with
      | Some d' => getValueByName_val d' key opts
      | None => getValueByName_zero key
      end
  | VInterface dyn =>
      match dyn with
      | Some d' => getValueByName_val d' key opts
      | None => getValueByName_zero key
      end
  | _ =>
      value <- switchValue d key opts ;;
      afterSwitch value index
  end.

Definition getValueByName (v : Value) (key : string) (opts : Options)
    : outcome Value :=
  match v with
  | Some d => getValueByName_val d key opts
  | None => getValueByName_zero key
  end.

Definition isAggregable (v : Value) : bool :=
  let k := Reflect.Kind v in
  kind_eqb k KMap || kind_eqb k KSlice.

Definition isMergeable (v : Value) : bool :=
  let k := Reflect.Kind v in
  kind_eqb k KMap || kind_eqb k KSlice.

Definition removeZeroValues (values : list Value) : list Value :=
  filter Reflect.IsValid values.

(** The loop of [mergeValue] over the entries left by
    [removeZeroValues]; [value] is the slice built so far. *)
Fixpoint mergeLoop (mergeable : bool) (values : list Value) (value : Value)
    : outcome Value :=
  match values with
  | [] => Ok value
  | x :: rest =>
      if negb (Reflect.IsValid x) then mergeLoop mergeable rest value
      else
        value' <- (if mergeable then Reflect.AppendSlice value x
                   else Reflect.Append value x) ;;
        mergeLoop mergeable rest value'
  end.

Definition mergeValue (values : list Value) : outcome Value :=
  let values := removeZeroValues values in
  match values with
  | [] => Ok None
  | sample :: _ =>
      let mergeable := isMergeable sample in
      t <- Reflect.Type_ sample ;;
      t <- (if mergeable then TypeElem t else Ok t) ;;
      value <- Reflect.MakeSlice (Reflect.SliceOf t) ;;
      mergeLoop mergeable values value
  end.

(** [lookupType]: recursion on the path, and for a fixed path on the type. *)
Fixpoint lookupType (path : list string) : type -> option type :=
  fix onType (ty : type) : option type :=
    match path with
    | [] => Some ty
    | part :: rest =>
        match ty with
        | TSlice e | TArray _ e | TMap _ e =>
            if hasIndex part then lookupType rest e else onType e
        | TPtr e => onType e
        | TInterface => Some ty
        | TStruct name =>
            match find (fun f => String.eqb (fst f) part) (StructDecl rt name) with
            | Some (_, ft) => lookupType rest ft
            | None => None
            end
        | TNamed _ u =>
            match u with
            | TInterface => Some ty
            | _ => onType u
            end
        | _ => None
        end
    end.

(** [expandStringAsJSON] *)
Definition expandStringAsJSON (v : Value) : option val :=
  match v with
  | Some (VString s) =>
      if String.eqb s "" then None
      else match Unmarshal rt s with
           | Some entries => Some (VMap TString TInterface entries)
           | None => None
           end
  | _ => None
  end.

Definition expanded (opts : Options) (value : Value) : Value :=
  if ExpandStringAsJSON opts then
    match expandStringAsJSON value with
    | Some out => Reflect.ValueOf (Some out)
    | None => value
    end
  else value.

(** [indexFunction(v)], tabulated over [0 <= i < v.Len()]. *)
Definition indexFunction (v : Value) : outcome (list Value) :=
  match v with
  | Some (VSlice _ items) => Ok (map Some items)
  | Some (VMap _ _ entries) =>
      let keys := map fst (MapOrder rt entries) in
      Ok (map (Reflect.MapIndex entries) keys)
  | _ => Panic UnsupportedKind
  end.

(** The debugging call [fmt.Printf("pre: ...", part, value.Type(), value)]
    made when [ExpandStringAsJSON] is set: its argument [value.Type()]
    panics on the zero Value; the text printed is left out. *)
Definition debugPre (opts : Options) (value : Value) : outcome unit :=
  if ExpandStringAsJSON opts then
    _ <- Reflect.Type_ value ;;
    Ok tt
  else Ok tt.

Section Driver.

(** The recursive call [lookup(index(i).Interface(), path, opts)]. *)
Variable rec : iface -> list string -> Options -> outcome Value.

(** The [for] loop of [aggreateAggregableValue]. *)
Fixpoint aggregateLoop (elems : list Value) (path : list string)
    (opts : Options) (values : list Value) : outcome (list Value) :=
  match elems with
  | [] => Ok values
  | e :: rest =>
      i <- Reflect.Interface e ;;
      value <- rec i path opts ;;
      aggregateLoop rest path opts (values ++ [value])
  end.

Definition aggreateAggregableValue (v : Value) (path : list string)
    (opts : Options) : outcome Value :=
  let l := Reflect.Len v in
  if l =? 0 then
    ty0 <- Reflect.Type_ v ;;
    match lookupType path ty0 with
    | None => Err ErrKeyNotFound
    | Some ty => Reflect.MakeSlice (Reflect.SliceOf ty)
    end
  else
    index <- indexFunction v ;;
    values <- aggregateLoop index path opts [] ;;
    mergeValue values.

(** The [for i, part := range path] loop of [lookup]; [path] is
    [path[i:]]. *)
Fixpoint lookupLoop (value : Value) (path : list string) (opts : Options)
    : outcome Value :=
  match path with
  | [] => Ok value
  | part :: rest =>
      let value := expanded opts value in
      let parent := value in
      _ <- debugPre opts value ;;
      match getValueByName value part opts with
      | Ok value' => lookupLoop value' rest opts
      | Err err =>
          if negb (isAggregable parent) then Err err
          else aggreateAggregableValue parent path opts
      | Panic p => Panic p
      | OutOfFuel => OutOfFuel
      end
  end.

End Driver.

(** [lookup]; [fuel] bounds the depth of the recursion through
    [aggreateAggregableValue]. *)
Fixpoint lookup (fuel : nat) (i : iface) (path : list string) (opts : Options)
    : outcome Value :=
  match fuel with
  | O => OutOfFuel
  | S fuel' =>
      let value := Reflect.ValueOf i in
      match path with
      | [] => Ok value
      | _ => lookupLoop (lookup fuel') (expanded opts value) path opts
      end
  end.

(** [Lookup]: [v.Interface()] panics when [lookup] returned the zero
    Value without an error. *)
Definition Lookup (fuel : nat) (i : iface) (path : string) (opts : Options)
    : outcome iface :=
  match lookup fuel i (GoString.Split path SplitToken) opts with
  | Ok v => Reflect.Interface v
  | Err err => Err err
  | Panic p => Panic p
  | OutOfFuel => OutOfFuel
  end.

End Engine.

(** ** The variables written through reflect *)

(** One call of the program writes through [reflect]: on a map
    [getValueByName] allocates a probe key with [reflect.New] and sets it
    with [SetString], once with the name of the segment and, in the
    fall-back, once more with the key that matched.  Module [Stateful]
    embeds the resolver and the driver a second time with the memory
    threaded through them: the variables that [reflect.New] allocated, in
    the order of their allocation.  A value is passed as [reflect.ValueOf]
    reads it; the variables that existed before a call, among them
    whatever the input refers to, are the memory the call starts in.  The
    slices that [mergeValue] builds start from [MakeSlice(t, 0, 0)] and
    grow by [Append], which writes in arrays of its own; they stay
    values.  [lookup_refines] relates the two embeddings. *)
Module Stateful.

(** A variable allocated by [reflect.New]: its type and, for a type of
    kind [String], the string it holds. *)
Record cell : Type := {
  cellType : type;
  cellString : string
}.

(** The address of a variable is its position in the memory. *)
Definition address : Type := nat.
Definition memory : Type := list cell.

(** A call made in a memory: its outcome and the memory it leaves. *)
Definition M (A : Type) : Type := memory -> outcome A * memory.

Definition ret {A : Type} (a : A) : M A := fun m => (Ok a, m).

(** A call that touches no variable. *)
Definition lift {A : Type} (o : outcome A) : M A := fun m => (o, m).

Definition bindM {A B : Type} (x : M A) (k : A -> M B) : M B :=
  fun m =>
    match x m with
    | (Ok a, m') => k a m'
    | (Err e, m') => (Err e, m')
    | (Panic p, m') => (Panic p, m')
    | (OutOfFuel, m') => (OutOfFuel, m')
    end.

Notation "x <~ m ;; k" := (bindM m (fun x => k))
  (at level 61, m at next level, right associativity).

(** [reflect.Indirect(reflect.New(t))]: a new variable of type [t]
    holding the zero value. *)
Definition New (t : type) : M address :=
  fun m => (Ok (List.length m), m ++ [{| cellType := t; cellString := "" |}]).

Fixpoint store (a : address) (c : cell) (m : memory) : memory :=
  match m with
  | [] => []
  | x :: rest =>
      match a with
      | O => c :: rest
      | S a' => x :: store a' c rest
      end
  end.

(** [kValue.SetString(s)] panics unless the variable is of kind
    [String]. *)
Definition SetString (kValue : address) (s : string) : M unit :=
  fun m =>
    match nth_error m kValue with
    | Some c =>
        if negb (kind_eqb (TypeKind (cellType c)) KString)
        then (Panic SetStringOnNonString, m)
        else (Ok tt, store kValue {| cellType := cellType c; cellString := s |} m)
    | None => (Panic CallOnZeroValue, m)
    end.

(** [v.MapIndex(kValue)]: the key is read from the variable. *)
Definition MapIndex (entries : list (string * val)) (kValue : address) : M Value :=
  fun m =>
    match nth_error m kValue with
    | Some c => (Ok (Reflect.MapIndex entries (cellString c)), m)
    | None => (Panic CallOnZeroValue, m)
    end.

Section Engine.

Variable rt : runtime.

(** [case reflect.Map] of [getValueByName] *)
Definition mapCase (kt : type) (entries : list (string * val)) (key : string)
    (opts : Options) : M Value :=
  kValue <~ New kt ;;
  _ <~ SetString kValue key ;;
  value <~ MapIndex entries kValue ;;
  if CaseInsentitive opts && kind_eqb (Reflect.Kind value) KInvalid then
    match find (fun e => EqualFold rt key (fst e)) (MapOrder rt entries) with
    | Some (k, _) =>
        _ <~ SetString kValue k ;;
        MapIndex entries kValue
    | None => ret value
    end
  else ret value.

Definition switchValue (d : val) (key : string) (opts : Options) : M Value :=
  match d with
  | VStruct _ fields => ret (structCase rt fields key opts)
  | VMap kt _ entries => mapCase kt entries key opts
  | _ => ret None
  end.

Fixpoint getValueByName_val (d : val) (key : string) (opts : Options) : M Value :=
  ki <~ lift (parseIndex key) ;;
  let key := fst ki in
  let index := snd ki in
  match d with
  | VPtr _ target =>
      match target with
      | Some d' => getValueByName_val d' key opts
      | None => lift (getValueByName_zero key)
      end
  | VInterface dyn =>
      match dyn with
      | Some d' => getValueByName_val d' key opts
      | None => lift (getValueByName_zero key)
      end
  | _ =>
      value <~ switchValue d key opts ;;
      lift (afterSwitch value index)
  end.

Definition getValueByName (v : Value) (key : string) (opts : Options) : M Value :=
  match v with
  | Some d => getValueByName_val d key opts
  | None => lift (getValueByName_zero key)
  end.

Section Driver.

Variable rec : iface -> list string -> Options -> M Value.

Fixpoint aggregateLoop (elems : list Value) (path : list string)
    (opts : Options) (values : list Value) : M (list Value) :=
  match elems with
  | [] => ret values
  | e :: rest =>
      i <~ lift (Reflect.Interface e) ;;
      value <~ rec i path opts ;;
      aggregateLoop rest path opts (values ++ [value])
  end.

Definition aggreateAggregableValue (v : Value) (path : list string)
    (opts : Options) : M Value :=
  let l := Reflect.Len v in
  if l =? 0 then
    lift (ty0 <- Reflect.Type_ v ;;
          match lookupType rt path ty0 with
          | None => Err ErrKeyNotFound
          | Some ty => Reflect.MakeSlice (Reflect.SliceOf ty)
          end)
  else
    index <~ lift (indexFunction rt v) ;;
    values <~ aggregateLoop index path opts [] ;;
    lift (mergeValue values).

Fixpoint lookupLoop (value : Value) (path : list string) (opts : Options)
    : M Value :=
  match path with
  | [] => ret value
  | part :: rest =>
      let value := expanded rt opts value in
      let parent := value in
      _ <~ lift (debugPre opts value) ;;
      fun m =>
        match getValueByName value part opts m with
        | (Ok value', m') => lookupLoop value' rest opts m'
        | (Err err, m') =>
            if negb (isAggregable parent) then (Err err, m')
            else aggreateAggregableValue parent path opts m'
        | (Panic p, m') => (Panic p, m')
        | (OutOfFuel, m') => (OutOfFuel, m')
        end
  end.

End Driver.

Fixpoint lookup (fuel : nat) (i : iface) (path : list string) (opts : Options)
    : M Value :=
  match fuel with
  | O => lift OutOfFuel
  | S fuel' =>
      let value := Reflect.ValueOf i in
      match path with
      | [] => ret value
      | _ => lookupLoop (lookup fuel') (expanded rt opts value) path opts
      end
  end.

Definition Lookup (fuel : nat) (i : iface) (path : string) (opts : Options)
    : M iface :=
  fun m =>
    match lookup fuel i (GoString.Split path SplitToken) opts m with
    | (Ok v, m') => (Reflect.Interface v, m')
    | (Err err, m') => (Err err, m')
    | (Panic p, m') => (Panic p, m')
    | (OutOfFuel, m') => (OutOfFuel, m')
    end.

End Engine.

End Stateful.

(** ** The later revision: matching by functions, separator by option *)

(** The parts of the later revision of the file that differ from the
    earlier one otherwise than by the error values: the options, the
    separator, the comparison through [MatchFunctions], the [switch] of
    [getValueByName] that uses it, and [lookupType], which there tests a
    segment with [strings.ContainsAny]. *)
Module Later.

Definition defaultSplitToken : string := ".".
Definition indexCloseChar : string := "]".
Definition indexOpenChar : string := "[".

Definition MatchFunc : Type := string -> string.

Record Options : Type := {
  ExpandStringAsJSON : bool;
  MatchFunctions : list MatchFunc;
  SplitToken : string
}.

(** [getSplitToken(opts)]; [None] is the [nil] pointer. *)
Definition getSplitToken (opts : option Options) : string :=
  match opts with
  | Some o => if negb (String.eqb (SplitToken o) "") then SplitToken o
              else defaultSplitToken
  | None => defaultSplitToken
  end.

Fixpoint compareWithMatchFunc (matchFuncs : list MatchFunc) (a b : string) : bool :=
  match matchFuncs with
  | [] => false
  | f :: rest =>
      if String.eqb (f a) (f b) then true else compareWithMatchFunc rest a b
  end.

(** [strings.ContainsAny(s, chars)] for [chars] of one-byte characters. *)
Fixpoint ContainsAny (s chars : string) : bool :=
  match chars with
  | EmptyString => false
  | String c chars' => GoString.occurs c s || ContainsAny s chars'
  end.

Section Switch.

Variable rt : runtime.

(** [case reflect.Struct]: the field of that name, and failing that the
    first declared field that [compareWithMatchFunc] matches. *)
Definition structCase (fields : list (string * val)) (key : string)
    (opts : Options) : Value :=
  let value := Reflect.FieldByName fields key in
  if kind_eqb (Reflect.Kind value) KInvalid then
    match find (fun f => compareWithMatchFunc (MatchFunctions opts) (fst f) key)
               fields with
    | Some (_, d) => Some d
    | None => value
    end
  else value.

(** [case reflect.Map] *)
Definition mapCase (kt : type) (entries : list (string * val)) (key : string)
    (opts : Options) : outcome Value :=
  if negb (kind_eqb (TypeKind kt) KString) then Panic SetStringOnNonString
  else
    let value := Reflect.MapIndex entries key in
    if kind_eqb (Reflect.Kind value) KInvalid then
      match find (fun e => compareWithMatchFunc (MatchFunctions opts) key (fst e))
                 (MapOrder rt entries) with
      | Some (k, _) => Ok (Reflect.MapIndex entries k)
      | None => Ok value
      end
    else Ok value.

(** The [switch v.Kind()] of [getValueByName] for a value that is neither
    a pointer nor an interface. *)
Definition switchValue (d : val) (key : string) (opts : Options)
    : outcome Value :=
  match d with
  | VStruct _ fields => Ok (structCase fields key opts)
  | VMap kt _ entries => mapCase kt entries key opts
  | _ => Ok None
  end.

Fixpoint lookupType (path : list string) : type -> option type :=
  fix onType (ty : type) : option type :=
    match path with
    | [] => Some ty
    | part :: rest =>
        match ty with
        | TSlice e | TArray _ e | TMap _ e =>
            if ContainsAny part (indexOpenChar ++ indexCloseChar)
            then lookupType rest e else onType e
        | TPtr e => onType e
        | TInterface => Some ty
        | TStruct name =>
            match find (fun f => String.eqb (fst f) part) (StructDecl rt name) with
            | Some (_, ft) => lookupType rest ft
            | None => None
            end
        | TNamed _ u =>
            match u with
            | TInterface => Some ty
            | _ => onType u
            end
        | _ => None
        end
    end.

End Switch.

End Later.


(** ** Fixtures of the test file *)

Module Fixtures.

Definition lower (a : ascii) : ascii :=
  let n := nat_of_ascii a in
  if (Nat.leb 65 n && Nat.leb n 90)%bool then ascii_of_nat (n + 32) else a.

(** [strings.EqualFold] on ASCII strings. *)
Fixpoint asciiEqualFold (s t : string) : bool :=
  match s, t with
  | EmptyString, EmptyString => true
  | String a s', String b t' => Ascii.eqb (lower a) (lower b) && asciiEqualFold s' t'
  | _, _ => false
  end.

(** [strings.ToLower] on ASCII strings. *)
Fixpoint toLower (s : string) : string :=
  match s with
  | EmptyString => EmptyString
  | String a s' => String (lower a) (toLower s')
  end.

Definition MyStruct : type := TStruct "MyStruct".

Definition declarations (name : string) : list (string * type) :=
  if String.eqb name "MyStruct" then
    [ ("String", TString);
      ("Map", TMap TString TInt);
      ("Nested", TPtr MyStruct);
      ("StructSlice", TSlice (TPtr MyStruct));
      ("Interface", TInterface);
      ("JSONString", TString) ]
  else if String.eqb name "caseFixture" then
    [ ("Foo", TInt); ("TestField", TInt); ("Testfield", TInt); ("testField", TInt) ]
  else if String.eqb name "Cast" then
    [ ("Actor", TString); ("Role", TString) ]
  else if String.eqb name "Serie" then
    [ ("Cast", TSlice (TStruct "Cast")) ]
  else [].

(** A host that iterates over a map in the order of the listing, and one
    that iterates in the opposite order.  Neither expands any string:
    the examples run with [ExpandStringAsJSON] unset. *)
Definition forward : runtime :=
  {| EqualFold := asciiEqualFold;
     Unmarshal := fun _ => None;
     MapOrder := fun entries => entries;
     StructDecl := declarations |}.

Definition backward : runtime :=
  {| EqualFold := asciiEqualFold;
     Unmarshal := fun _ => None;
     MapOrder := fun entries => rev entries;
     StructDecl := declarations |}.

(** A host whose decoder knows the one JSON text [{}], the object
    without members. *)
Definition decoding : runtime :=
  {| EqualFold := asciiEqualFold;
     Unmarshal := fun s => if String.eqb s "{}" then Some [] else None;
     MapOrder := fun entries => entries;
     StructDecl := declarations |}.

Definition plain : Options :=
  {| ExpandStringAsJSON := false; CaseInsentitive := false |}.

Definition folding : Options :=
  {| ExpandStringAsJSON := false; CaseInsentitive := true |}.

Definition mapFixture : val := VMap TString TInt [("foo", VInt 42)].

Definition mapFixtureNamed : val :=
  VMap (TNamed "MyKey" TString) TInt [("foo", VInt 42)].

(** [MyStruct{String: s, Map: m, StructSlice: slice, Interface: i}];
    the fields left out hold their zero values. *)
Definition myStruct (s : string) (m : list (string * val)) (slice : list val)
    (i : option val) : val :=
  VStruct "MyStruct"
    [ ("String", VString s);
      ("Map", VMap TString TInt m);
      ("Nested", VPtr MyStruct None);
      ("StructSlice", VSlice (TPtr MyStruct) slice);
      ("Interface", VInterface i);
      ("JSONString", VString "") ].

Definition ref (d : val) : val := VPtr MyStruct (Some d).

Definition structFixture : val :=
  myStruct "foo" [("foo", VInt 42)]
    [ ref (myStruct "foo" [("foo", VInt 42)]
             [ref (myStruct "bar" [] [] None); ref (myStruct "foo" [] [] None)] None);
      ref (myStruct "qux" [("foo", VInt 42)]
             [ref (myStruct "qux" [] [] None); ref (myStruct "baz" [] [] None)] None) ]
    (Some (VString "foo")).

Definition caseFixtureStruct : val :=
  VStruct "caseFixture"
    [("Foo", VInt 0); ("TestField", VInt 1); ("Testfield", VInt 2); ("testField", VInt 3)].

Definition caseFixtureMap : val :=
  VMap TString TInt
    [("Foo", VInt 0); ("TestKey", VInt 1); ("Testkey", VInt 2); ("testKey", VInt 3)].

(** The value of the example in the test file. *)
Definition cast (actor role : string) : val :=
  VStruct "Cast" [("Actor", VString actor); ("Role", VString role)].

Definition series : val :=
  VMap TString (TStruct "Serie")
    [("A-Team",
      VStruct "Serie"
        [("Cast",
          VSlice (TStruct "Cast")
            [cast "George Peppard" "Hannibal"; cast "Dwight Schultz" "Murdock";
             cast "Mr. T" "Baracus"; cast "Dirk Benedict" "Faceman"])])].

(** [Lookup] on the forward host, with a budget that covers the fixtures. *)
Definition run (d : val) (path : string) (opts : Options) : outcome iface :=
  Lookup forward 4 (Some d) path opts.

End Fixtures.

(** ** Vocabulary of the statements *)

(** The items of a slice. *)
Definition sliceItems (d : val) : list val :=
  match d with
  | VSlice _ items => items
  | _ => []
  end.

(** The host [rt] with another order of iteration over maps. *)
Definition withMapOrder (rt : runtime)
    (order : list (string * val) -> list (string * val)) : runtime :=
  {| EqualFold := EqualFold rt;
     Unmarshal := Unmarshal rt;
     MapOrder := order;
     StructDecl := StructDecl rt |}.

(** No slice and no map inside the value is empty. *)
Fixpoint inhabited (d : val) : bool :=
  match d with
  | VInterface dyn =>
      match dyn with Some d' => inhabited d' | None => true end
  | VPtr _ target =>
      match target with Some d' => inhabited d' | None => true end
  | VSlice _ items =>
      match items with [] => false | _ => forallb inhabited items end
  | VArray _ items => forallb inhabited items
  | VMap _ _ entries =>
      match entries with
      | [] => false
      | _ => forallb (fun kv => inhabited (snd kv)) entries
      end
  | VStruct _ fields => forallb (fun f => inhabited (snd f)) fields
  | _ => true
  end.

Definition inhabitedValue (v : Value) : bool :=
  match v with
  | Some d => inhabited d
  | None => true
  end.

(** A property of values, taken to hold of the zero Value. *)
Definition onValue (P : val -> bool) (v : Value) : bool :=
  match v with
  | Some d => P d
  | None => true
  end.

(** No slice and no map inside the value is empty and, when the options
    ask for the expansion of JSON strings, every string inside the value
    that is not empty and that the decoder accepts stands for a map that
    is not empty and whose members satisfy [deeper]. *)
Fixpoint settledWith (rt : runtime) (opts : Options) (deeper : val -> bool)
    (d : val) : bool :=
  match d with
  | VString s =>
      if ExpandStringAsJSON opts && negb (String.eqb s "") then
        match Unmarshal rt s with
        | Some entries =>
            match entries with
            | [] => false
            | _ => forallb (fun kv => deeper (snd kv)) entries
            end
        | None => true
        end
      else true
  | VInterface dyn =>
      match dyn with Some d' => settledWith rt opts deeper d' | None => true end
  | VPtr _ target =>
      match target with Some d' => settledWith rt opts deeper d' | None => true end
  | VSlice _ items =>
      match items with
      | [] => false
      | _ => forallb (settledWith rt opts deeper) items
      end
  | VArray _ items => forallb (settledWith rt opts deeper) items
  | VMap _ _ entries =>
      match entries with
      | [] => false
      | _ => forallb (fun kv => settledWith rt opts deeper (snd kv)) entries
      end
  | VStruct _ fields => forallb (fun f => settledWith rt opts deeper (snd f)) fields
  | _ => true
  end.

(** No slice and no map is empty inside the value or inside what its
    strings stand for, the decoded maps being followed through fewer than
    [n] nested decodings.  With [ExpandStringAsJSON] unset no string is
    decoded and the condition is on the value alone. *)
Fixpoint settled (rt : runtime) (opts : Options) (n : nat) (d : val) : bool :=
  match n with
  | O => false
  | S n' => settledWith rt opts (settled rt opts n') d
  end.

Definition settledValue (rt : runtime) (opts : Options) (n : nat) (v : Value)
    : bool :=
  onValue (settled rt opts n) v.

(** A call in a memory refines a call of the embedding without memory:
    in every memory it has that outcome and leaves the memory it started
    in, followed by the variables it allocated. *)
Definition refines {A : Type} (x : Stateful.M A) (o : outcome A) : Prop :=
  forall m, exists fresh, x m = (o, m ++ fresh).

(** A Value that is neither a pointer nor an interface. *)
Definition direct (v : Value) : Prop :=
  Reflect.Kind v <> KPtr /\ Reflect.Kind v <> KInterface.

(** How [reflect.Append] stores [d] in a slice of element type [e]: in an
    [interface{}] element a value that is not an interface is boxed. *)
Definition stored (e : type) (d : val) : val :=
  if kind_eqb (TypeKind e) KInterface then
    match d with
    | VInterface _ => d
    | _ => VInterface (Some d)
    end
  else d.


(** Segments resolved one after the other by [getValueByName] alone, as
    the loop of [lookup] does while no segment fails. *)
Fixpoint resolveAll (rt : runtime) (opts : Options) (value : Value)
    (path : list string) : outcome Value :=
  match path with
  | [] => Ok value
  | part :: rest =>
      value' <- getValueByName rt (expanded rt opts value) part opts ;;
      resolveAll rt opts value' rest
  end.


(** The type under every leading pointer, slice, array and map. *)
Fixpoint innermost (t : type) : type :=
  match t with
  | TPtr e | TSlice e | TArray _ e | TMap _ e => innermost e
  | TNamed _ u =>
      match u with
      | TInterface => t
      | _ => innermost u
      end
  | _ => t
  end.


(** The items of the slice held by the field [name] of a struct. *)
Definition fieldItems (name : string) (d : val) : list val :=
  match d with
  | VStruct _ fields =>
      match Reflect.FieldByName fields name with
      | Some x => sliceItems x
      | None => []
      end
  | _ => []
  end.


(** Nesting depth of a value: a bound on the depth of the recursion of
    [lookup] through the aggregator when no string is expanded. *)
Fixpoint depth (d : val) : nat :=
  match d with
  | VInterface dyn =>
      match dyn with Some d' => S (depth d') | None => O end
  | VPtr _ target =>
      match target with Some d' => S (depth d') | None => O end
  | VSlice _ items => S (list_max (map depth items))
  | VArray _ items => S (list_max (map depth items))
  | VMap _ _ entries => S (list_max (map (fun kv => depth (snd kv)) entries))
  | VStruct _ fields => S (list_max (map (fun f => depth (snd f)) fields))
  | _ => O
  end.

Definition depthOf (v : Value) : nat :=
  match v with
  | Some d => depth d
  | None => O
  end.

(** ** Facts about the string functions *)

Section StringFacts.

Lemma len_nonneg (s : string) : 0 <= GoString.len s.
Proof. unfold GoString.len. lia. Qed.

Lemma len_append (a b : string) :
  GoString.len (a ++ b)%string = GoString.len a + GoString.len b.
Proof.
  unfold GoString.len. induction a as [|c a IH]; simpl String.length in *; lia.
Qed.

Lemma prefix_byte (c : ascii) (s : string) :
  prefix (String c EmptyString) s =
  match s with
  | EmptyString => false
  | String a _ => Ascii.eqb a c
  end.
Proof.
  destruct s as [|a s]; simpl; [reflexivity|].
  destruct (ascii_dec c a) as [->|Hne].
  - rewrite Ascii.eqb_refl. destruct s; reflexivity.
  - symmetry. apply Ascii.eqb_neq. congruence.
Qed.

Lemma Index_byte_bounds (c : ascii) (s : string) :
  -1 <= GoString.Index s (String c EmptyString) < GoString.len s
  \/ (s = EmptyString /\ GoString.Index s (String c EmptyString) = -1).
Proof.
  induction s as [|a s IH].
  - right. split; reflexivity.
  - left. cbn [GoString.Index]. rewrite prefix_byte.
    unfold GoString.len in *. simpl String.length.
    destruct (Ascii.eqb a c); [lia|].
    destruct (GoString.Index s (String c EmptyString) =? -1) eqn:E; [lia|].
    apply Z.eqb_neq in E. destruct IH as [IH|[-> IH]]; [lia|].
    simpl in E. congruence.
Qed.

Lemma Index_byte_absent (c : ascii) (s : string) :
  GoString.Index s (String c EmptyString) = -1 <-> GoString.occurs c s = false.
Proof.
  induction s as [|a s IH].
  - split; reflexivity.
  - cbn [GoString.Index GoString.occurs]. rewrite prefix_byte.
    destruct (Ascii.eqb a c); simpl; [split; discriminate|].
    destruct (GoString.Index s (String c EmptyString) =? -1) eqn:E.
    + apply Z.eqb_eq in E. split; intros _; [apply IH; exact E|reflexivity].
    + apply Z.eqb_neq in E.
      pose proof (Index_byte_bounds c s) as B.
      split; intros H.
      * destruct B as [B|[_ B]]; [lia|congruence].
      * apply IH in H. congruence.
Qed.

Lemma Index_byte_first (c : ascii) (a b : string) :
  GoString.occurs c a = false ->
  GoString.Index (a ++ String c b)%string (String c EmptyString) = GoString.len a.
Proof.
  induction a as [|x a IH]; intros H.
  - cbn [append GoString.Index]. rewrite prefix_byte, Ascii.eqb_refl. reflexivity.
  - cbn [GoString.occurs] in H. apply orb_false_iff in H as [Hx Ha].
    cbn [append GoString.Index]. rewrite prefix_byte, Hx, (IH Ha).
    unfold GoString.len. simpl String.length.
    destruct (Z.of_nat (String.length a) =? -1) eqn:E.
    + apply Z.eqb_eq in E. lia.
    + lia.
Qed.

Lemma occurs_append (c : ascii) (a b : string) :
  GoString.occurs c (a ++ b)%string = GoString.occurs c a || GoString.occurs c b.
Proof.
  induction a as [|x a IH]; simpl; [reflexivity|].
  rewrite IH. apply orb_assoc.
Qed.

Lemma substring_head (a b : string) :
  substring 0 (String.length a) (a ++ b)%string = a.
Proof. induction a as [|x a IH]; simpl; [destruct b; reflexivity|now rewrite IH]. Qed.

Lemma substring_skip (a b : string) (n : nat) :
  substring (String.length a) n (a ++ b)%string = substring 0 n b.
Proof. induction a as [|x a IH]; simpl; [reflexivity|exact IH]. Qed.

Lemma slice_head (a b : string) :
  GoString.slice (a ++ b)%string 0 (GoString.len a) = Some a.
Proof.
  unfold GoString.slice. rewrite len_append.
  pose proof (len_nonneg a). pose proof (len_nonneg b).
  replace ((0 <=? 0) && (0 <=? GoString.len a)
           && (GoString.len a <=? GoString.len a + GoString.len b)) with true.
  - unfold GoString.len. rewrite Z.sub_0_r, Nat2Z.id. simpl Z.to_nat.
    now rewrite substring_head.
  - symmetry. rewrite !andb_true_iff. repeat split; apply Z.leb_le; lia.
Qed.

Lemma len_cons (x : ascii) (s : string) :
  GoString.len (String x s) = 1 + GoString.len s.
Proof. unfold GoString.len. simpl String.length. lia. Qed.

Lemma slice_middle (a b c : string) (x : ascii) :
  GoString.slice (a ++ String x (b ++ c))%string
    (GoString.len a + 1) (GoString.len a + 1 + GoString.len b) = Some b.
Proof.
  unfold GoString.slice.
  pose proof (len_nonneg a). pose proof (len_nonneg b). pose proof (len_nonneg c).
  rewrite len_append, len_cons, len_append.
  replace ((0 <=? GoString.len a + 1)
           && (GoString.len a + 1 <=? GoString.len a + 1 + GoString.len b)
           && (GoString.len a + 1 + GoString.len b
               <=? GoString.len a + (1 + (GoString.len b + GoString.len c)))) with true.
  2:{ symmetry. rewrite !andb_true_iff. repeat split; apply Z.leb_le; lia. }
  replace (GoString.len a + 1 + GoString.len b - (GoString.len a + 1))
    with (GoString.len b) by lia.
  replace (Z.to_nat (GoString.len a + 1))
    with (String.length (a ++ String x EmptyString)%string).
  2:{ pose proof (len_append a (String x EmptyString)) as E.
      rewrite len_cons in E. unfold GoString.len in *. simpl in E. lia. }
  replace (a ++ String x (b ++ c))%string
    with ((a ++ String x EmptyString) ++ (b ++ c))%string.
  2:{ clear. induction a as [|y a IH]; simpl; [reflexivity|now rewrite IH]. }
  rewrite substring_skip. unfold GoString.len. rewrite Nat2Z.id.
  now rewrite substring_head.
Qed.

End StringFacts.

(** ** The segment parser *)

Section ParserFacts.

Lemma parseIndex_plain (s : string) :
  GoString.occurs "["%char s = false ->
  GoString.occurs "]"%char s = false ->
  parseIndex s = Ok (s, -1).
Proof.
  intros Ho Hc. unfold parseIndex, IndexOpenChar, IndexCloseChar.
  apply Index_byte_absent in Ho. apply Index_byte_absent in Hc.
  rewrite Ho, Hc. reflexivity.
Qed.

Lemma parseIndex_dangling (s : string) :
  GoString.occurs "["%char s <> GoString.occurs "]"%char s ->
  parseIndex s = Err ErrMalformedIndex.
Proof.
  intros H. unfold parseIndex, IndexOpenChar, IndexCloseChar.
  pose proof (Index_byte_absent "["%char s) as Ao.
  pose proof (Index_byte_absent "]"%char s) as Ac.
  destruct (GoString.Index s (String "["%char EmptyString) =? -1) eqn:Eo;
    destruct (GoString.Index s (String "]"%char EmptyString) =? -1) eqn:Ec;
    try reflexivity; exfalso.
  - apply Z.eqb_eq in Eo, Ec. apply Ao in Eo. apply Ac in Ec. congruence.
  - apply Z.eqb_neq in Eo, Ec.
    destruct (GoString.occurs "["%char s) eqn:Oo; [|apply Eo, Ao; reflexivity].
    destruct (GoString.occurs "]"%char s) eqn:Oc; [|apply Ec, Ac; reflexivity].
    congruence.
Qed.

Lemma parseIndex_bracketed (name digits rest : string) :
  GoString.occurs "["%char name = false ->
  GoString.occurs "]"%char name = false ->
  GoString.occurs "]"%char digits = false ->
  parseIndex (name ++ String "["%char (digits ++ String "]"%char rest))%string =
  match GoString.Atoi digits with
  | Some n => Ok (name, n)
  | None => Err ErrMalformedIndex
  end.
Proof.
  intros Ho Hc Hd. unfold parseIndex, IndexOpenChar, IndexCloseChar.
 
  rewrite (Index_byte_first "["%char name _ Ho).
  assert (Hend : GoString.Index
                   (name ++ String "["%char (digits ++ String "]"%char rest))%string
                   (String "]"%char EmptyString)
                 = GoString.len name + 1 + GoString.len digits).
  { replace (name ++ String "["%char (digits ++ String "]"%char rest))%string
      with ((name ++ String "["%char digits) ++ String "]"%char rest)%string.
    2:{ clear. induction name as [|y a IH]; simpl; [reflexivity|now rewrite IH]. }
    rewrite Index_byte_first.
    - rewrite len_append, len_cons. lia.
    - rewrite occurs_append. cbn [GoString.occurs]. rewrite Hc, Hd.
      reflexivity. }
  rewrite Hend.
  pose proof (len_nonneg name). pose proof (len_nonneg digits).
  destruct (GoString.len name =? -1) eqn:E1; [apply Z.eqb_eq in E1; lia|].
  destruct (GoString.len name + 1 + GoString.len digits =? -1) eqn:E2;
    [apply Z.eqb_eq in E2; lia|].
  cbn [andb orb negb].
  rewrite slice_middle, slice_head. reflexivity.
Qed.

End ParserFacts.

(** C5 (counterexample).  The piece ["foo[-5]bar"] has both brackets; the
    text between them is not a non-negative integer and the piece without
    its bracketed portion is ["foobar"], yet the parse neither fails with
    [ErrMalformedIndex] nor yields the name ["foobar"] with a non-negative
    index: it yields the name ["foo"] and the index -5. *)
Lemma parseIndex_contract_counterexample :
  parseIndex "foo[-5]bar" = Ok ("foo", -5) /\
  ~ (parseIndex "foo[-5]bar" = Err ErrMalformedIndex \/
     exists n, 0 <= n /\ parseIndex "foo[-5]bar" = Ok ("foobar", n)).
Proof.
  split; [reflexivity|].
  intros [H|[n [_ H]]]; vm_compute in H; discriminate.
Qed.

(** C5 (amended).  A piece without ['['] and [']'] is its own name and has
    no index (-1); a piece with exactly one of the two fails with
    [ErrMalformedIndex], and so do ["foo["], ["foo]"] and ["foo[]"]; in a
    piece whose first ['['] comes before its first [']'] the text between
    the two is read by [strconv.Atoi] (decimal digits after an optional
    sign): when that fails the parse fails with [ErrMalformedIndex], and
    otherwise the name is the part of the piece before the first ['['] and
    the index is the integer read. *)
Theorem parseIndex_contract (s : string) :
  (GoString.occurs "[" s = false -> GoString.occurs "]" s = false ->
   parseIndex s = Ok (s, -1)) /\
  (GoString.occurs "[" s <> GoString.occurs "]" s ->
   parseIndex s = Err ErrMalformedIndex) /\
  (forall name digits rest : string,
     s = (name ++ "[" ++ digits ++ "]" ++ rest)%string ->
     GoString.occurs "[" name = false ->
     GoString.occurs "]" name = false ->
     GoString.occurs "]" digits = false ->
     parseIndex s = match GoString.Atoi digits with
                    | Some n => Ok (name, n)
                    | None => Err ErrMalformedIndex
                    end) /\
  parseIndex "foo[" = Err ErrMalformedIndex /\
  parseIndex "foo]" = Err ErrMalformedIndex /\
  parseIndex "foo[]" = Err ErrMalformedIndex.
Proof.
  split; [apply parseIndex_plain|].
  split; [apply parseIndex_dangling|].
  split; [|repeat split; reflexivity].
  intros name digits rest -> Ho Hc Hd.
  exact (parseIndex_bracketed name digits rest Ho Hc Hd).
Qed.

Lemma parseIndex_contract_witness :
  parseIndex "foo" = Ok ("foo", -1) /\
  parseIndex "foo[42" = Err ErrMalformedIndex /\
  parseIndex "foo[42]" = Ok ("foo", 42) /\
  parseIndex "foo[x]" = Err ErrMalformedIndex.
Proof.
  split; [|split; [|split]].
  - apply (proj1 (parseIndex_contract "foo")); reflexivity.
  - apply (proj1 (proj2 (parseIndex_contract "foo[42"))). simpl. discriminate.
  - apply (proj1 (proj2 (proj2 (parseIndex_contract "foo[42]"))) "foo" "42" "");
      reflexivity.
  - apply (proj1 (proj2 (proj2 (parseIndex_contract "foo[x]"))) "foo" "x" "");
      reflexivity.
Defined.

(** ** Facts about kinds, types and the helpers of the resolver *)

Lemma kind_eqb_eq (a b : kind) : kind_eqb a b = true <-> a = b.
Proof. destruct a, b; simpl; split; intros H; try reflexivity; discriminate. Qed.

Lemma kind_eqb_neq (a b : kind) : kind_eqb a b = false <-> a <> b.
Proof.
  split.
  - intros H E. apply kind_eqb_eq in E. congruence.
  - intros H. destruct (kind_eqb a b) eqn:E; [|reflexivity].
    apply kind_eqb_eq in E. contradiction.
Qed.

Lemma type_eqb_refl (t : type) : type_eqb t t = true.
Proof.
  induction t; simpl; try reflexivity; try assumption;
    rewrite ?String.eqb_refl, ?Nat.eqb_refl, ?IHt, ?IHt1, ?IHt2; reflexivity.
Qed.

Lemma type_eqb_eq (a b : type) : type_eqb a b = true <-> a = b.
Proof.
  split; [|intros ->; apply type_eqb_refl].
  revert b. induction a; intros b H; destruct b; simpl in H; try discriminate;
    try reflexivity.
  - apply andb_true_iff in H as [H1 H2]. apply String.eqb_eq in H1.
    apply IHa in H2. congruence.
  - apply IHa in H. congruence.
  - apply IHa in H. congruence.
  - apply andb_true_iff in H as [H1 H2]. apply Nat.eqb_eq in H1.
    apply IHa in H2. congruence.
  - apply andb_true_iff in H as [H1 H2]. apply IHa1 in H1. apply IHa2 in H2.
    congruence.
  - apply String.eqb_eq in H. congruence.
Qed.

Lemma TypeKind_valid (t : type) : kind_eqb (TypeKind t) KInvalid = false.
Proof. induction t; simpl; try reflexivity; assumption. Qed.

Lemma Kind_valid (d : val) : kind_eqb (Reflect.Kind (Some d)) KInvalid = false.
Proof. apply TypeKind_valid. Qed.

Section ResolverFacts.

Variable rt : runtime.

Lemma getRealValue_valid (value : Value) (m : val) :
  getRealValue value = Some m -> Reflect.IsValid value = true.
Proof. destruct value; [reflexivity|discriminate]. Qed.

(** For a value that is neither a pointer nor an interface the call is
    the parse, the switch and the part after it. *)
Lemma getValueByName_direct (d : val) (key : string) (opts : Options) :
  Reflect.Kind (Some d) <> KPtr ->
  Reflect.Kind (Some d) <> KInterface ->
  getValueByName rt (Some d) key opts =
  (ki <- parseIndex key ;;
   value <- switchValue rt d (fst ki) opts ;;
   afterSwitch value (snd ki)).
Proof.
  intros Hp Hi. destruct d; try reflexivity; simpl in Hp, Hi; congruence.
Qed.

Lemma afterSwitch_no_index (value : Value) :
  afterSwitch value (-1) =
  if Reflect.IsValid value then Ok (getRealValue value) else Err ErrKeyNotFound.
Proof. unfold afterSwitch. destruct (Reflect.IsValid value); reflexivity. Qed.

Lemma afterSwitch_not_slice (value : Value) (m : val) (index : Z) :
  getRealValue value = Some m ->
  TypeKind (TypeOf m) <> KSlice ->
  index <> -1 ->
  afterSwitch value index = Err ErrInvalidIndexUsage.
Proof.
  intros Hm Hk Hi. unfold afterSwitch.
  rewrite (getRealValue_valid _ _ Hm), Hm. cbn [negb].
  apply Z.eqb_neq in Hi. rewrite Hi. cbn [negb Reflect.Type_ bind].
  apply kind_eqb_neq in Hk. rewrite Hk. reflexivity.
Qed.

Lemma afterSwitch_slice (value : Value) (e : type) (items : list val) (index : Z) :
  getRealValue value = Some (VSlice e items) ->
  index <> -1 ->
  afterSwitch value index =
  (x <- Reflect.Index (Some (VSlice e items)) index ;; Ok (getRealValue x)).
Proof.
  intros Hm Hi. unfold afterSwitch.
  rewrite (getRealValue_valid _ _ Hm), Hm. cbn [negb].
  apply Z.eqb_neq in Hi. rewrite Hi. reflexivity.
Qed.

Lemma Index_in_range (e : type) (items : list val) (index : Z) (x : val) :
  0 <= index ->
  nth_error items (Z.to_nat index) = Some x ->
  Reflect.Index (Some (VSlice e items)) index = Ok (Some x).
Proof.
  intros H0 Hx. unfold Reflect.Index.
  assert (Hlt : (Z.to_nat index < List.length items)%nat).
  { apply nth_error_Some. congruence. }
  replace ((0 <=? index) && (index <? Z.of_nat (List.length items))) with true.
  - rewrite Hx. reflexivity.
  - symmetry. apply andb_true_iff. split; [apply Z.leb_le|apply Z.ltb_lt]; lia.
Qed.

Lemma Index_out_of_range (e : type) (items : list val) (index : Z) :
  Z.of_nat (List.length items) <= index ->
  Reflect.Index (Some (VSlice e items)) index = Panic IndexOutOfRange.
Proof.
  intros H. unfold Reflect.Index.
  replace (index <? Z.of_nat (List.length items)) with false.
  - rewrite andb_false_r. reflexivity.
  - symmetry. apply Z.ltb_ge. exact H.
Qed.

Lemma expanded_not_string (opts : Options) (d : val) :
  Reflect.Kind (Some d) <> KString ->
  expanded rt opts (Some d) = Some d.
Proof.
  intros H. unfold expanded, expandStringAsJSON.
  destruct (ExpandStringAsJSON opts); [|reflexivity].
  destruct d; try reflexivity. simpl in H. congruence.
Qed.

Lemma lookup_step (fuel : nat) (i : iface) (part : string) (rest : list string)
    (opts : Options) :
  lookup rt (S fuel) i (part :: rest) opts =
  lookupLoop rt (lookup rt fuel) (expanded rt opts i) (part :: rest) opts.
Proof. reflexivity. Qed.

Lemma expanded_idem (opts : Options) (v : Value) :
  expanded rt opts (expanded rt opts v) = expanded rt opts v.
Proof.
  unfold expanded. destruct (ExpandStringAsJSON opts); [|reflexivity].
  destruct (expandStringAsJSON rt v) eqn:E; [|now rewrite E].
  unfold expandStringAsJSON in E.
  destruct v as [[]|]; try discriminate.
  destruct (String.eqb s EmptyString); [discriminate|].
  destruct (Unmarshal rt s); [|discriminate].
  injection E as <-. reflexivity.
Qed.

End ResolverFacts.

(** ** Indexing *)

(** C6.  The code has no bounds check and no error for an index beyond the
    sequence: when the matched value, stripped of indirections, is a slice
    of [n] items and the segment carries an index [i >= n], the call of
    [Index] panics and no error is returned. *)
Theorem index_out_of_range_panics (rt : runtime) (d : val) (key name : string)
    (index : Z) (opts : Options) (value : Value) (e : type) (items : list val) :
  Reflect.Kind (Some d) <> KPtr ->
  Reflect.Kind (Some d) <> KInterface ->
  parseIndex key = Ok (name, index) ->
  switchValue rt d name opts = Ok value ->
  getRealValue value = Some (VSlice e items) ->
  Z.of_nat (List.length items) <= index ->
  getValueByName rt (Some d) key opts = Panic IndexOutOfRange.
Proof.
  intros Hp Hi Hparse Hsw Hm Hlen.
  rewrite (getValueByName_direct rt d key opts Hp Hi), Hparse.
  cbn [bind fst snd]. rewrite Hsw. cbn [bind].
  rewrite (afterSwitch_slice value e items index Hm) by lia.
  rewrite (Index_out_of_range e items index Hlen). reflexivity.
Qed.

Lemma index_out_of_range_panics_witness :
  getValueByName Fixtures.forward (Some Fixtures.structFixture) "StructSlice[7]"
    Fixtures.plain = Panic IndexOutOfRange
  /\ Lookup Fixtures.forward 3 (Some Fixtures.structFixture) "StructSlice[7]"
       Fixtures.plain = Panic IndexOutOfRange.
Proof.
  split; [|reflexivity].
  eapply (index_out_of_range_panics Fixtures.forward Fixtures.structFixture
            "StructSlice[7]" "StructSlice" 7 Fixtures.plain).
  - discriminate.
  - discriminate.
  - reflexivity.
  - reflexivity.
  - reflexivity.
  - simpl. lia.
Defined.

(** C7 (counterexample).  Behind a pointer the segment ["String[0]"]
    carries the index 0 and matches a string, which is no sequence, yet the
    resolution does not fail with [ErrInvalidIndexUsage]: it returns the
    string. *)
Lemma invalid_index_usage_counterexample :
  getValueByName Fixtures.forward (Some (Fixtures.ref Fixtures.structFixture))
    "String[0]" Fixtures.plain = Ok (Some (VString "foo"))
  /\ Lookup Fixtures.forward 3 (Some (Fixtures.ref Fixtures.structFixture))
       "String[0]" Fixtures.plain <> Err ErrInvalidIndexUsage.
Proof. split; [reflexivity|vm_compute; discriminate]. Qed.

(** C7 (amended).  Let a segment carry an index other than -1.  Resolved on
    a non-nil pointer or interface, the segment is resolved on the value
    pointed to with its index dropped.  Resolved on any other value whose
    matched value, stripped of indirections, is valid: when that value is
    not a slice the resolution fails with [ErrInvalidIndexUsage]; when it
    is a slice and the index is within its length the result is the item
    at that position, stripped of indirections. *)
Theorem invalid_index_usage (rt : runtime) (d : val) (key name : string)
    (index : Z) (opts : Options) :
  parseIndex key = Ok (name, index) ->
  index <> -1 ->
  (forall d' : val,
     (exists t, d = VPtr t (Some d')) \/ d = VInterface (Some d') ->
     getValueByName rt (Some d) key opts = getValueByName rt (Some d') name opts) /\
  (Reflect.Kind (Some d) <> KPtr ->
   Reflect.Kind (Some d) <> KInterface ->
   forall (value : Value) (m : val),
     switchValue rt d name opts = Ok value ->
     getRealValue value = Some m ->
     (TypeKind (TypeOf m) <> KSlice ->
      getValueByName rt (Some d) key opts = Err ErrInvalidIndexUsage) /\
     (forall (e : type) (items : list val) (x : val),
        m = VSlice e items ->
        0 <= index ->
        nth_error items (Z.to_nat index) = Some x ->
        getValueByName rt (Some d) key opts = Ok (getRealValue (Some x)))).
Proof.
  intros Hparse Hidx. split.
  - intros d' [[t ->]| ->]; cbn [getValueByName getValueByName_val];
      rewrite Hparse; reflexivity.
  - intros Hp Hi value m Hsw Hm.
    rewrite (getValueByName_direct rt d key opts Hp Hi), Hparse.
    cbn [bind fst snd]. rewrite Hsw. cbn [bind]. split.
    + intros Hk. exact (afterSwitch_not_slice value m index Hm Hk Hidx).
    + intros e items x -> H0 Hx.
      rewrite (afterSwitch_slice value e items index Hm Hidx).
      rewrite (Index_in_range e items index x H0 Hx). reflexivity.
Qed.

Lemma invalid_index_usage_witness :
  getValueByName Fixtures.forward (Some Fixtures.structFixture) "String[0]"
    Fixtures.plain = Err ErrInvalidIndexUsage
  /\ getValueByName Fixtures.forward (Some (VStruct "T" [("L", VSlice TInt [VInt 5; VInt 6])]))
       "L[1]" Fixtures.plain = Ok (Some (VInt 6))
  /\ getValueByName Fixtures.forward (Some (Fixtures.ref Fixtures.structFixture))
       "String[0]" Fixtures.plain
     = getValueByName Fixtures.forward (Some Fixtures.structFixture) "String"
         Fixtures.plain.
Proof.
  split; [|split].
  - refine (proj1 (proj2 (invalid_index_usage Fixtures.forward Fixtures.structFixture
                            "String[0]" "String" 0 Fixtures.plain eq_refl _)
                     _ _ (Some (VString "foo")) (VString "foo") eq_refl eq_refl) _);
      discriminate.
  - refine (proj2 (proj2 (invalid_index_usage Fixtures.forward
                            (VStruct "T" [("L", VSlice TInt [VInt 5; VInt 6])])
                            "L[1]" "L" 1 Fixtures.plain eq_refl _)
                     _ _ (Some (VSlice TInt [VInt 5; VInt 6]))
                     (VSlice TInt [VInt 5; VInt 6]) eq_refl eq_refl)
              TInt [VInt 5; VInt 6] (VInt 6) eq_refl _ eq_refl);
      discriminate.
  - refine (proj1 (invalid_index_usage Fixtures.forward
                     (Fixtures.ref Fixtures.structFixture)
                     "String[0]" "String" 0 Fixtures.plain eq_refl _)
              Fixtures.structFixture _); [discriminate|].
    left. exists Fixtures.MyStruct. reflexivity.
Defined.

(** ** The top-level call *)

(** C4.  When no valid value remains after [removeZeroValues] the merge
    returns the zero Value, the aggregation over a collection that is not
    empty returns it with no error, and when [lookup] returns the zero
    Value with no error [Lookup] calls [Interface] on it, which panics: no
    [ErrKeyNotFound] is returned. *)
Theorem absent_result_panics (rt : runtime) (fuel : nat) (opts : Options) :
  (forall values, removeZeroValues values = [] -> mergeValue values = Ok None)
  /\ (forall (v : Value) (path : list string) (elems values : list Value),
        Reflect.Len v <> 0 ->
        indexFunction rt v = Ok elems ->
        aggregateLoop (lookup rt fuel) elems path opts [] = Ok values ->
        removeZeroValues values = [] ->
        aggreateAggregableValue rt (lookup rt fuel) v path opts = Ok None)
  /\ (forall (i : iface) (path : string),
        lookup rt fuel i (GoString.Split path SplitToken) opts = Ok None ->
        Lookup rt fuel i path opts = Panic CallOnZeroValue).
Proof.
  assert (Hmerge : forall values,
            removeZeroValues values = [] -> mergeValue values = Ok None).
  { intros values H. unfold mergeValue. rewrite H. reflexivity. }
  split; [exact Hmerge|]. split.
  - intros v path elems values Hlen Hidx Hloop Hnone.
    unfold aggreateAggregableValue. apply Z.eqb_neq in Hlen.
    rewrite Hlen, Hidx. cbn [bind]. rewrite Hloop. cbn [bind].
    exact (Hmerge values Hnone).
  - intros i path H. unfold Lookup. rewrite H. reflexivity.
Qed.

Lemma absent_result_panics_witness :
  mergeValue [None; None] = Ok None
  /\ aggreateAggregableValue Fixtures.forward (lookup Fixtures.forward 2)
       (Reflect.FieldByName
          [("StructSlice",
            VSlice (TPtr Fixtures.MyStruct)
              [Fixtures.ref (Fixtures.myStruct "bar" [] [] None);
               Fixtures.ref (Fixtures.myStruct "foo" [] [] None)])]
          "StructSlice")
       ["Nested"] Fixtures.plain = Ok None
  /\ Lookup Fixtures.forward 3 (Some Fixtures.structFixture) "StructSlice.Nested"
       Fixtures.plain = Panic CallOnZeroValue.
Proof.
  pose proof (absent_result_panics Fixtures.forward 2 Fixtures.plain) as [H1 [H2 _]].
  pose proof (absent_result_panics Fixtures.forward 3 Fixtures.plain) as [_ [_ H3]].
  split; [|split].
  - apply H1. reflexivity.
  - apply (H2 _ ["Nested"]
             [Some (Fixtures.ref (Fixtures.myStruct "bar" [] [] None));
              Some (Fixtures.ref (Fixtures.myStruct "foo" [] [] None))]
             [None; None]).
    + discriminate.
    + reflexivity.
    + reflexivity.
    + reflexivity.
  - apply H3. reflexivity.
Defined.

(** ** Aggregation *)

Section AggregationFacts.

Variable rt : runtime.
Variable rec : iface -> list string -> Options -> outcome Value.

Lemma aggregable_not_string (v : Value) :
  isAggregable v = true -> Reflect.Kind v <> KString.
Proof.
  unfold isAggregable. intros H E. rewrite E in H. discriminate.
Qed.

Lemma aggregate_empty (d : val) (path : list string) (opts : Options) :
  Reflect.Len (Some d) = 0 ->
  aggreateAggregableValue rt rec (Some d) path opts =
  match lookupType rt path (TypeOf d) with
  | Some ty => Ok (Some (VSlice ty []))
  | None => Err ErrKeyNotFound
  end.
Proof.
  intros Hlen. unfold aggreateAggregableValue. rewrite Hlen.
  cbn [Z.eqb Reflect.Type_ bind].
  destruct (lookupType rt path (TypeOf d)); reflexivity.
Qed.

(** The loop stops with the error of the first element whose lookup
    returns one, when the lookups before it returned values. *)
Lemma aggregateLoop_first_error (before after : list Value) (e : Value)
    (path : list string) (opts : Options) (err : error) :
  (forall x, In x before ->
     is_ok (i <- Reflect.Interface x ;; rec i path opts) = true) ->
  (i <- Reflect.Interface e ;; rec i path opts) = Err err ->
  forall values,
    aggregateLoop rec (before ++ e :: after) path opts values = Err err.
Proof.
  intros Hbefore He. induction before as [|x before IH]; intros values.
  - cbn [app aggregateLoop].
    destruct (Reflect.Interface e) as [i| | |]; cbn [bind] in *;
      try discriminate; try congruence.
    rewrite He. reflexivity.
  - cbn [app aggregateLoop].
    pose proof (Hbefore x (or_introl eq_refl)) as Hx.
    destruct (Reflect.Interface x) as [i| | |]; cbn [bind] in *;
      try discriminate.
    destruct (rec i path opts); cbn [bind is_ok] in *; try discriminate.
    apply IH. intros y Hy. apply Hbefore. right. exact Hy.
Qed.

(** When the loop returns values, the lookup on every element did. *)
Lemma aggregateLoop_all_ok (elems : list Value) (path : list string)
    (opts : Options) :
  forall values result,
    aggregateLoop rec elems path opts values = Ok result ->
    forall x, In x elems ->
      is_ok (i <- Reflect.Interface x ;; rec i path opts) = true.
Proof.
  induction elems as [|e elems IH]; intros values result H x Hx.
  - destruct Hx.
  - cbn [aggregateLoop] in H.
    destruct (Reflect.Interface e) as [i| | |] eqn:Ei; cbn [bind] in H;
      try discriminate.
    destruct (rec i path opts) as [value| | |] eqn:Er; cbn [bind] in H;
      try discriminate.
    destruct Hx as [<-|Hx].
    + rewrite Ei. cbn [bind]. rewrite Er. reflexivity.
    + exact (IH _ _ H x Hx).
Qed.

End AggregationFacts.

(** C2.  Invoked on an empty slice or map with the remaining path, the
    aggregator asks [lookupType] for the element type: when it finds a
    type the result is the empty slice of exactly that type and no error,
    and when it finds none the result is [ErrKeyNotFound]; [lookup] returns
    the same when the first segment fails on that collection. *)
Theorem empty_collection_aggregation (rt : runtime) (fuel : nat) (d : val)
    (path : list string) (opts : Options) :
  isAggregable (Some d) = true ->
  Reflect.Len (Some d) = 0 ->
  aggreateAggregableValue rt (lookup rt fuel) (Some d) path opts =
    match lookupType rt path (TypeOf d) with
    | Some ty => Ok (Some (VSlice ty []))
    | None => Err ErrKeyNotFound
    end
  /\ (forall (part : string) (rest : list string) (err : error),
        path = part :: rest ->
        getValueByName rt (Some d) part opts = Err err ->
        lookup rt (S fuel) (Some d) path opts =
          match lookupType rt path (TypeOf d) with
          | Some ty => Ok (Some (VSlice ty []))
          | None => Err ErrKeyNotFound
          end).
Proof.
  intros Hagg Hlen. split; [exact (aggregate_empty rt _ d path opts Hlen)|].
  intros part rest err -> Herr.
  rewrite lookup_step.
  rewrite (expanded_not_string rt opts d (aggregable_not_string _ Hagg)).
  cbn [lookupLoop].
  rewrite (expanded_not_string rt opts d (aggregable_not_string _ Hagg)).
  rewrite Herr, Hagg. cbn [negb].
  rewrite (aggregate_empty rt _ d (part :: rest) opts Hlen). unfold debugPre.
  destruct (ExpandStringAsJSON opts); reflexivity.
Qed.

Lemma empty_collection_aggregation_witness :
  lookup Fixtures.forward 1 (Some (VSlice Fixtures.MyStruct [])) ["String"]
    Fixtures.plain = Ok (Some (VSlice TString []))
  /\ lookup Fixtures.forward 1 (Some (VMap TString (TPtr Fixtures.MyStruct) []))
       ["Map"] Fixtures.plain = Ok (Some (VSlice (TMap TString TInt) []))
  /\ lookup Fixtures.forward 1 (Some (VSlice Fixtures.MyStruct [])) ["Missing"]
       Fixtures.plain = Err ErrKeyNotFound
  /\ Lookup Fixtures.forward 2
       (Some (VSlice (TSlice Fixtures.MyStruct) [VSlice Fixtures.MyStruct []]))
       "String" Fixtures.plain = Ok (Some (VSlice TString [])).
Proof.
  split; [|split; [|split]].
  - apply (proj2 (empty_collection_aggregation Fixtures.forward 0
                    (VSlice Fixtures.MyStruct []) ["String"] Fixtures.plain
                    eq_refl eq_refl) "String" [] ErrKeyNotFound); reflexivity.
  - apply (proj2 (empty_collection_aggregation Fixtures.forward 0
                    (VMap TString (TPtr Fixtures.MyStruct) []) ["Map"] Fixtures.plain
                    eq_refl eq_refl) "Map" [] ErrKeyNotFound); reflexivity.
  - apply (proj2 (empty_collection_aggregation Fixtures.forward 0
                    (VSlice Fixtures.MyStruct []) ["Missing"] Fixtures.plain
                    eq_refl eq_refl) "Missing" [] ErrKeyNotFound); reflexivity.
  - reflexivity.
Defined.

(** C3.  Over a collection that is not empty, the lookups on the elements
    run in order; when the lookup on an element returns an error and the
    lookups before it returned values, the aggregation returns exactly
    that error; and whenever the lookup on some element returns an error
    the aggregation returns no value. *)
Theorem aggregation_fail_fast (rt : runtime) (fuel : nat) (v : Value)
    (path : list string) (opts : Options) (elems : list Value) :
  Reflect.Len v <> 0 ->
  indexFunction rt v = Ok elems ->
  (forall (before after : list Value) (e : Value) (err : error),
     elems = before ++ e :: after ->
     (forall x, In x before ->
        is_ok (i <- Reflect.Interface x ;; lookup rt fuel i path opts) = true) ->
     (i <- Reflect.Interface e ;; lookup rt fuel i path opts) = Err err ->
     aggreateAggregableValue rt (lookup rt fuel) v path opts = Err err)
  /\ (forall (e : Value) (err : error),
        In e elems ->
        (i <- Reflect.Interface e ;; lookup rt fuel i path opts) = Err err ->
        is_ok (aggreateAggregableValue rt (lookup rt fuel) v path opts) = false).
Proof.
  intros Hlen Hidx. apply Z.eqb_neq in Hlen. split.
  - intros before after e err -> Hbefore He.
    unfold aggreateAggregableValue. rewrite Hlen, Hidx. cbn [bind].
    rewrite (aggregateLoop_first_error (lookup rt fuel) before after e path opts
               err Hbefore He).
    reflexivity.
  - intros e err Hin He.
    unfold aggreateAggregableValue. rewrite Hlen, Hidx. cbn [bind].
    destruct (aggregateLoop (lookup rt fuel) elems path opts [])
      as [values| | |] eqn:Eloop; try reflexivity.
    pose proof (aggregateLoop_all_ok (lookup rt fuel) elems path opts [] values
                  Eloop e Hin) as Hok.
    rewrite He in Hok. discriminate.
Qed.

Lemma aggregation_fail_fast_witness :
  aggreateAggregableValue Fixtures.forward (lookup Fixtures.forward 1)
    (Some (VSlice TInterface
             [VInterface (Some (VStruct "T" [("foo", VSlice TInt [VInt 1])]));
              VInterface (Some (VStruct "U" [("foo", VInt 5)]));
              VInterface (Some (VInt 7))]))
    ["foo[0]"] Fixtures.plain = Err ErrInvalidIndexUsage.
Proof.
  refine (proj1 (aggregation_fail_fast Fixtures.forward 1
                   (Some (VSlice TInterface
                            [VInterface (Some (VStruct "T" [("foo", VSlice TInt [VInt 1])]));
                             VInterface (Some (VStruct "U" [("foo", VInt 5)]));
                             VInterface (Some (VInt 7))]))
                   ["foo[0]"] Fixtures.plain _ _ eq_refl)
            [Some (VInterface (Some (VStruct "T" [("foo", VSlice TInt [VInt 1])])))]
            [Some (VInterface (Some (VInt 7)))]
            (Some (VInterface (Some (VStruct "U" [("foo", VInt 5)])))) ErrInvalidIndexUsage
            eq_refl _ _).
  - discriminate.
  - intros x [<-|[]]. reflexivity.
  - reflexivity.
Defined.


(** ** The merger *)

Section MergerFacts.

Lemma mergeLoop_slices (e : type) (ds : list val) :
  Forall (fun x => exists items, x = VSlice e items) ds ->
  forall acc,
    mergeLoop true (map Some ds) (Some (VSlice e acc))
    = Ok (Some (VSlice e (acc ++ List.concat (map sliceItems ds)))).
Proof.
  induction 1 as [|x ds [items ->] _ IH]; intros acc.
  - cbn [map List.concat mergeLoop]. now rewrite app_nil_r.
  - cbn [map List.concat mergeLoop Reflect.IsValid negb Reflect.AppendSlice sliceItems].
    rewrite type_eqb_refl. cbn [bind]. rewrite IH, app_assoc. reflexivity.
Qed.

Lemma Append_same_type (t : type) (acc : list val) (x : val) :
  TypeOf x = t ->
  Reflect.Append (Some (VSlice t acc)) (Some x) = Ok (Some (VSlice t (acc ++ [x]))).
Proof.
  intros <-. unfold Reflect.Append, assignable. rewrite type_eqb_refl.
  cbn [orb]. destruct x; reflexivity.
Qed.

Lemma mergeLoop_singles (t : type) (ds : list val) :
  Forall (fun x => TypeOf x = t) ds ->
  forall acc,
    mergeLoop false (map Some ds) (Some (VSlice t acc))
    = Ok (Some (VSlice t (acc ++ ds))).
Proof.
  induction 1 as [|x ds Hx _ IH]; intros acc.
  - cbn [map mergeLoop]. now rewrite app_nil_r.
  - cbn [map mergeLoop Reflect.IsValid negb].
    rewrite (Append_same_type t acc x Hx). cbn [bind].
    rewrite IH, <- app_assoc. reflexivity.
Qed.

End MergerFacts.

(** C1 (counterexample).  Two collected values, an [int] and then a
    [string]: the first valid entry is no sequence and no map, yet the
    merged result is not the sequence of the two entries; the merger
    builds a slice of the type of the first entry and panics on the
    second.  [Lookup] reaches this on a slice of maps of [interface{}]. *)
Lemma merge_flattening_counterexample :
  mergeValue [Some (VInt 1); Some (VString "x")] = Panic NotAssignable
  /\ Lookup Fixtures.forward 2
       (Some (VSlice (TMap TString TInterface)
                [VMap TString TInterface [("a", VInterface (Some (VInt 1)))];
                 VMap TString TInterface [("a", VInterface (Some (VString "x")))]]))
       "a" Fixtures.plain = Panic NotAssignable.
Proof. split; reflexivity. Qed.

(** C1 (amended).  Let the valid entries of the collected values be
    [d :: ds].  When [d] is a slice and every other valid entry is a slice
    of the same element type, the merged result is one slice holding the
    items of every entry in order, one level flattened.  When [d] is
    neither a slice nor a map and every other valid entry has the type of
    [d], the merged result is the slice of the entries themselves.  So
    [StructSlice.StructSlice.String] over two elements of two sub-elements
    each yields one flat slice of four strings. *)
Theorem merge_flattening (values : list Value) (d : val) (ds : list val) :
  removeZeroValues values = map Some (d :: ds) ->
  (forall (e : type) (items : list val),
     d = VSlice e items ->
     Forall (fun x => exists items', x = VSlice e items') ds ->
     mergeValue values
     = Ok (Some (VSlice e (List.concat (map sliceItems (d :: ds))))))
  /\ (isMergeable (Some d) = false ->
      Forall (fun x => TypeOf x = TypeOf d) ds ->
      mergeValue values = Ok (Some (VSlice (TypeOf d) (d :: ds))))
  /\ Lookup Fixtures.forward 3 (Some Fixtures.structFixture)
       "StructSlice.StructSlice.String" Fixtures.plain
     = Ok (Some (VSlice TString
                   [VString "bar"; VString "foo"; VString "qux"; VString "baz"])).
Proof.
  intros Hvalid. split; [|split; [|reflexivity]].
  - intros e items -> Hds. unfold mergeValue. rewrite Hvalid.
    cbn [map isMergeable Reflect.Kind TypeOf TypeKind kind_eqb orb
         Reflect.Type_ bind TypeElem Reflect.SliceOf Reflect.MakeSlice].
    change (Some (VSlice e items) :: map Some ds)
      with (map Some (VSlice e items :: ds)).
    apply (mergeLoop_slices e (VSlice e items :: ds)).
    constructor; [eexists; reflexivity|exact Hds].
  - intros Hm Hds. unfold mergeValue. rewrite Hvalid.
    cbn [map]. rewrite Hm.
    cbn [Reflect.Type_ bind Reflect.SliceOf Reflect.MakeSlice].
    change (Some d :: map Some ds) with (map Some (d :: ds)).
    apply (mergeLoop_singles (TypeOf d) (d :: ds)).
    constructor; [reflexivity|exact Hds].
Qed.

Lemma merge_flattening_witness :
  mergeValue [Some (VSlice TString [VString "foo"; VString "bar"]); None;
              Some (VSlice TString [VString "qux"; VString "baz"])]
  = Ok (Some (VSlice TString
                [VString "foo"; VString "bar"; VString "qux"; VString "baz"]))
  /\ mergeValue [None; Some (VString "qux"); Some (VString "foo")]
     = Ok (Some (VSlice TString [VString "qux"; VString "foo"])).
Proof.
  split.
  - apply (proj1 (merge_flattening
                    [Some (VSlice TString [VString "foo"; VString "bar"]); None;
                     Some (VSlice TString [VString "qux"; VString "baz"])]
                    (VSlice TString [VString "foo"; VString "bar"])
                    [VSlice TString [VString "qux"; VString "baz"]] eq_refl)
             TString [VString "foo"; VString "bar"] eq_refl).
    constructor; [eexists; reflexivity|constructor].
  - apply (proj1 (proj2 (merge_flattening
                    [None; Some (VString "qux"); Some (VString "foo")]
                    (VString "qux") [VString "foo"] eq_refl)) eq_refl).
    constructor; [reflexivity|constructor].
Defined.

(** ** The order of iteration over maps *)

(** Induction along the chain of pointers and interfaces of a value. *)
Lemma val_indirection_ind (P : val -> Prop) :
  (forall d,
     (forall d', (exists t, d = VPtr t (Some d')) \/ d = VInterface (Some d') -> P d') ->
     P d) ->
  forall d, P d.
Proof.
  intros step. fix IH 1. intros d. apply step.
  destruct d as [b|n|bits|s| |dyn|t target|t items|t items|kt et entries|n fields];
    intros d' [[t' E]|E]; try discriminate.
  - destruct dyn as [x|]; [|discriminate].
    injection E as <-. apply IH.
  - destruct target as [x|]; [|discriminate].
    injection E as _ <-. apply IH.
Qed.

Section OrderFacts.

Variable rt : runtime.
Variables order1 order2 : list (string * val) -> list (string * val).

#[local] Abbreviation rt1 := (withMapOrder rt order1).
#[local] Abbreviation rt2 := (withMapOrder rt order2).

Lemma find_fold_unique (p : string -> bool) (l1 l2 : list (string * val)) :
  Permutation l1 l2 ->
  (forall k1 k2, In k1 (map fst l2) -> In k2 (map fst l2) ->
                 p k1 = true -> p k2 = true -> k1 = k2) ->
  option_map fst (find (fun kv => p (fst kv)) l1)
  = option_map fst (find (fun kv => p (fst kv)) l2).
Proof.
  intros Hperm Huniq.
  destruct (find (fun kv => p (fst kv)) l1) as [[k1 x1]|] eqn:E1;
    destruct (find (fun kv => p (fst kv)) l2) as [[k2 x2]|] eqn:E2;
    cbn [option_map fst]; try reflexivity.
  - apply find_some in E1 as [In1 P1]. apply find_some in E2 as [In2 P2].
    cbn [fst] in P1, P2. f_equal. apply Huniq; try assumption.
    + apply (in_map fst) in In1. cbn [fst] in In1.
      apply (Permutation_in _ (Permutation_map fst Hperm) In1).
    + apply (in_map fst) in In2. exact In2.
  - apply find_some in E1 as [In1 P1].
    pose proof (find_none _ _ E2 _ (Permutation_in _ Hperm In1)) as N.
    cbn [fst] in *. congruence.
  - apply find_some in E2 as [In2 P2].
    pose proof (find_none _ _ E1 _ (Permutation_in _ (Permutation_sym Hperm) In2)) as N.
    cbn [fst] in *. congruence.
Qed.

Lemma mapCase_unambiguous (kt : type) (entries : list (string * val))
    (name : string) (opts : Options) :
  Permutation (order1 entries) entries ->
  Permutation (order2 entries) entries ->
  (Reflect.MapIndex entries name <> None
   \/ (forall k1 k2, In k1 (map fst entries) -> In k2 (map fst entries) ->
                     EqualFold rt name k1 = true -> EqualFold rt name k2 = true ->
                     k1 = k2)) ->
  mapCase rt1 kt entries name opts = mapCase rt2 kt entries name opts.
Proof.
  intros P1 P2 Hcond. unfold mapCase.
  destruct (negb (kind_eqb (TypeKind kt) KString)); [reflexivity|].
  destruct (CaseInsentitive opts); [|reflexivity]. cbn [andb].
  destruct (Reflect.MapIndex entries name) as [x|] eqn:Ex;
    [rewrite Kind_valid; reflexivity|].
  cbn [Reflect.Kind kind_eqb].
  destruct Hcond as [Hne|Huniq]; [congruence|].
  change (MapOrder rt1 entries) with (order1 entries).
  change (MapOrder rt2 entries) with (order2 entries).
  change (EqualFold rt1) with (EqualFold rt). change (EqualFold rt2) with (EqualFold rt).
  pose proof (find_fold_unique (EqualFold rt name) (order1 entries) entries P1 Huniq) as F1.
  pose proof (find_fold_unique (EqualFold rt name) (order2 entries) entries P2 Huniq) as F2.
  rewrite <- F2 in F1. clear F2.
  destruct (find (fun e => EqualFold rt name (fst e)) (order1 entries)) as [[k1 x1]|];
    destruct (find (fun e => EqualFold rt name (fst e)) (order2 entries)) as [[k2 x2]|];
    cbn [option_map fst] in F1; try discriminate; try reflexivity.
  injection F1 as ->. reflexivity.
Qed.

Hypothesis same_order : forall entries, order1 entries = order2 entries.

Lemma switchValue_same_order (d : val) (key : string) (opts : Options) :
  switchValue rt1 d key opts = switchValue rt2 d key opts.
Proof.
  destruct d; try reflexivity. cbn [switchValue]. unfold mapCase.
  change (MapOrder rt1 entries) with (order1 entries).
  change (MapOrder rt2 entries) with (order2 entries).
  rewrite same_order. reflexivity.
Qed.

Lemma getValueByName_same_order (v : Value) (key : string) (opts : Options) :
  getValueByName rt1 v key opts = getValueByName rt2 v key opts.
Proof.
  destruct v as [d|]; [|reflexivity]. cbn [getValueByName]. revert key.
  induction d as [d IH] using val_indirection_ind. intros key.
  destruct d; cbn [getValueByName_val];
    destruct (parseIndex key) as [[nm idx]| | |]; cbn [bind fst snd];
    try reflexivity;
    try (rewrite switchValue_same_order; reflexivity).
  - destruct dyn as [d'|]; [|reflexivity]. apply IH. right. reflexivity.
  - destruct target as [d'|]; [|reflexivity]. apply IH. left. eexists. reflexivity.
Qed.

Lemma indexFunction_same_order (v : Value) :
  indexFunction rt1 v = indexFunction rt2 v.
Proof.
  destruct v as [[]|]; try reflexivity. cbn [indexFunction].
  change (MapOrder rt1 entries) with (order1 entries).
  change (MapOrder rt2 entries) with (order2 entries).
  rewrite same_order. reflexivity.
Qed.

Lemma aggregateLoop_ext (rec1 rec2 : iface -> list string -> Options -> outcome Value)
    (elems : list Value) (path : list string) (opts : Options) :
  (forall i, rec1 i path opts = rec2 i path opts) ->
  forall values,
    aggregateLoop rec1 elems path opts values = aggregateLoop rec2 elems path opts values.
Proof.
  intros Hrec. induction elems as [|e elems IH]; intros values; [reflexivity|].
  cbn [aggregateLoop]. destruct (Reflect.Interface e) as [i| | |]; cbn [bind];
    try reflexivity.
  rewrite Hrec. destruct (rec2 i path opts); cbn [bind]; try reflexivity. apply IH.
Qed.

Lemma lookup_same_order (fuel : nat) :
  forall i path opts, lookup rt1 fuel i path opts = lookup rt2 fuel i path opts.
Proof.
  induction fuel as [|fuel IH]; intros i path opts; [reflexivity|].
  destruct path as [|part rest]; [reflexivity|].
  rewrite !lookup_step.
  change (expanded rt1 opts i) with (expanded rt opts i).
  change (expanded rt2 opts i) with (expanded rt opts i).
  generalize (expanded rt opts i) as value.
  generalize (part :: rest) as path. clear part rest.
  induction path as [|part rest IHpath]; intros value; [reflexivity|].
  cbn [lookupLoop].
  change (expanded rt1 opts value) with (expanded rt opts value).
  change (expanded rt2 opts value) with (expanded rt opts value).
  destruct (debugPre opts (expanded rt opts value)); cbn [bind]; try reflexivity.
  rewrite getValueByName_same_order.
  destruct (getValueByName rt2 (expanded rt opts value) part opts); try reflexivity.
  - apply IHpath.
  - destruct (negb (isAggregable (expanded rt opts value))); [reflexivity|].
    unfold aggreateAggregableValue.
    destruct (Reflect.Len (expanded rt opts value) =? 0); [reflexivity|].
    rewrite indexFunction_same_order.
    destruct (indexFunction rt2 (expanded rt opts value)) as [elems| | |];
      cbn [bind]; try reflexivity.
    rewrite (aggregateLoop_ext (lookup rt1 fuel) (lookup rt2 fuel) elems (part :: rest) opts
               (fun i => IH i (part :: rest) opts)).
    reflexivity.
Qed.

End OrderFacts.

(** ** The memory *)

Section MemoryFacts.

Lemma nth_error_last (m : Stateful.memory) (c : Stateful.cell) :
  nth_error (m ++ [c]) (List.length m) = Some c.
Proof.
  induction m as [|x m IH]; [reflexivity|exact IH].
Qed.

Lemma store_last (m : Stateful.memory) (c c' : Stateful.cell) :
  Stateful.store (List.length m) c' (m ++ [c]) = m ++ [c'].
Proof.
  induction m as [|x m IH]; [reflexivity|].
  cbn [List.length app Stateful.store]. now rewrite IH.
Qed.

Lemma refines_ret (A : Type) (a : A) : refines (Stateful.ret a) (Ok a).
Proof. intros m. exists []. unfold Stateful.ret. now rewrite app_nil_r. Qed.

Lemma refines_lift (A : Type) (o : outcome A) : refines (Stateful.lift o) o.
Proof. intros m. exists []. unfold Stateful.lift. now rewrite app_nil_r. Qed.

Lemma refines_bind (A B : Type) (x : Stateful.M A) (o : outcome A) (k : A -> Stateful.M B)
    (k' : A -> outcome B) :
  refines x o ->
  (forall a, o = Ok a -> refines (k a) (k' a)) ->
  refines (Stateful.bindM x k) (bind o k').
Proof.
  intros Hx Hk m. unfold Stateful.bindM. destruct (Hx m) as [fresh ->].
  destruct o as [a|e|p|]; cbn [bind];
    try (exists fresh; reflexivity).
  destruct (Hk a eq_refl (m ++ fresh)) as [fresh' ->].
  exists (fresh ++ fresh'). now rewrite app_assoc.
Qed.

Variable rt : runtime.

(** The probe key is allocated after every variable of the memory, set,
    and read back: the variables of the memory are not read. *)
Lemma mapCase_refines (kt : type) (entries : list (string * val)) (key : string)
    (opts : Options) :
  refines (Stateful.mapCase rt kt entries key opts) (mapCase rt kt entries key opts).
Proof.
  intros m. unfold Stateful.mapCase, mapCase, Stateful.bindM, Stateful.New, Stateful.SetString,
    Stateful.MapIndex, Stateful.ret.
  rewrite nth_error_last. cbn [Stateful.cellType].
  destruct (negb (kind_eqb (TypeKind kt) KString)) eqn:Ek; [eexists; reflexivity|].
  rewrite store_last, nth_error_last. cbn [Stateful.cellString Stateful.cellType].
  destruct (CaseInsentitive opts
            && kind_eqb (Reflect.Kind (Reflect.MapIndex entries key)) KInvalid);
    [|eexists; reflexivity].
  destruct (find _ _) as [[k x]|]; [|eexists; reflexivity].
  rewrite nth_error_last. cbn [Stateful.cellType]. rewrite Ek.
  rewrite store_last, nth_error_last. cbn [Stateful.cellString]. eexists; reflexivity.
Qed.

Lemma switchValue_refines (d : val) (key : string) (opts : Options) :
  refines (Stateful.switchValue rt d key opts) (switchValue rt d key opts).
Proof.
  destruct d; cbn [Stateful.switchValue switchValue]; try apply refines_ret.
  apply mapCase_refines.
Qed.

Lemma getValueByName_refines (v : Value) (key : string) (opts : Options) :
  refines (Stateful.getValueByName rt v key opts) (getValueByName rt v key opts).
Proof.
  destruct v as [d|]; [|apply refines_lift].
  cbn [Stateful.getValueByName getValueByName]. revert key.
  induction d as [d IH] using val_indirection_ind. intros key.
  assert (Hdirect : forall nm idx,
            refines (Stateful.bindM (Stateful.switchValue rt d nm opts)
                       (fun value => Stateful.lift (afterSwitch value idx)))
                    (value <- switchValue rt d nm opts ;; afterSwitch value idx)).
  { intros nm idx. apply refines_bind; [apply switchValue_refines|].
    intros a _. apply refines_lift. }
  destruct d; cbn [Stateful.getValueByName_val getValueByName_val];
    (apply refines_bind; [apply refines_lift|]); intros [nm idx] _; cbn [fst snd];
    try apply Hdirect.
  - destruct dyn as [d'|]; [|apply refines_lift]. apply IH. right. reflexivity.
  - destruct target as [d'|]; [|apply refines_lift].
    apply IH. left. eexists. reflexivity.
Qed.

Lemma aggregateLoop_refines (rec : iface -> list string -> Options -> Stateful.M Value)
    (rec' : iface -> list string -> Options -> outcome Value)
    (path : list string) (opts : Options) :
  (forall i, refines (rec i path opts) (rec' i path opts)) ->
  forall elems values,
    refines (Stateful.aggregateLoop rec elems path opts values)
            (aggregateLoop rec' elems path opts values).
Proof.
  intros Hrec. induction elems as [|e elems IH]; intros values;
    cbn [Stateful.aggregateLoop aggregateLoop]; [apply refines_ret|].
  apply refines_bind; [apply refines_lift|]. intros i _.
  apply refines_bind; [apply Hrec|]. intros value _. apply IH.
Qed.

Lemma aggregate_refines (rec : iface -> list string -> Options -> Stateful.M Value)
    (rec' : iface -> list string -> Options -> outcome Value)
    (v : Value) (path : list string) (opts : Options) :
  (forall i, refines (rec i path opts) (rec' i path opts)) ->
  refines (Stateful.aggreateAggregableValue rt rec v path opts)
          (aggreateAggregableValue rt rec' v path opts).
Proof.
  intros Hrec. unfold Stateful.aggreateAggregableValue, aggreateAggregableValue.
  destruct (Reflect.Len v =? 0); [apply refines_lift|].
  apply refines_bind; [apply refines_lift|]. intros elems _.
  apply refines_bind; [exact (aggregateLoop_refines rec rec' path opts Hrec elems [])|].
  intros values _. apply refines_lift.
Qed.

Lemma lookupLoop_refines (rec : iface -> list string -> Options -> Stateful.M Value)
    (rec' : iface -> list string -> Options -> outcome Value) (opts : Options) :
  (forall i path, refines (rec i path opts) (rec' i path opts)) ->
  forall path value,
    refines (Stateful.lookupLoop rt rec value path opts)
            (lookupLoop rt rec' value path opts).
Proof.
  intros Hrec. induction path as [|part rest IH]; intros value;
    cbn [Stateful.lookupLoop lookupLoop]; [apply refines_ret|].
  apply refines_bind; [apply refines_lift|]. intros _ _ m.
  destruct (getValueByName_refines (expanded rt opts value) part opts m) as [fresh ->].
  destruct (getValueByName rt (expanded rt opts value) part opts) as [value'|err|p|].
  - destruct (IH value' (m ++ fresh)) as [fresh' ->].
    exists (fresh ++ fresh'). now rewrite app_assoc.
  - destruct (negb (isAggregable (expanded rt opts value))); [exists fresh; reflexivity|].
    destruct (aggregate_refines rec rec' (expanded rt opts value) (part :: rest) opts
                (fun i => Hrec i (part :: rest)) (m ++ fresh)) as [fresh' ->].
    exists (fresh ++ fresh'). now rewrite app_assoc.
  - exists fresh. reflexivity.
  - exists fresh. reflexivity.
Qed.

(** The embedding with the memory has the outcomes of the embedding
    without it, and leaves the memory it started in followed by the probe
    keys it allocated. *)
Lemma lookup_refines (opts : Options) (fuel : nat) :
  forall (i : iface) (path : list string),
    refines (Stateful.lookup rt fuel i path opts) (lookup rt fuel i path opts).
Proof.
  induction fuel as [|fuel IH]; intros i path; [apply refines_lift|].
  destruct path as [|part rest]; [apply refines_ret|].
  cbn [Stateful.lookup lookup].
  apply (lookupLoop_refines (Stateful.lookup rt fuel) (lookup rt fuel) opts IH).
Qed.

Lemma Lookup_refines (fuel : nat) (i : iface) (path : string) (opts : Options) :
  refines (Stateful.Lookup rt fuel i path opts) (Lookup rt fuel i path opts).
Proof.
  intros m. unfold Stateful.Lookup, Lookup.
  destruct (lookup_refines opts fuel i (GoString.Split path SplitToken) m) as [fresh ->].
  exists fresh. destruct (lookup rt fuel i (GoString.Split path SplitToken) opts); reflexivity.
Qed.

End MemoryFacts.

(** C8 (counterexample).  One value, one path, one set of options, and two
    runs that differ only in the order in which the runtime iterates over
    the map: with [CaseInsentitive] and three keys that fold to
    ["TESTKEY"], one run returns 1 and the other returns 3. *)
Lemma lookup_determinism_counterexample :
  Fixtures.backward = withMapOrder Fixtures.forward (@rev (string * val))
  /\ Lookup Fixtures.forward 1 (Some Fixtures.caseFixtureMap) "TESTKEY"
       Fixtures.folding = Ok (Some (VInt 1))
  /\ Lookup Fixtures.backward 1 (Some Fixtures.caseFixtureMap) "TESTKEY"
       Fixtures.folding = Ok (Some (VInt 3)).
Proof. repeat split. Qed.

(** C8 (amended).  Two calls of [Lookup] with the same value, path and
    options, the second made in the memory that the first one left,
    return the same result when the runtime iterates over every map in
    the same order in both calls; the result is the one of the embedding
    without memory.  No variable that existed before a call is changed by
    it: each call leaves the memory it started in, followed by the
    variables it allocated; the writes of the code, the calls of
    [SetString], go to the probe key that the same step allocated with
    [reflect.New].  Whatever the two orders, the resolution of a segment
    on a map returns the same result in both calls when the map has the
    exact key or at most one of its keys equals the name under case
    folding. *)
Theorem lookup_determinism (rt : runtime)
    (order1 order2 : list (string * val) -> list (string * val)) :
  ((forall entries, order1 entries = order2 entries) ->
   forall (m : Stateful.memory) (fuel : nat) (i : iface) (path : string)
          (opts : Options),
     let first := Stateful.Lookup (withMapOrder rt order1) fuel i path opts m in
     let second :=
       Stateful.Lookup (withMapOrder rt order2) fuel i path opts (snd first) in
     fst second = fst first
     /\ fst first = Lookup (withMapOrder rt order1) fuel i path opts
     /\ (exists fresh, snd first = m ++ fresh)
     /\ (exists fresh, snd second = snd first ++ fresh))
  /\ (forall (kt et : type) (entries : list (string * val)) (key name : string)
             (index : Z) (opts : Options),
        Permutation (order1 entries) entries ->
        Permutation (order2 entries) entries ->
        parseIndex key = Ok (name, index) ->
        (Reflect.MapIndex entries name <> None
         \/ (forall k1 k2, In k1 (map fst entries) -> In k2 (map fst entries) ->
                           EqualFold rt name k1 = true ->
                           EqualFold rt name k2 = true -> k1 = k2)) ->
        getValueByName (withMapOrder rt order1) (Some (VMap kt et entries)) key opts
        = getValueByName (withMapOrder rt order2) (Some (VMap kt et entries)) key opts).
Proof.
  split.
  - intros Hsame m fuel i path opts first second.
    destruct (Lookup_refines (withMapOrder rt order1) fuel i path opts m)
      as [fresh1 H1].
    destruct (Lookup_refines (withMapOrder rt order2) fuel i path opts (snd first))
      as [fresh2 H2].
    assert (Hpure : Lookup (withMapOrder rt order2) fuel i path opts
                    = Lookup (withMapOrder rt order1) fuel i path opts).
    { unfold Lookup. rewrite (lookup_same_order rt order1 order2 Hsame). reflexivity. }
    subst first second. rewrite H2. cbn [fst snd]. rewrite H1. cbn [fst snd].
    split; [exact Hpure|]. split; [reflexivity|].
    split; [exists fresh1|exists fresh2]; reflexivity.
  - intros kt et entries key name index opts P1 P2 Hparse Hcond.
    cbn [getValueByName getValueByName_val]. rewrite Hparse.
    cbn [bind fst snd switchValue].
    rewrite (mapCase_unambiguous rt order1 order2 kt entries name opts P1 P2 Hcond).
    reflexivity.
Qed.

Lemma lookup_determinism_witness :
  (let held := [{| Stateful.cellType := TString; Stateful.cellString := "held" |}] in
   let first :=
     Stateful.Lookup (withMapOrder Fixtures.forward (fun m => m)) 3
       (Some Fixtures.caseFixtureMap) "TESTKEY" Fixtures.folding held in
   let second :=
     Stateful.Lookup (withMapOrder Fixtures.forward (fun m => rev (rev m))) 3
       (Some Fixtures.caseFixtureMap) "TESTKEY" Fixtures.folding (snd first) in
   fst second = fst first
   /\ fst first = Ok (Some (VInt 1))
   /\ (exists fresh, snd first = held ++ fresh)
   /\ (exists fresh, snd second = snd first ++ fresh))
  /\ getValueByName (withMapOrder Fixtures.forward (fun m => m))
       (Some (VMap TString TInt [("Foo", VInt 0); ("TestKey", VInt 1)]))
       "testkey" Fixtures.folding
     = getValueByName (withMapOrder Fixtures.forward (@rev (string * val)))
         (Some (VMap TString TInt [("Foo", VInt 0); ("TestKey", VInt 1)]))
         "testkey" Fixtures.folding.
Proof.
  split.
  - exact (proj1 (lookup_determinism Fixtures.forward (fun m => m)
                    (fun m => rev (rev m)))
             (fun entries => eq_sym (rev_involutive entries))
             [{| Stateful.cellType := TString; Stateful.cellString := "held" |}]
             3%nat (Some Fixtures.caseFixtureMap) "TESTKEY" Fixtures.folding).
  - apply (proj2 (lookup_determinism Fixtures.forward (fun m => m)
                    (@rev (string * val)))
             TString TInt [("Foo", VInt 0); ("TestKey", VInt 1)] "testkey" "testkey"
             (-1) Fixtures.folding).
    + apply Permutation_refl.
    + apply Permutation_sym, Permutation_rev.
    + reflexivity.
    + right. intros k1 k2 H1 H2 F1 F2.
      destruct H1 as [<-|[<-|[]]]; destruct H2 as [<-|[<-|[]]];
        try reflexivity; discriminate.
Defined.

(** ** The index -1 *)

Section SentinelFacts.

Variable rt : runtime.

Lemma getValueByName_same_parse (v : Value) (s1 s2 : string) (opts : Options) :
  parseIndex s1 = parseIndex s2 ->
  getValueByName rt v s1 opts = getValueByName rt v s2 opts.
Proof.
  intros H. destruct v as [d|].
  - destruct d; cbn [getValueByName getValueByName_val]; rewrite H; reflexivity.
  - cbn [getValueByName]. unfold getValueByName_zero. rewrite H. reflexivity.
Qed.

Lemma inhabited_lookup_assoc (l : list (string * val)) (key : string) (x : val) :
  forallb (fun kv => inhabited (snd kv)) l = true ->
  Reflect.MapIndex l key = Some x ->
  inhabited x = true.
Proof.
  induction l as [|[k d] l IH]; cbn [forallb Reflect.MapIndex snd]; intros Hall Hx;
    [discriminate|].
  apply andb_true_iff in Hall as [Hd Hl].
  destruct (String.eqb k key); [congruence|exact (IH Hl Hx)].
Qed.

Lemma FieldByName_MapIndex (l : list (string * val)) (key : string) :
  Reflect.FieldByName l key = Reflect.MapIndex l key.
Proof.
  induction l as [|[k d] l IH]; [reflexivity|].
  cbn [Reflect.FieldByName Reflect.MapIndex]. now rewrite IH.
Qed.

Lemma inhabited_entries (kt et : type) (entries : list (string * val)) :
  inhabited (VMap kt et entries) = true ->
  forallb (fun kv => inhabited (snd kv)) entries = true /\ entries <> [].
Proof.
  cbn [inhabited]. destruct entries; [discriminate|]. intros H. split; [exact H|discriminate].
Qed.

Lemma inhabited_items (t : type) (items : list val) :
  inhabited (VSlice t items) = true ->
  forallb inhabited items = true /\ items <> [].
Proof.
  cbn [inhabited]. destruct items; [discriminate|]. intros H. split; [exact H|discriminate].
Qed.

Lemma getValueByName_zero_fails (key : string) (v' : Value) :
  getValueByName_zero key <> Ok v'.
Proof.
  unfold getValueByName_zero.
  destruct (parseIndex key) as [[nm idx]| | |]; cbn [bind snd]; discriminate.
Qed.

Lemma inhabited_Len (v : Value) :
  isAggregable v = true -> inhabitedValue v = true -> (Reflect.Len v =? 0) = false.
Proof.
  intros Hagg Hv. destruct v as [[]|]; try (cbn in Hagg; discriminate);
    cbn [inhabitedValue] in Hv.
  - apply inhabited_items in Hv as [_ Hne]. destruct items; [congruence|].
    cbn [Reflect.Len List.length]. apply Z.eqb_neq. lia.
  - apply inhabited_entries in Hv as [_ Hne]. destruct entries; [congruence|].
    cbn [Reflect.Len List.length]. apply Z.eqb_neq. lia.
Qed.

Lemma inhabited_indexFunction (v : Value) (elems : list Value) :
  inhabitedValue v = true ->
  indexFunction rt v = Ok elems ->
  Forall (fun e => inhabitedValue e = true) elems.
Proof.
  intros Hv H. destruct v as [[]|]; cbn [indexFunction] in H; try discriminate;
    cbn [inhabitedValue] in Hv;
    injection H as <-; apply Forall_forall; intros e He; apply in_map_iff in He.
  - destruct He as [x [<- Hx]]. apply inhabited_items in Hv as [Hall _].
    rewrite forallb_forall in Hall. exact (Hall x Hx).
  - destruct He as [k [<- _]]. apply inhabited_entries in Hv as [Hall _].
    destruct (Reflect.MapIndex entries k) as [x|] eqn:Ex; [|reflexivity].
    exact (inhabited_lookup_assoc entries k x Hall Ex).
Qed.

Lemma inhabited_Interface (e : Value) (i : iface) :
  inhabitedValue e = true -> Reflect.Interface e = Ok i -> inhabitedValue i = true.
Proof.
  intros He H. destruct e as [d|]; [|discriminate].
  destruct d; cbn [Reflect.Interface] in H; injection H as <-; exact He.
Qed.

End SentinelFacts.

(** What the resolver returns from a settled value is settled: the
    members of the decoded maps are held to [deeper] throughout. *)
Section SettledFacts.

Variable rt : runtime.
Variable opts : Options.
Variable deeper : val -> bool.

#[local] Abbreviation sound := (settledWith rt opts deeper).

Lemma settled_lookup_assoc (l : list (string * val)) (key : string) (x : val) :
  forallb (fun kv => sound (snd kv)) l = true ->
  Reflect.MapIndex l key = Some x ->
  sound x = true.
Proof.
  induction l as [|[k d] l IH]; cbn [forallb Reflect.MapIndex snd]; intros Hall Hx;
    [discriminate|].
  apply andb_true_iff in Hall as [Hd Hl].
  destruct (String.eqb k key); [congruence|exact (IH Hl Hx)].
Qed.

Lemma settled_find (p : string * val -> bool) (l : list (string * val))
    (k : string) (x : val) :
  forallb (fun kv => sound (snd kv)) l = true ->
  find p l = Some (k, x) ->
  sound x = true.
Proof.
  intros Hall Hf. apply find_some in Hf as [Hin _].
  rewrite forallb_forall in Hall. exact (Hall _ Hin).
Qed.

Lemma settled_entries (kt et : type) (entries : list (string * val)) :
  sound (VMap kt et entries) = true ->
  forallb (fun kv => sound (snd kv)) entries = true /\ entries <> [].
Proof.
  cbn [settledWith]. destruct entries; [discriminate|].
  intros H. split; [exact H|discriminate].
Qed.

Lemma settled_items (t : type) (items : list val) :
  sound (VSlice t items) = true ->
  forallb sound items = true /\ items <> [].
Proof.
  cbn [settledWith]. destruct items; [discriminate|].
  intros H. split; [exact H|discriminate].
Qed.

Lemma settled_realValueOf (d : val) :
  sound d = true -> onValue sound (realValueOf d) = true.
Proof.
  induction d as [d IH] using val_indirection_ind. intros H.
  destruct d; cbn [realValueOf onValue]; try exact H.
  - destruct dyn as [d'|]; [|reflexivity]. apply IH; [right; reflexivity|exact H].
  - destruct target as [d'|]; [|reflexivity].
    apply IH; [left; eexists; reflexivity|exact H].
Qed.

Lemma settled_getRealValue (v : Value) :
  onValue sound v = true -> onValue sound (getRealValue v) = true.
Proof. destruct v as [d|]; [apply settled_realValueOf|reflexivity]. Qed.

Lemma settled_Index (v x : Value) (index : Z) :
  onValue sound v = true ->
  Reflect.Index v index = Ok x ->
  onValue sound x = true.
Proof.
  intros Hv Hx. destruct v as [[]|]; cbn [Reflect.Index] in Hx; try discriminate.
  destruct ((0 <=? index) && (index <? Z.of_nat (List.length items))); [|discriminate].
  destruct (nth_error items (Z.to_nat index)) as [y|] eqn:Ey; [|discriminate].
  injection Hx as <-. cbn [onValue] in *.
  apply settled_items in Hv as [Hall _].
  rewrite forallb_forall in Hall. apply Hall. exact (nth_error_In _ _ Ey).
Qed.

Lemma settled_afterSwitch (value v' : Value) (index : Z) :
  onValue sound value = true ->
  afterSwitch value index = Ok v' ->
  onValue sound v' = true.
Proof.
  intros Hv H. unfold afterSwitch in H.
  destruct (negb (Reflect.IsValid value)); [discriminate|].
  apply settled_getRealValue in Hv.
  destruct (negb (index =? -1)).
  - destruct (Reflect.Type_ (getRealValue value)) as [t| | |]; cbn [bind] in H;
      try discriminate.
    destruct (negb (kind_eqb (TypeKind t) KSlice)); [discriminate|].
    destruct (Reflect.Index (getRealValue value) index) as [x| | |] eqn:Ex;
      cbn [bind] in H; try discriminate.
    injection H as <-. apply settled_getRealValue.
    exact (settled_Index _ _ _ Hv Ex).
  - injection H as <-. exact Hv.
Qed.

Lemma settled_switchValue (d : val) (key : string) (value : Value) :
  sound d = true ->
  switchValue rt d key opts = Ok value ->
  onValue sound value = true.
Proof.
  intros Hd H. destruct d; cbn [switchValue] in H; try (injection H as <-; reflexivity).
  - apply settled_entries in Hd as [Hall _]. unfold mapCase in H.
    destruct (negb (kind_eqb (TypeKind key0) KString)); [discriminate|].
    assert (Hidx : forall k, onValue sound (Reflect.MapIndex entries k) = true).
    { intros k. destruct (Reflect.MapIndex entries k) as [x|] eqn:Ex; [|reflexivity].
      exact (settled_lookup_assoc entries k x Hall Ex). }
    destruct (CaseInsentitive opts && kind_eqb (Reflect.Kind (Reflect.MapIndex entries key)) KInvalid).
    + destruct (find _ _) as [[k x]|]; injection H as <-; apply Hidx.
    + injection H as <-. apply Hidx.
  - injection H as <-. cbn [settledWith] in Hd. unfold structCase.
    assert (Hfield : onValue sound (Reflect.FieldByName fields key) = true).
    { rewrite FieldByName_MapIndex.
      destruct (Reflect.MapIndex fields key) as [x|] eqn:Ex; [|reflexivity].
      exact (settled_lookup_assoc fields key x Hd Ex). }
    destruct (CaseInsentitive opts && kind_eqb (Reflect.Kind (Reflect.FieldByName fields key)) KInvalid);
      [|exact Hfield].
    destruct (find _ fields) as [[k x]|] eqn:Ef; [|exact Hfield].
    exact (settled_find _ fields k x Hd Ef).
Qed.

Lemma settled_getValueByName (v v' : Value) (key : string) :
  onValue sound v = true ->
  getValueByName rt v key opts = Ok v' ->
  onValue sound v' = true.
Proof.
  destruct v as [d|]; cbn [getValueByName onValue];
    [|intros _ H; exfalso; exact (getValueByName_zero_fails _ _ H)].
  revert key. induction d as [d IH] using val_indirection_ind. intros key Hd H.
  assert (Hdirect : forall nm idx value,
            switchValue rt d nm opts = Ok value ->
            afterSwitch value idx = Ok v' -> onValue sound v' = true).
  { intros nm idx value Hsw Hafter.
    exact (settled_afterSwitch value v' idx (settled_switchValue d nm value Hd Hsw) Hafter). }
  destruct d; cbn [getValueByName_val] in H;
    destruct (parseIndex key) as [[nm idx]| | |]; cbn [bind fst snd] in H;
    try discriminate;
    try (match type of H with
         | bind ?sw _ = _ => destruct sw as [value| | |] eqn:Esw; cbn [bind] in H;
                             try discriminate; exact (Hdirect nm idx value Esw H)
         end).
  - destruct dyn as [d'|]; [|exfalso; exact (getValueByName_zero_fails _ _ H)].
    exact (IH d' (or_intror eq_refl) nm Hd H).
  - destruct target as [d'|]; [|exfalso; exact (getValueByName_zero_fails _ _ H)].
    exact (IH d' (or_introl (ex_intro _ elem eq_refl)) nm Hd H).
Qed.

Lemma settled_Len (v : Value) :
  isAggregable v = true -> onValue sound v = true -> (Reflect.Len v =? 0) = false.
Proof.
  intros Hagg Hv. destruct v as [[]|]; try (cbn in Hagg; discriminate);
    cbn [onValue] in Hv.
  - apply settled_items in Hv as [_ Hne]. destruct items; [congruence|].
    cbn [Reflect.Len List.length]. apply Z.eqb_neq. lia.
  - apply settled_entries in Hv as [_ Hne]. destruct entries; [congruence|].
    cbn [Reflect.Len List.length]. apply Z.eqb_neq. lia.
Qed.

Lemma settled_indexFunction (v : Value) (elems : list Value) :
  onValue sound v = true ->
  indexFunction rt v = Ok elems ->
  Forall (fun e => onValue sound e = true) elems.
Proof.
  intros Hv H. destruct v as [[]|]; cbn [indexFunction] in H; try discriminate;
    cbn [onValue] in Hv;
    injection H as <-; apply Forall_forall; intros e He; apply in_map_iff in He.
  - destruct He as [x [<- Hx]]. apply settled_items in Hv as [Hall _].
    rewrite forallb_forall in Hall. exact (Hall x Hx).
  - destruct He as [k [<- _]]. apply settled_entries in Hv as [Hall _].
    destruct (Reflect.MapIndex entries k) as [x|] eqn:Ex; [|reflexivity].
    exact (settled_lookup_assoc entries k x Hall Ex).
Qed.

Lemma settled_Interface (e : Value) (i : iface) :
  onValue sound e = true -> Reflect.Interface e = Ok i -> onValue sound i = true.
Proof.
  intros He H. destruct e as [d|]; [|discriminate].
  destruct d; cbn [Reflect.Interface] in H; injection H as <-; exact He.
Qed.

End SettledFacts.

Section SentinelLookup.

Variable rt : runtime.
Variable opts : Options.

(** The condition of the walk: the value at hand is settled for some
    number of nested decodings. *)
#[local] Abbreviation steady := (fun v : Value => exists n, settledValue rt opts n v = true).

Lemma steady_level (v : Value) :
  steady v -> exists n, onValue (settledWith rt opts (settled rt opts n)) v = true.
Proof.
  intros [n H]. destruct v as [d|]; [|exists O; reflexivity].
  destruct n as [|n]; [discriminate|]. exists n. exact H.
Qed.

Lemma level_steady (n : nat) (v : Value) :
  onValue (settledWith rt opts (settled rt opts n)) v = true -> steady v.
Proof. intros H. exists (S n). destruct v; exact H. Qed.

(** A string that is expanded stands for a map that is settled with one
    decoding less. *)
Lemma steady_expanded (v : Value) : steady v -> steady (expanded rt opts v).
Proof.
  intros Hv. unfold expanded.
  destruct (ExpandStringAsJSON opts) eqn:Eopt; [|exact Hv].
  destruct (expandStringAsJSON rt v) as [out|] eqn:E; [|exact Hv].
  unfold expandStringAsJSON in E. destruct v as [[]|]; try discriminate.
  destruct (String.eqb s EmptyString) eqn:Es; [discriminate|].
  destruct (Unmarshal rt s) as [entries|] eqn:Eu; [|discriminate].
  injection E as <-.
  destruct Hv as [n Hv]. destruct n as [|n]; [discriminate|].
  cbn [settledValue onValue settled settledWith] in Hv.
  rewrite Eopt, Es, Eu in Hv. cbn [negb andb] in Hv.
  destruct entries as [|kv entries]; [discriminate|].
  destruct n as [|n]; [cbn [forallb settled andb] in Hv; discriminate|].
  exists (S n). exact Hv.
Qed.

Lemma steady_getValueByName (v v' : Value) (key : string) :
  steady v -> getValueByName rt v key opts = Ok v' -> steady v'.
Proof.
  intros Hv H. destruct (steady_level v Hv) as [n Hn].
  exact (level_steady n v' (settled_getValueByName rt opts _ v v' key Hn H)).
Qed.

Lemma steady_Len (v : Value) :
  isAggregable v = true -> steady v -> (Reflect.Len v =? 0) = false.
Proof.
  intros Hagg Hv. destruct (steady_level v Hv) as [n Hn].
  exact (settled_Len rt opts _ v Hagg Hn).
Qed.

Lemma steady_elements (v : Value) (elems : list Value) :
  steady v ->
  indexFunction rt v = Ok elems ->
  Forall (fun e => forall i, Reflect.Interface e = Ok i -> steady i) elems.
Proof.
  intros Hv H. destruct (steady_level v Hv) as [n Hn].
  pose proof (settled_indexFunction rt opts _ v elems Hn H) as Hall.
  apply Forall_forall. intros e He i Hi.
  rewrite Forall_forall in Hall.
  exact (level_steady n i (settled_Interface rt opts _ e i (Hall e He) Hi)).
Qed.

Lemma aggregateLoop_same (rec : iface -> list string -> Options -> outcome Value)
    (p1 p2 : list string) (elems : list Value) :
  (forall i, steady i -> rec i p1 opts = rec i p2 opts) ->
  Forall (fun e => forall i, Reflect.Interface e = Ok i -> steady i) elems ->
  forall values,
    aggregateLoop rec elems p1 opts values = aggregateLoop rec elems p2 opts values.
Proof.
  intros Hrec Helems.
  induction Helems as [|e elems He _ IH]; intros values; [reflexivity|].
  cbn [aggregateLoop].
  destruct (Reflect.Interface e) as [i| | |] eqn:Ei; cbn [bind]; try reflexivity.
  rewrite (Hrec i (He i eq_refl)).
  destruct (rec i p2 opts); cbn [bind]; try reflexivity. apply IH.
Qed.

(** On a settled input the result depends on a segment only through what
    [parseIndex] returns for it. *)
Lemma lookup_same_parse (fuel : nat) :
  forall (i : iface) (p1 p2 : list string),
    Forall2 (fun s1 s2 => parseIndex s1 = parseIndex s2) p1 p2 ->
    steady i ->
    lookup rt fuel i p1 opts = lookup rt fuel i p2 opts.
Proof.
  induction fuel as [|fuel IH]; intros i p1 p2 Hpaths Hi; [reflexivity|].
  destruct Hpaths as [|s1 s2 r1 r2 Hs Hr]; [reflexivity|].
  rewrite !lookup_step.
  pose proof (steady_expanded i Hi) as Hv.
  revert Hv. generalize (expanded rt opts i) as value.
  assert (Hpaths : Forall2 (fun s1 s2 => parseIndex s1 = parseIndex s2)
                     (s1 :: r1) (s2 :: r2)) by (constructor; assumption).
  revert Hpaths. generalize (s1 :: r1) as q1. generalize (s2 :: r2) as q2.
  clear s1 s2 r1 r2 Hs Hr Hi i.
  intros q2 q1 Hpaths.
  induction Hpaths as [|s1 s2 r1 r2 Hs Hr IHpath]; intros value Hv; [reflexivity|].
  cbn [lookupLoop].
  pose proof (steady_expanded value Hv) as Hv'.
  destruct (debugPre opts (expanded rt opts value)); cbn [bind]; try reflexivity.
  rewrite (getValueByName_same_parse rt (expanded rt opts value) s1 s2 opts Hs).
  destruct (getValueByName rt (expanded rt opts value) s2 opts) as [value'|err| |] eqn:Eg;
    try reflexivity.
  - apply IHpath. exact (steady_getValueByName _ value' s2 Hv' Eg).
  - destruct (isAggregable (expanded rt opts value)) eqn:Eagg; [|reflexivity].
    cbn [negb]. unfold aggreateAggregableValue.
    rewrite (steady_Len _ Eagg Hv').
    destruct (indexFunction rt (expanded rt opts value)) as [elems| | |] eqn:Eidx;
      cbn [bind]; try reflexivity.
    rewrite (aggregateLoop_same (lookup rt fuel) (s1 :: r1) (s2 :: r2) elems).
    + reflexivity.
    + intros i Hi. apply IH; [constructor; assumption|exact Hi].
    + exact (steady_elements _ elems Hv' Eidx).
Qed.

End SentinelLookup.

Lemma parseIndex_minus_one (name : string) :
  GoString.occurs "[" name = false ->
  GoString.occurs "]" name = false ->
  parseIndex (name ++ "[-1]")%string = parseIndex name.
Proof.
  intros Ho Hc.
  rewrite (parseIndex_plain name Ho Hc).
  exact (parseIndex_bracketed name "-1" "" Ho Hc eq_refl).
Qed.

Lemma Forall2_same_parse (before after : list string) (s1 s2 : string) :
  parseIndex s1 = parseIndex s2 ->
  Forall2 (fun a b => parseIndex a = parseIndex b)
    (before ++ s1 :: after) (before ++ s2 :: after).
Proof.
  intros H. apply Forall2_app.
  - induction before; constructor; [reflexivity|assumption].
  - constructor; [exact H|]. induction after; constructor; [reflexivity|assumption].
Qed.

(** C9 (counterexample).  On an empty slice of structs the path
    ["String[-1]"] and the path ["String"] give different results: the
    type resolver takes the bracketed segment as indexed and stops at the
    element type. *)
Lemma sentinel_index_counterexample :
  Lookup Fixtures.forward 1 (Some (VSlice Fixtures.MyStruct [])) "String[-1]"
    Fixtures.plain = Ok (Some (VSlice Fixtures.MyStruct []))
  /\ Lookup Fixtures.forward 1 (Some (VSlice Fixtures.MyStruct [])) "String"
       Fixtures.plain = Ok (Some (VSlice TString [])).
Proof. split; reflexivity. Qed.

(** C9 (amended).  For a name without brackets the segment [name[-1]]
    parses with the index -1, as the segment [name] does, and a value
    resolves both segments alike.  When no slice and no map inside the
    input is empty, nor, with [ExpandStringAsJSON], inside the maps that
    the strings of the input decode to, [Lookup] returns the same result
    for a path with the segment [name[-1]] as for the path with [name] in
    its place.  The condition is on the input alone: the decoder is any
    decoder, and with [ExpandStringAsJSON] unset it is not consulted. *)
Theorem sentinel_index (rt : runtime) (name : string) :
  GoString.occurs "[" name = false ->
  GoString.occurs "]" name = false ->
  parseIndex (name ++ "[-1]")%string = Ok (name, -1)
  /\ (forall (v : Value) (opts : Options),
        getValueByName rt v (name ++ "[-1]")%string opts = getValueByName rt v name opts)
  /\ (forall (fuel n : nat) (i : iface) (path path' : string)
             (before after : list string) (opts : Options),
        settledValue rt opts n i = true ->
        GoString.Split path SplitToken = before ++ (name ++ "[-1]")%string :: after ->
        GoString.Split path' SplitToken = before ++ name :: after ->
        Lookup rt fuel i path opts = Lookup rt fuel i path' opts).
Proof.
  intros Ho Hc.
  pose proof (parseIndex_minus_one name Ho Hc) as Hparse.
  split; [rewrite Hparse; exact (parseIndex_plain name Ho Hc)|].
  split.
  - intros v opts. exact (getValueByName_same_parse rt v _ _ opts Hparse).
  - intros fuel n i path path' before after opts Hi Hsplit Hsplit'.
    unfold Lookup. rewrite Hsplit, Hsplit'.
    rewrite (lookup_same_parse rt opts fuel i _ _
               (Forall2_same_parse before after _ _ Hparse)
               (ex_intro _ n Hi)).
    reflexivity.
Qed.

Lemma sentinel_index_witness :
  parseIndex "Cast[-1]" = Ok ("Cast", -1)
  /\ Lookup Fixtures.decoding 3 (Some Fixtures.series) "A-Team.Cast[-1].Role"
       Fixtures.plain
     = Lookup Fixtures.decoding 3 (Some Fixtures.series) "A-Team.Cast.Role"
         Fixtures.plain
  /\ Lookup Fixtures.decoding 3 (Some Fixtures.series) "A-Team.Cast[-1].Role"
       {| ExpandStringAsJSON := true; CaseInsentitive := false |}
     = Lookup Fixtures.decoding 3 (Some Fixtures.series) "A-Team.Cast.Role"
         {| ExpandStringAsJSON := true; CaseInsentitive := false |}.
Proof.
  pose proof (sentinel_index Fixtures.decoding "Cast" eq_refl eq_refl) as [H1 [_ H3]].
  split; [exact H1|]. split.
  - apply (H3 3%nat 1%nat _ "A-Team.Cast[-1].Role" "A-Team.Cast.Role" ["A-Team"] ["Role"]
             Fixtures.plain); reflexivity.
  - apply (H3 3%nat 1%nat _ "A-Team.Cast[-1].Role" "A-Team.Cast.Role" ["A-Team"] ["Role"]
             {| ExpandStringAsJSON := true; CaseInsentitive := false |}); reflexivity.
Defined.


(** ** The recursion budget *)

Section FuelFacts.

Variable rt : runtime.

Lemma aggregateLoop_mono (rec rec' : iface -> list string -> Options -> outcome Value)
    (path : list string) (opts : Options) :
  (forall i r, rec i path opts = r -> r <> OutOfFuel -> rec' i path opts = r) ->
  forall elems values r,
    aggregateLoop rec elems path opts values = r -> r <> OutOfFuel ->
    aggregateLoop rec' elems path opts values = r.
Proof.
  intros Hrec. induction elems as [|e elems IH]; intros values r H Hr; [exact H|].
  cbn [aggregateLoop] in *.
  destruct (Reflect.Interface e) as [i| | |]; cbn [bind] in *; try exact H.
  destruct (rec i path opts) as [value| | |] eqn:Er; cbn [bind] in H.
  - rewrite (Hrec i _ Er) by discriminate. cbn [bind]. exact (IH _ _ H Hr).
  - rewrite (Hrec i _ Er) by discriminate. exact H.
  - rewrite (Hrec i _ Er) by discriminate. exact H.
  - congruence.
Qed.

(** More budget does not change a result already reached. *)
Lemma lookup_fuel_mono (fuel : nat) :
  forall i path opts r,
    lookup rt fuel i path opts = r -> r <> OutOfFuel ->
    lookup rt (S fuel) i path opts = r.
Proof.
  induction fuel as [|fuel IH]; intros i path opts r H Hr; [cbn in H; congruence|].
  destruct path as [|part rest]; [exact H|].
  rewrite lookup_step in *.
  revert H. generalize (expanded rt opts i) as value.
  generalize (part :: rest) as q. clear part rest.
  induction q as [|part rest IHq]; intros value H; [exact H|].
  cbn [lookupLoop] in *.
  destruct (debugPre opts (expanded rt opts value)); cbn [bind] in *; try exact H.
  destruct (getValueByName rt (expanded rt opts value) part opts); try exact H.
  - exact (IHq _ H).
  - destruct (negb (isAggregable (expanded rt opts value))); [exact H|].
    unfold aggreateAggregableValue in *.
    destruct (Reflect.Len (expanded rt opts value) =? 0); [exact H|].
    destruct (indexFunction rt (expanded rt opts value)) as [elems| | |];
      cbn [bind] in *; try exact H.
    destruct (aggregateLoop (lookup rt fuel) elems (part :: rest) opts [])
      as [values| | |] eqn:Eloop; cbn [bind] in H; try congruence;
      rewrite (aggregateLoop_mono (lookup rt fuel) (lookup rt (S fuel))
                 (part :: rest) opts
                 (fun i r => IH i (part :: rest) opts r) elems [] _ Eloop)
        by discriminate;
      exact H.
Qed.

End FuelFacts.

Section TerminationFacts.

Variable rt : runtime.

Lemma depth_in (f : string * val -> nat) (l : list (string * val)) (kv : string * val) :
  In kv l -> (f kv <= list_max (map f l))%nat.
Proof.
  intros Hin.
  pose proof (proj1 (list_max_le (map f l) (list_max (map f l))) (Nat.le_refl _)) as Hall.
  rewrite Forall_forall in Hall. apply Hall. apply in_map. exact Hin.
Qed.

Lemma depth_item (items : list val) (x : val) :
  In x items -> (depth x <= list_max (map depth items))%nat.
Proof.
  intros Hin.
  pose proof (proj1 (list_max_le (map depth items) (list_max (map depth items)))
                (Nat.le_refl _)) as Hall.
  rewrite Forall_forall in Hall. apply Hall. apply in_map. exact Hin.
Qed.

Lemma MapIndex_in (l : list (string * val)) (key : string) (x : val) :
  Reflect.MapIndex l key = Some x -> exists k, In (k, x) l.
Proof.
  induction l as [|[k d] l IH]; cbn [Reflect.MapIndex]; [discriminate|].
  destruct (String.eqb k key).
  - intros H. injection H as ->. exists k. left. reflexivity.
  - intros H. destruct (IH H) as [k' Hk']. exists k'. right. exact Hk'.
Qed.

Lemma depth_MapIndex (l : list (string * val)) (key : string) :
  (depthOf (Reflect.MapIndex l key)
   <= list_max (map (fun kv => depth (snd kv)) l))%nat.
Proof.
  destruct (Reflect.MapIndex l key) as [x|] eqn:Ex; cbn [depthOf]; [|lia].
  destruct (MapIndex_in l key x Ex) as [k Hk].
  exact (depth_in (fun kv => depth (snd kv)) l (k, x) Hk).
Qed.

Lemma depth_realValueOf (d : val) : (depthOf (realValueOf d) <= depth d)%nat.
Proof.
  induction d as [d IH] using val_indirection_ind.
  destruct d; cbn [realValueOf depthOf]; try lia.
  - destruct dyn as [d'|]; cbn [depth depthOf]; [|lia].
    specialize (IH d' (or_intror eq_refl)). lia.
  - destruct target as [d'|]; cbn [depth depthOf]; [|lia].
    specialize (IH d' (or_introl (ex_intro _ elem eq_refl))). lia.
Qed.

Lemma depth_getRealValue (v : Value) : (depthOf (getRealValue v) <= depthOf v)%nat.
Proof. destruct v as [d|]; [apply depth_realValueOf|cbn; lia]. Qed.

Lemma depth_Index (v x : Value) (index : Z) :
  Reflect.Index v index = Ok x -> (depthOf x < depthOf v)%nat.
Proof.
  intros H. destruct v as [[]|]; cbn [Reflect.Index] in H; try discriminate.
  destruct ((0 <=? index) && (index <? Z.of_nat (List.length items))); [|discriminate].
  destruct (nth_error items (Z.to_nat index)) as [y|] eqn:Ey; [|discriminate].
  injection H as <-. cbn [depthOf depth].
  pose proof (depth_item items y (nth_error_In _ _ Ey)). lia.
Qed.

Lemma depth_afterSwitch (value v' : Value) (index : Z) :
  afterSwitch value index = Ok v' -> (depthOf v' <= depthOf value)%nat.
Proof.
  intros H. unfold afterSwitch in H.
  destruct (negb (Reflect.IsValid value)); [discriminate|].
  pose proof (depth_getRealValue value) as Hr.
  destruct (negb (index =? -1)).
  - destruct (Reflect.Type_ (getRealValue value)) as [t| | |]; cbn [bind] in H;
      try discriminate.
    destruct (negb (kind_eqb (TypeKind t) KSlice)); [discriminate|].
    destruct (Reflect.Index (getRealValue value) index) as [x| | |] eqn:Ex;
      cbn [bind] in H; try discriminate.
    injection H as <-.
    pose proof (depth_Index _ _ _ Ex). pose proof (depth_getRealValue x). lia.
  - injection H as <-. exact Hr.
Qed.

Lemma depth_switchValue (d : val) (key : string) (opts : Options) (value : Value) :
  switchValue rt d key opts = Ok value -> (depthOf value <= depth d)%nat.
Proof.
  intros H. destruct d; cbn [switchValue] in H;
    try (injection H as <-; cbn [depthOf]; lia).
  - unfold mapCase in H. cbn [depth].
    destruct (negb (kind_eqb (TypeKind key0) KString)); [discriminate|].
    pose proof (depth_MapIndex entries) as Hidx.
    destruct (CaseInsentitive opts && kind_eqb (Reflect.Kind (Reflect.MapIndex entries key)) KInvalid).
    + destruct (find _ _) as [[k x]|]; injection H as <-.
      * specialize (Hidx k). lia.
      * specialize (Hidx key). lia.
    + injection H as <-. specialize (Hidx key). lia.
  - injection H as <-. unfold structCase. cbn [depth].
    pose proof (depth_MapIndex fields key) as Hidx.
    rewrite <- FieldByName_MapIndex in Hidx.
    destruct (CaseInsentitive opts && kind_eqb (Reflect.Kind (Reflect.FieldByName fields key)) KInvalid);
      [|lia].
    destruct (find _ fields) as [[k x]|] eqn:Ef; [|lia].
    apply find_some in Ef as [Hin _]. cbn [depthOf].
    pose proof (depth_in (fun f => depth (snd f)) fields (k, x) Hin) as Hx.
    cbn [snd] in Hx. lia.
Qed.

Lemma depth_getValueByName (v v' : Value) (key : string) (opts : Options) :
  getValueByName rt v key opts = Ok v' -> (depthOf v' <= depthOf v)%nat.
Proof.
  destruct v as [d|]; cbn [getValueByName depthOf];
    [|intros H; exfalso; exact (getValueByName_zero_fails _ _ H)].
  revert key. induction d as [d IH] using val_indirection_ind. intros key H.
  assert (Hdirect : forall nm idx value,
            switchValue rt d nm opts = Ok value ->
            afterSwitch value idx = Ok v' -> (depthOf v' <= depth d)%nat).
  { intros nm idx value Hsw Hafter.
    pose proof (depth_switchValue d nm opts value Hsw).
    pose proof (depth_afterSwitch value v' idx Hafter). lia. }
  destruct d; cbn [getValueByName_val] in H;
    destruct (parseIndex key) as [[nm idx]| | |]; cbn [bind fst snd] in H;
    try discriminate;
    try (match type of H with
         | bind ?sw _ = _ => destruct sw as [value| | |] eqn:Esw; cbn [bind] in H;
                             try discriminate; exact (Hdirect nm idx value Esw H)
         end).
  - destruct dyn as [d'|]; [|exfalso; exact (getValueByName_zero_fails _ _ H)].
    pose proof (IH d' (or_intror eq_refl) nm H). cbn [depth]. lia.
  - destruct target as [d'|]; [|exfalso; exact (getValueByName_zero_fails _ _ H)].
    pose proof (IH d' (or_introl (ex_intro _ elem eq_refl)) nm H). cbn [depth]. lia.
Qed.

Lemma depth_indexFunction (v : Value) (elems : list Value) :
  indexFunction rt v = Ok elems ->
  Forall (fun e => (depthOf e < depthOf v)%nat) elems.
Proof.
  intros H. destruct v as [[]|]; cbn [indexFunction] in H; try discriminate;
    injection H as <-; apply Forall_forall; intros e He; apply in_map_iff in He;
    cbn [depthOf depth].
  - destruct He as [x [<- Hx]]. cbn [depthOf].
    pose proof (depth_item items x Hx). lia.
  - destruct He as [k [<- _]]. pose proof (depth_MapIndex entries k). lia.
Qed.

Lemma depth_Interface (e : Value) (i : iface) :
  Reflect.Interface e = Ok i -> (depthOf i <= depthOf e)%nat.
Proof.
  intros H. destruct e as [d|]; [|discriminate].
  destruct d; cbn [Reflect.Interface] in H; injection H as <-; cbn [depthOf depth];
    try lia.
  destruct dyn; cbn [depthOf]; lia.
Qed.

Lemma afterSwitch_terminates (value : Value) (index : Z) :
  afterSwitch value index <> OutOfFuel.
Proof.
  unfold afterSwitch. destruct (negb (Reflect.IsValid value)); [discriminate|].
  destruct (negb (index =? -1)); [|discriminate].
  destruct (getRealValue value) as [m|]; cbn [Reflect.Type_ bind]; [|discriminate].
  destruct (negb (kind_eqb (TypeKind (TypeOf m)) KSlice)); [discriminate|].
  unfold Reflect.Index. destruct m; cbn [bind]; try discriminate.
  destruct ((0 <=? index) && (index <? Z.of_nat (List.length items)));
    [|discriminate].
  destruct (nth_error items (Z.to_nat index)); discriminate.
Qed.

Lemma getValueByName_terminates (v : Value) (key : string) (opts : Options) :
  getValueByName rt v key opts <> OutOfFuel.
Proof.
  assert (Hparse : forall s, parseIndex s <> OutOfFuel).
  { intros s. unfold parseIndex.
    destruct ((_ =? -1) && (_ =? -1)); [discriminate|].
    destruct (_ || _); [discriminate|].
    destruct (GoString.slice s _ _); [|discriminate].
    destruct (GoString.Atoi _); [|discriminate].
    destruct (GoString.slice s 0 _); discriminate. }
  assert (Hzero : forall s, getValueByName_zero s <> OutOfFuel).
  { intros s. unfold getValueByName_zero. specialize (Hparse s).
    destruct (parseIndex s); cbn [bind]; try discriminate; congruence. }
  destruct v as [d|]; cbn [getValueByName]; [|apply Hzero].
  revert key. induction d as [d IH] using val_indirection_ind. intros key.
  specialize (Hparse key).
  destruct d; cbn [getValueByName_val];
    destruct (parseIndex key) as [[nm idx]| | |]; cbn [bind fst snd switchValue];
    try discriminate; try congruence; try apply afterSwitch_terminates.
  - destruct dyn as [d'|]; [exact (IH d' (or_intror eq_refl) nm)|apply Hzero].
  - destruct target as [d'|]; [|apply Hzero].
    exact (IH d' (or_introl (ex_intro _ elem eq_refl)) nm).
  - unfold mapCase. destruct (negb (kind_eqb (TypeKind key0) KString));
      cbn [bind]; [discriminate|].
    destruct (CaseInsentitive opts && _).
    + destruct (find _ _) as [[k x]|]; cbn [bind]; apply afterSwitch_terminates.
    + cbn [bind]. apply afterSwitch_terminates.
Qed.

Lemma mergeValue_terminates (values : list Value) : mergeValue values <> OutOfFuel.
Proof.
  assert (Hloop : forall mergeable vs value, mergeLoop mergeable vs value <> OutOfFuel).
  { intros mergeable vs. induction vs as [|x vs IH]; intros value; cbn [mergeLoop];
      [discriminate|].
    destruct (negb (Reflect.IsValid x)); [apply IH|].
    destruct mergeable.
    - unfold Reflect.AppendSlice.
      destruct value as [[]|]; cbn [bind]; try discriminate.
      destruct x as [[]|]; cbn [bind]; try discriminate.
      destruct (type_eqb elem elem0); cbn [bind]; [apply IH|discriminate].
    - unfold Reflect.Append.
      destruct value as [[]|]; cbn [bind]; try discriminate.
      destruct x as [x|]; cbn [bind]; [|discriminate].
      destruct (assignable elem (TypeOf x)); cbn [bind]; [|discriminate].
      destruct (kind_eqb (TypeKind elem) KInterface); [|apply IH].
      destruct x; cbn [bind]; apply IH. }
  unfold mergeValue. destruct (removeZeroValues values) as [|sample vs]; [discriminate|].
  destruct (Reflect.Type_ sample) as [t| | |] eqn:Et; cbn [bind]; try discriminate.
  - destruct (isMergeable sample).
    + destruct (TypeElem t) as [t'| | |] eqn:Ee; cbn [bind]; try discriminate.
      * apply Hloop.
      * exfalso. clear -Ee. induction t; cbn [TypeElem] in Ee; try discriminate; auto.
    + cbn [bind]. apply Hloop.
  - destruct sample; discriminate.
Qed.

Lemma aggregateLoop_terminates
    (rec : iface -> list string -> Options -> outcome Value)
    (path : list string) (opts : Options) (elems : list Value) :
  Forall (fun e => forall i, Reflect.Interface e = Ok i ->
                             rec i path opts <> OutOfFuel) elems ->
  forall values, aggregateLoop rec elems path opts values <> OutOfFuel.
Proof.
  induction 1 as [|e elems He _ IH]; intros values; cbn [aggregateLoop];
    [discriminate|].
  destruct (Reflect.Interface e) as [i| | |] eqn:Ei; cbn [bind]; try discriminate.
  - specialize (He i eq_refl).
    destruct (rec i path opts); cbn [bind];
      solve [discriminate | congruence | apply IH].
  - destruct e as [[]|]; discriminate.
Qed.

(** With [ExpandStringAsJSON] unset, a budget above the nesting depth of
    the input is enough: [lookup] then returns a value, an error or
    panics. *)
Lemma lookup_terminates (opts : Options) (fuel : nat) :
  ExpandStringAsJSON opts = false ->
  forall (i : iface) (path : list string),
    (depthOf i < fuel)%nat ->
    lookup rt fuel i path opts <> OutOfFuel.
Proof.
  intros Hopt. induction fuel as [|fuel IH]; intros i path Hfuel; [lia|].
  destruct path as [|part rest]; [discriminate|].
  rewrite lookup_step.
  assert (Hexp : forall v, expanded rt opts v = v).
  { intros v. unfold expanded. rewrite Hopt. reflexivity. }
  rewrite Hexp.
  assert (Hv : (depthOf i <= fuel)%nat) by lia.
  revert Hv. generalize i as value. generalize (part :: rest) as q.
  clear i part rest Hfuel.
  induction q as [|part rest IHq]; intros value Hv; [discriminate|].
  cbn [lookupLoop]. unfold debugPre. rewrite Hexp, Hopt. cbn [bind].
  pose proof (getValueByName_terminates value part opts) as Hg.
  destruct (getValueByName rt value part opts) as [value'|err| |] eqn:Eg;
    try discriminate; try congruence.
  - apply IHq. pose proof (depth_getValueByName _ _ _ _ Eg). lia.
  - destruct (negb (isAggregable value)); [discriminate|].
    unfold aggreateAggregableValue.
    destruct (Reflect.Len value =? 0).
    + destruct (Reflect.Type_ value) as [t| | |] eqn:Et; cbn [bind]; try discriminate.
      * destruct (lookupType rt (part :: rest) t); discriminate.
      * destruct value; discriminate.
    + destruct (indexFunction rt value) as [elems| | |] eqn:Eidx; cbn [bind];
        try discriminate.
      * pose proof (aggregateLoop_terminates (lookup rt fuel) (part :: rest) opts elems)
          as Hloop.
        destruct (aggregateLoop (lookup rt fuel) elems (part :: rest) opts [])
          as [values| | |] eqn:Eloop; cbn [bind]; try discriminate.
        -- apply mergeValue_terminates.
        -- exfalso. refine (Hloop _ [] Eloop).
           pose proof (depth_indexFunction value elems Eidx) as Hd.
           rewrite Forall_forall in Hd. apply Forall_forall. intros e He j Hj.
           apply IH. pose proof (Hd e He). pose proof (depth_Interface e j Hj). lia.
      * destruct value as [[]|]; discriminate.
Qed.

End TerminationFacts.


(** ** Further properties of the segment parser *)

Section ParserMore.

Lemma occurs_before_Index (c : ascii) (s : string) :
  forall n : nat,
    GoString.Index s (String c EmptyString) = -1
    \/ Z.of_nat n <= GoString.Index s (String c EmptyString) ->
    GoString.occurs c (substring 0 n s) = false.
Proof.
  induction s as [|a s IH]; intros n H.
  - destruct n; reflexivity.
  - destruct n as [|n]; [reflexivity|].
    cbn [substring GoString.occurs].
    cbn [GoString.Index] in H. rewrite prefix_byte in H.
    destruct (Ascii.eqb a c); cbv iota zeta in H; [exfalso; lia|]. cbn [orb].
    apply IH.
    destruct (GoString.Index s (String c EmptyString) =? -1) eqn:E.
    + left. apply Z.eqb_eq. exact E.
    + right. pose proof (Index_byte_bounds c s) as [B|[_ B]]; lia.
Qed.

Lemma substring_is_prefix (s : string) :
  forall n : nat, exists rest, s = (substring 0 n s ++ rest)%string.
Proof.
  induction s as [|a s IH]; intros n.
  - exists EmptyString. destruct n; reflexivity.
  - destruct n as [|n].
    + exists (String a s). reflexivity.
    + destruct (IH n) as [rest Hrest]. exists rest.
      cbn [substring append]. rewrite <- Hrest. reflexivity.
Qed.

Lemma digits_nonneg (s : string) :
  forall acc n, 0 <= acc -> GoString.digits s acc = Some n -> 0 <= n.
Proof.
  induction s as [|a s IH]; intros acc n Hacc H; cbn [GoString.digits] in H.
  - injection H as <-. exact Hacc.
  - destruct (GoString.digit a) as [d|] eqn:Ed; [|discriminate].
    apply (IH (acc * 10 + d)); [|exact H].
    unfold GoString.digit in Ed.
    destruct ((48 <=? Z.of_nat (nat_of_ascii a)) && (Z.of_nat (nat_of_ascii a) <=? 57))
      eqn:Er; [|discriminate].
    injection Ed as <-. apply andb_true_iff in Er as [E1 _].
    apply Z.leb_le in E1. lia.
Qed.

Lemma Atoi_range (s : string) (n : Z) :
  GoString.Atoi s = Some n -> GoString.minInt <= n <= GoString.maxInt.
Proof.
  unfold GoString.Atoi. destruct s as [|a s]; [discriminate|].
  set (body := if Ascii.eqb a "-" || Ascii.eqb a "+" then s else String a s).
  destruct body; [discriminate|].
  destruct (GoString.digits _ 0) as [m|]; [|discriminate].
  set (v := if Ascii.eqb a "-" then - m else m).
  destruct ((GoString.minInt <=? v) && (v <=? GoString.maxInt)) eqn:E; [|discriminate].
  intros H. injection H as <-. apply andb_true_iff in E as [E1 E2].
  apply Z.leb_le in E1, E2. lia.
Qed.

End ParserMore.

(** Parsing the name that [parseIndex] returned gives the name back. *)
Lemma parseIndex_name_again (name : string) (index : Z) (s : string) :
  parseIndex s = Ok (name, index) ->
  parseIndex name = Ok (name, -1)
  /\ GoString.occurs "[" name = false /\ GoString.occurs "]" name = false.
Proof.
  intros H.
  assert (Hno : GoString.occurs "[" name = false /\ GoString.occurs "]" name = false).
  { unfold parseIndex, IndexOpenChar, IndexCloseChar in H.
    destruct (GoString.Index s "[" =? -1) eqn:Eo;
      destruct (GoString.Index s "]" =? -1) eqn:Ec; cbn [andb orb negb] in H;
      try discriminate.
    - injection H as <- <-. apply Z.eqb_eq in Eo, Ec.
      split; apply Index_byte_absent; assumption.
    - destruct (GoString.slice s (GoString.Index s "[" + 1) (GoString.Index s "]"))
        as [digits|] eqn:Ed; [|discriminate].
      destruct (GoString.Atoi digits) as [n|]; [|discriminate].
      destruct (GoString.slice s 0 (GoString.Index s "[")) as [nm|] eqn:Es;
        [|discriminate].
      injection H as <- <-.
      unfold GoString.slice in Ed, Es.
      destruct ((0 <=? GoString.Index s "[" + 1)
                && (GoString.Index s "[" + 1 <=? GoString.Index s "]")
                && (GoString.Index s "]" <=? GoString.len s)) eqn:Bd; [|discriminate].
      destruct ((0 <=? 0) && (0 <=? GoString.Index s "[")
                && (GoString.Index s "[" <=? GoString.len s)) eqn:Bs; [|discriminate].
      injection Es as <-. rewrite Z.sub_0_r. simpl (Z.to_nat 0).
      apply andb_true_iff in Bd as [Bd _]. apply andb_true_iff in Bd as [_ Bd].
      apply andb_true_iff in Bs as [Bs _]. apply andb_true_iff in Bs as [_ Bs].
      apply Z.leb_le in Bd, Bs.
      split; apply occurs_before_Index; right; lia. }
  destruct Hno as [H1 H2]. split; [exact (parseIndex_plain name H1 H2)|].
  split; assumption.
Qed.

(** X1.  What [parseIndex] returns on success: the name is the beginning
    of the piece and holds no bracket, so parsing the name again returns
    it unchanged with no index (the recursion of [getValueByName] on
    pointers relies on it), and the index lies in the range of [int]. *)
Theorem parseIndex_name_stable (s name : string) (index : Z) :
  parseIndex s = Ok (name, index) ->
  (exists rest, s = (name ++ rest)%string)
  /\ GoString.occurs "[" name = false
  /\ GoString.occurs "]" name = false
  /\ parseIndex name = Ok (name, -1)
  /\ GoString.minInt <= index <= GoString.maxInt.
Proof.
  intros H.
  assert (Hmain : (exists rest, s = (name ++ rest)%string)
                  /\ GoString.occurs "[" name = false
                  /\ GoString.occurs "]" name = false
                  /\ GoString.minInt <= index <= GoString.maxInt).
  { unfold parseIndex, IndexOpenChar, IndexCloseChar in H.
    destruct (GoString.Index s "[" =? -1) eqn:Eo;
      destruct (GoString.Index s "]" =? -1) eqn:Ec; cbn [andb orb negb] in H;
      try discriminate.
    - injection H as <- <-. apply Z.eqb_eq in Eo, Ec.
      split; [exists EmptyString; clear; induction s; simpl; congruence|].
      split; [apply Index_byte_absent; exact Eo|].
      split; [apply Index_byte_absent; exact Ec|]. vm_compute. split; discriminate.
    - destruct (GoString.slice s (GoString.Index s "[" + 1) (GoString.Index s "]"))
        as [digits|] eqn:Ed; [|discriminate].
      destruct (GoString.Atoi digits) as [n|] eqn:En; [|discriminate].
      destruct (GoString.slice s 0 (GoString.Index s "[")) as [nm|] eqn:Es;
        [|discriminate].
      injection H as <- <-.
      unfold GoString.slice in Ed, Es.
      destruct ((0 <=? GoString.Index s "[" + 1)
                && (GoString.Index s "[" + 1 <=? GoString.Index s "]")
                && (GoString.Index s "]" <=? GoString.len s)) eqn:Bd; [|discriminate].
      destruct ((0 <=? 0) && (0 <=? GoString.Index s "[")
                && (GoString.Index s "[" <=? GoString.len s)) eqn:Bs; [|discriminate].
      injection Es as <-. rewrite Z.sub_0_r. simpl (Z.to_nat 0).
      apply andb_true_iff in Bd as [Bd _]. apply andb_true_iff in Bd as [_ Bd].
      apply andb_true_iff in Bs as [Bs _]. apply andb_true_iff in Bs as [_ Bs].
      apply Z.leb_le in Bd, Bs.
      split; [apply substring_is_prefix|].
      split; [apply occurs_before_Index; right; lia|].
      split; [apply occurs_before_Index; right; lia|].
      exact (Atoi_range digits n En). }
  destruct Hmain as [H1 [H2 [H3 H4]]].
  repeat split; try assumption; try apply H4.
  exact (parseIndex_plain name H2 H3).
Qed.

Lemma parseIndex_name_stable_witness :
  parseIndex "StructSlice" = Ok ("StructSlice", -1)
  /\ GoString.occurs "[" "StructSlice" = false.
Proof.
  pose proof (parseIndex_name_stable "StructSlice[0]" "StructSlice" 0 eq_refl)
    as [_ [H2 [_ [H4 _]]]].
  split; [exact H4|exact H2].
Defined.

(** ** What the resolver and the merger return *)

Section ResultFacts.

Variable rt : runtime.

Lemma realValueOf_direct (d : val) : direct (realValueOf d).
Proof.
  induction d as [d IH] using val_indirection_ind.
  destruct d; cbn [realValueOf]; try (split; discriminate).
  - destruct dyn as [d'|]; [apply IH; right; reflexivity|split; discriminate].
  - destruct target as [d'|]; [|split; discriminate].
    apply IH. left. eexists. reflexivity.
Qed.

Lemma realValueOf_of_direct (d : val) :
  direct (Some d) -> realValueOf d = Some d.
Proof.
  intros [Hp Hi]. destruct d; try reflexivity; cbn in Hp, Hi; congruence.
Qed.

Lemma getRealValue_of_direct (v : Value) : direct v -> getRealValue v = v.
Proof. destruct v as [d|]; [apply realValueOf_of_direct|reflexivity]. Qed.

Lemma afterSwitch_direct (value v' : Value) (index : Z) :
  afterSwitch value index = Ok v' -> direct v'.
Proof.
  unfold afterSwitch. destruct (negb (Reflect.IsValid value)); [discriminate|].
  assert (Hd : forall v, direct (getRealValue v)).
  { intros [d|]; [apply realValueOf_direct|split; discriminate]. }
  destruct (negb (index =? -1)).
  - destruct (Reflect.Type_ (getRealValue value)) as [t| | |]; cbn [bind];
      try discriminate.
    destruct (negb (kind_eqb (TypeKind t) KSlice)); [discriminate|].
    destruct (Reflect.Index (getRealValue value) index) as [x| | |]; cbn [bind];
      try discriminate.
    intros H. injection H as <-. apply Hd.
  - intros H. injection H as <-. apply Hd.
Qed.

Lemma getValueByName_direct_result (v v' : Value) (key : string) (opts : Options) :
  getValueByName rt v key opts = Ok v' -> direct v'.
Proof.
  destruct v as [d|]; cbn [getValueByName];
    [|intros H; exfalso; exact (getValueByName_zero_fails _ _ H)].
  revert key. induction d as [d IH] using val_indirection_ind. intros key H.
  destruct d; cbn [getValueByName_val] in H;
    destruct (parseIndex key) as [[nm idx]| | |]; cbn [bind fst snd] in H;
    try discriminate;
    try (match type of H with
         | bind ?sw _ = _ => destruct sw as [value| | |]; cbn [bind] in H;
                             try discriminate; exact (afterSwitch_direct _ _ _ H)
         end).
  - destruct dyn as [d'|]; [|exfalso; exact (getValueByName_zero_fails _ _ H)].
    exact (IH d' (or_intror eq_refl) nm H).
  - destruct target as [d'|]; [|exfalso; exact (getValueByName_zero_fails _ _ H)].
    exact (IH d' (or_introl (ex_intro _ elem eq_refl)) nm H).
Qed.

Lemma mergeLoop_flatten (e : type) (vs : list Value) :
  forall acc r,
    mergeLoop true vs (Some (VSlice e acc)) = Ok r ->
    Forall (fun x => forall d, x = Some d -> exists items, d = VSlice e items) vs
    /\ r = Some (VSlice e (acc ++ List.concat
                                    (map (fun x => match x with
                                                   | Some d => sliceItems d
                                                   | None => []
                                                   end) vs))).
Proof.
  induction vs as [|x vs IH]; intros acc r H; cbn [mergeLoop] in H.
  - injection H as <-. split; [constructor|]. cbn [map List.concat].
    now rewrite app_nil_r.
  - destruct x as [d|]; cbn [Reflect.IsValid negb] in H.
    + unfold Reflect.AppendSlice in H.
      destruct d; cbn [bind] in H; try discriminate.
      destruct (type_eqb e elem) eqn:Et; cbn [bind] in H; [|discriminate].
      apply type_eqb_eq in Et. subst elem.
      destruct (IH _ _ H) as [Hall ->]. split.
      * constructor; [|exact Hall]. intros d Hd. injection Hd as <-.
        eexists. reflexivity.
      * cbn [map List.concat sliceItems]. now rewrite app_assoc.
    + destruct (IH _ _ H) as [Hall ->]. split.
      * constructor; [intros d Hd; discriminate|exact Hall].
      * reflexivity.
Qed.

Lemma Append_stored (e : type) (acc : list val) (d : val) (r : Value) :
  Reflect.Append (Some (VSlice e acc)) (Some d) = Ok r ->
  r = Some (VSlice e (acc ++ [stored e d])).
Proof.
  unfold Reflect.Append, stored. destruct (assignable e (TypeOf d)); [|discriminate].
  destruct (kind_eqb (TypeKind e) KInterface).
  - destruct d; intros H; injection H as <-; reflexivity.
  - intros H. injection H as <-. reflexivity.
Qed.

Lemma mergeLoop_collect (e : type) (ds : list val) :
  forall acc r,
    mergeLoop false (map Some ds) (Some (VSlice e acc)) = Ok r ->
    r = Some (VSlice e (acc ++ map (stored e) ds)).
Proof.
  induction ds as [|d ds IH]; intros acc r H; cbn [map mergeLoop] in H.
  - injection H as <-. now rewrite app_nil_r.
  - cbn [Reflect.IsValid negb] in H.
    destruct (Reflect.Append (Some (VSlice e acc)) (Some d)) as [r'| | |] eqn:Ea;
      cbn [bind] in H; try discriminate.
    rewrite (Append_stored e acc d r' Ea) in H.
    rewrite (IH _ _ H), <- app_assoc. reflexivity.
Qed.

Lemma removeZeroValues_valid (values : list Value) :
  exists ds, removeZeroValues values = map Some ds.
Proof.
  induction values as [|[d|] values [ds IH]].
  - exists []. reflexivity.
  - exists (d :: ds). cbn [removeZeroValues filter Reflect.IsValid map].
    f_equal. exact IH.
  - exists ds. exact IH.
Qed.

End ResultFacts.

(** X2.  [getRealValue] returns a value that is neither a pointer nor an
    interface, and applying it again changes nothing. *)
Theorem getRealValue_strips (v : Value) :
  direct (getRealValue v)
  /\ getRealValue (getRealValue v) = getRealValue v.
Proof.
  assert (H : direct (getRealValue v)).
  { destruct v as [d|]; [apply realValueOf_direct|split; discriminate]. }
  split; [exact H|]. apply getRealValue_of_direct. exact H.
Qed.

(** X3.  Whenever [mergeValue] returns, it returns no error; it returns
    the zero Value exactly when no entry is valid; otherwise the result is
    decided by the valid entries [d :: ds] alone: when [d] is a slice or a
    map, [d] and every other valid entry are slices of one element type
    and the result is the slice of all their items in order; when it is
    not, the result is the slice of type [[]T], [T] the type of [d],
    holding every valid entry once, in order. *)
Theorem mergeValue_result (values : list Value) (r : Value) :
  mergeValue values = Ok r ->
  (r = None <-> removeZeroValues values = [])
  /\ (forall (d : val) (ds : list val),
        removeZeroValues values = map Some (d :: ds) ->
        (isMergeable (Some d) = true ->
         exists e,
           Forall (fun x => exists items, x = VSlice e items) (d :: ds)
           /\ r = Some (VSlice e (List.concat (map sliceItems (d :: ds)))))
        /\ (isMergeable (Some d) = false ->
            r = Some (VSlice (TypeOf d) (map (stored (TypeOf d)) (d :: ds))))).
Proof.
  intros H.
  assert (Hcases : forall d ds,
            removeZeroValues values = map Some (d :: ds) ->
            (isMergeable (Some d) = true ->
             exists e,
               Forall (fun x => exists items, x = VSlice e items) (d :: ds)
               /\ r = Some (VSlice e (List.concat (map sliceItems (d :: ds)))))
            /\ (isMergeable (Some d) = false ->
                r = Some (VSlice (TypeOf d) (map (stored (TypeOf d)) (d :: ds))))).
  { intros d ds Hvalid. unfold mergeValue in H. rewrite Hvalid in H.
    cbn [map Reflect.Type_ bind] in H. split; intros Hm; rewrite Hm in H.
    - destruct (TypeElem (TypeOf d)) as [e| | |] eqn:Ee; cbn [bind] in H;
        try discriminate.
      cbn [Reflect.SliceOf Reflect.MakeSlice bind] in H.
      change (Some d :: map Some ds) with (map Some (d :: ds)) in H.
      destruct (mergeLoop_flatten e _ _ _ H) as [Hall ->]. exists e.
      assert (Hall' : Forall (fun x => exists items, x = VSlice e items) (d :: ds)).
      { rewrite Forall_forall in *. intros x Hx.
        exact (Hall (Some x) (in_map Some _ _ Hx) x eq_refl). }
      split; [exact Hall'|]. rewrite map_map. reflexivity.
    - cbn [Reflect.SliceOf Reflect.MakeSlice bind] in H.
      change (Some d :: map Some ds) with (map Some (d :: ds)) in H.
      exact (mergeLoop_collect _ _ _ _ H). }
  split; [|exact Hcases].
  destruct (removeZeroValues_valid values) as [[|d ds] Hds].
  - split; [intros _; exact Hds|]. intros _.
    unfold mergeValue in H. rewrite Hds in H. injection H as <-. reflexivity.
  - split.
    + intros ->. destruct (Hcases d ds Hds) as [H1 H2].
      destruct (isMergeable (Some d)).
      * destruct (H1 eq_refl) as [e [_ He]]. discriminate.
      * specialize (H2 eq_refl). discriminate.
    + rewrite Hds. discriminate.
Qed.

Lemma mergeValue_result_witness :
  ((None : Value) = None <-> removeZeroValues [None; None] = [])
  /\ Some (VSlice TInterface [VInterface (Some (VInt 1)); VInterface None])
     = Some (VSlice TInterface
               (map (stored TInterface) [VInterface (Some (VInt 1)); VInterface None])).
Proof.
  split.
  - exact (proj1 (mergeValue_result [None; None] None eq_refl)).
  - exact (proj2 (proj2 (mergeValue_result
                           [Some (VInterface (Some (VInt 1))); None; Some (VInterface None)]
                           _ eq_refl)
                    (VInterface (Some (VInt 1))) [VInterface None] eq_refl) eq_refl).
Defined.

Section DriverResultFacts.

Variable rt : runtime.

Lemma mergeLoop_slice (mergeable : bool) (e : type) (vs : list Value) :
  forall acc r,
    mergeLoop mergeable vs (Some (VSlice e acc)) = Ok r ->
    exists items, r = Some (VSlice e items).
Proof.
  induction vs as [|x vs IH]; intros acc r H; cbn [mergeLoop] in H.
  - injection H as <-. eexists. reflexivity.
  - destruct (negb (Reflect.IsValid x)); [exact (IH _ _ H)|].
    destruct mergeable.
    + unfold Reflect.AppendSlice in H. destruct x as [[]|]; cbn [bind] in H;
        try discriminate.
      destruct (type_eqb e elem); cbn [bind] in H; [|discriminate].
      exact (IH _ _ H).
    + destruct x as [d|]; [|discriminate].
      destruct (Reflect.Append (Some (VSlice e acc)) (Some d)) as [r'| | |] eqn:Ea;
        cbn [bind] in H; try discriminate.
      rewrite (Append_stored e acc d r' Ea) in H. exact (IH _ _ H).
Qed.

Lemma mergeValue_direct (values : list Value) (r : Value) :
  mergeValue values = Ok r -> direct r.
Proof.
  unfold mergeValue. destruct (removeZeroValues values) as [|sample vs].
  - intros H. injection H as <-. split; discriminate.
  - destruct (Reflect.Type_ sample) as [t| | |]; cbn [bind]; try discriminate.
    destruct (if isMergeable sample then TypeElem t else Ok t) as [t'| | |];
      cbn [bind Reflect.SliceOf Reflect.MakeSlice]; try discriminate.
    intros H. destruct (mergeLoop_slice _ _ _ _ _ H) as [items ->].
    split; discriminate.
Qed.

Lemma aggregate_direct (rec : iface -> list string -> Options -> outcome Value)
    (v r : Value) (path : list string) (opts : Options) :
  aggreateAggregableValue rt rec v path opts = Ok r -> direct r.
Proof.
  unfold aggreateAggregableValue. destruct (Reflect.Len v =? 0).
  - destruct (Reflect.Type_ v) as [t| | |]; cbn [bind]; try discriminate.
    destruct (lookupType rt path t); [|discriminate].
    cbn [Reflect.SliceOf Reflect.MakeSlice]. intros H. injection H as <-.
    split; discriminate.
  - destruct (indexFunction rt v) as [elems| | |]; cbn [bind]; try discriminate.
    destruct (aggregateLoop rec elems path opts []) as [values| | |]; cbn [bind];
      try discriminate.
    apply mergeValue_direct.
Qed.

Lemma lookupLoop_direct (rec : iface -> list string -> Options -> outcome Value)
    (opts : Options) (path : list string) :
  forall (value r : Value),
    path <> [] ->
    lookupLoop rt rec value path opts = Ok r -> direct r.
Proof.
  induction path as [|part rest IH]; intros value r Hne H; [congruence|].
  cbn [lookupLoop] in H.
  destruct (debugPre opts (expanded rt opts value)); cbn [bind] in H;
    try discriminate.
  destruct (getValueByName rt (expanded rt opts value) part opts)
    as [value'| | |] eqn:Eg; try discriminate.
  - destruct rest as [|part' rest'].
    + cbn [lookupLoop] in H. injection H as <-.
      exact (getValueByName_direct_result rt _ _ _ _ Eg).
    + apply (IH value' r); [discriminate|exact H].
  - destruct (negb (isAggregable (expanded rt opts value))); [discriminate|].
    exact (aggregate_direct _ _ _ _ _ H).
Qed.

Lemma split_from_nonempty (sep s : string) :
  forall cur skip, GoString.split_from sep s cur skip <> [].
Proof.
  induction s as [|a s IH]; intros cur skip; cbn [GoString.split_from];
    [discriminate|].
  destruct skip; [|apply IH].
  destruct (prefix sep (String a s)); [discriminate|apply IH].
Qed.

Lemma Split_nonempty (s sep : string) :
  exists part rest, GoString.Split s sep = part :: rest.
Proof.
  unfold GoString.Split.
  destruct (GoString.split_from sep s EmptyString O) as [|part rest] eqn:E.
  - exfalso. exact (split_from_nonempty sep s _ _ E).
  - eauto.
Qed.

End DriverResultFacts.

(** X4.  With a path of at least one segment, what [lookup] returns
    without an error is the zero Value or a value that is neither a
    pointer nor an interface; and what [Lookup] returns without an error
    is never [nil], a pointer or an interface. *)
Theorem lookup_returns_direct (rt : runtime) (fuel : nat) (i : iface)
    (opts : Options) :
  (forall (part : string) (rest : list string) (r : Value),
     lookup rt fuel i (part :: rest) opts = Ok r -> direct r)
  /\ (forall (path : string) (x : iface),
        Lookup rt fuel i path opts = Ok x ->
        exists d, x = Some d /\ direct (Some d)).
Proof.
  assert (H1 : forall part rest r,
            lookup rt fuel i (part :: rest) opts = Ok r -> direct r).
  { intros part rest r H. destruct fuel as [|fuel]; [discriminate|].
    rewrite lookup_step in H.
    exact (lookupLoop_direct rt _ opts (part :: rest) _ r ltac:(discriminate) H). }
  split; [exact H1|].
  intros path x H. unfold Lookup in H.
  destruct (Split_nonempty path SplitToken) as [part [rest Hs]]. rewrite Hs in H.
  destruct (lookup rt fuel i (part :: rest) opts) as [v| | |] eqn:El;
    try discriminate.
  pose proof (H1 part rest v El) as Hd.
  destruct v as [d|]; [|discriminate].
  exists d. split; [|exact Hd].
  destruct Hd as [_ Hi]. destruct d; cbn [Reflect.Interface] in H;
    try (injection H as <-; reflexivity).
  cbn in Hi. congruence.
Qed.

Lemma lookup_returns_direct_witness :
  direct (Some (VString "foo"))
  /\ exists d, Some (VString "foo") = Some d /\ direct (Some d).
Proof.
  pose proof (lookup_returns_direct Fixtures.forward 3
                (Some (Fixtures.ref Fixtures.structFixture)) Fixtures.plain)
    as [H1 H2].
  split.
  - exact (H1 "Interface" [] (Some (VString "foo")) eq_refl).
  - exact (H2 "Interface" (Some (VString "foo")) eq_refl).
Defined.

(** ** Segments that fail on the value at hand *)

Section BroadcastFacts.

Variable rt : runtime.

Lemma getValueByName_parse_error (v : Value) (key : string) (opts : Options)
    (e : error) :
  parseIndex key = Err e -> getValueByName rt v key opts = Err e.
Proof.
  intros H. destruct v as [d|].
  - destruct d; cbn [getValueByName getValueByName_val]; rewrite H; reflexivity.
  - cbn [getValueByName]. unfold getValueByName_zero. rewrite H. reflexivity.
Qed.

Lemma getValueByName_slice (t : type) (items : list val) (key : string)
    (opts : Options) :
  (forall p, parseIndex key <> Panic p) ->
  exists e, getValueByName rt (Some (VSlice t items)) key opts = Err e.
Proof.
  intros Hp. cbn [getValueByName getValueByName_val].
  pose proof (getValueByName_terminates rt (Some (VSlice t items)) key opts) as Ht.
  cbn [getValueByName getValueByName_val] in Ht.
  destruct (parseIndex key) as [[nm idx]|e|p|]; cbn [bind fst snd switchValue] in *.
  - exists ErrKeyNotFound. reflexivity.
  - exists e. reflexivity.
  - exfalso. exact (Hp p eq_refl).
  - congruence.
Qed.

Lemma debugPre_valid (opts : Options) (d : val) : debugPre opts (Some d) = Ok tt.
Proof. unfold debugPre. destruct (ExpandStringAsJSON opts); reflexivity. Qed.

Lemma lookup_slice_step (fuel : nat) (t : type) (items : list val) (part : string)
    (rest : list string) (opts : Options) :
  (forall p, parseIndex part <> Panic p) ->
  lookup rt (S fuel) (Some (VSlice t items)) (part :: rest) opts
  = aggreateAggregableValue rt (lookup rt fuel) (Some (VSlice t items))
      (part :: rest) opts.
Proof.
  intros Hp. rewrite lookup_step.
  rewrite (expanded_not_string rt opts (VSlice t items)) by discriminate.
  cbn [lookupLoop].
  rewrite (expanded_not_string rt opts (VSlice t items)) by discriminate.
  rewrite debugPre_valid. cbn [bind].
  destruct (getValueByName_slice t items part opts Hp) as [e ->]. reflexivity.
Qed.

End BroadcastFacts.

(** X5.  A slice is never searched or indexed itself: for every segment
    that [parseIndex] does not panic on, indexed or not, malformed or not,
    [lookup] on a slice hands the whole remaining path to the aggregator,
    which applies it to the elements. *)
Theorem slice_always_broadcasts (rt : runtime) (fuel : nat) (t : type)
    (items : list val) (part : string) (rest : list string) (opts : Options) :
  (forall p, parseIndex part <> Panic p) ->
  lookup rt (S fuel) (Some (VSlice t items)) (part :: rest) opts
  = aggreateAggregableValue rt (lookup rt fuel) (Some (VSlice t items))
      (part :: rest) opts.
Proof.
  intros Hp. rewrite lookup_step.
  rewrite (expanded_not_string rt opts (VSlice t items)) by discriminate.
  cbn [lookupLoop].
  rewrite (expanded_not_string rt opts (VSlice t items)) by discriminate.
  rewrite debugPre_valid. cbn [bind].
  destruct (getValueByName_slice rt t items part opts Hp) as [e ->]. reflexivity.
Qed.

Lemma slice_always_broadcasts_witness :
  lookup Fixtures.forward 2
    (Some (VSlice TInt [VInt 1; VInt 2])) ["[0]"] Fixtures.plain
  = aggreateAggregableValue Fixtures.forward (lookup Fixtures.forward 1)
      (Some (VSlice TInt [VInt 1; VInt 2])) ["[0]"] Fixtures.plain
  /\ lookup Fixtures.forward 2
       (Some (VSlice TInt [VInt 1; VInt 2])) ["[0]"] Fixtures.plain
     = Err ErrKeyNotFound.
Proof.
  split; [|reflexivity].
  apply (slice_always_broadcasts Fixtures.forward 1 TInt [VInt 1; VInt 2] "[0]" []
           Fixtures.plain).
  intros p H. discriminate H.
Defined.

(** X6.  On an empty slice a first segment that holds ['['] is never
    looked up.  When [parseIndex] panics on it (its first [']'] stands
    before its first ['['], as in ["a]b["]) [lookup] panics likewise.
    Otherwise the segment is dropped unread, whether it parses or is
    malformed: the result is the empty slice of the type that
    [lookupType] finds for the rest of the path from the element type, so
    for a path of that one segment it is the empty slice of the element
    type and no error. *)
Theorem empty_slice_drops_bracketed_segment (rt : runtime) (fuel : nat) (t : type)
    (part : string) (rest : list string) (opts : Options) :
  hasIndex part = true ->
  (forall p, parseIndex part = Panic p ->
     lookup rt (S fuel) (Some (VSlice t [])) (part :: rest) opts = Panic p)
  /\ ((forall p, parseIndex part <> Panic p) ->
      lookup rt (S fuel) (Some (VSlice t [])) (part :: rest) opts
      = match lookupType rt rest t with
        | Some ty => Ok (Some (VSlice ty []))
        | None => Err ErrKeyNotFound
        end
      /\ lookup rt (S fuel) (Some (VSlice t [])) [part] opts
         = Ok (Some (VSlice t []))).
Proof.
  intros Hidx. split.
  - intros p Hparse. rewrite lookup_step.
    rewrite (expanded_not_string rt opts (VSlice t [])) by discriminate.
    cbn [lookupLoop].
    rewrite (expanded_not_string rt opts (VSlice t [])) by discriminate.
    rewrite debugPre_valid. cbn [bind getValueByName getValueByName_val].
    rewrite Hparse. reflexivity.
  - intros Hp.
    assert (H : forall rest',
              lookup rt (S fuel) (Some (VSlice t [])) (part :: rest') opts
              = match lookupType rt rest' t with
                | Some ty => Ok (Some (VSlice ty []))
                | None => Err ErrKeyNotFound
                end).
    { intros rest'. rewrite (lookup_slice_step rt fuel t [] part rest' opts Hp).
      rewrite aggregate_empty by reflexivity.
      cbn [TypeOf lookupType]. rewrite Hidx. reflexivity. }
    split; [apply H|]. rewrite H. destruct t; reflexivity.
Qed.

Lemma empty_slice_drops_bracketed_segment_witness :
  Lookup Fixtures.forward 1 (Some (VSlice Fixtures.MyStruct [])) "String["
    Fixtures.plain = Ok (Some (VSlice Fixtures.MyStruct []))
  /\ lookup Fixtures.forward 1 (Some (VSlice Fixtures.MyStruct [])) ["Missing[0]"; "String"]
       Fixtures.plain = Ok (Some (VSlice TString []))
  /\ lookup Fixtures.forward 1 (Some (VSlice Fixtures.MyStruct [])) ["a]b["]
       Fixtures.plain = Panic SliceBoundsOutOfRange.
Proof.
  split; [|split].
  - unfold Lookup. change (GoString.Split "String[" SplitToken) with ["String["].
    rewrite (proj2 (proj2 (empty_slice_drops_bracketed_segment Fixtures.forward 0
                             Fixtures.MyStruct "String[" [] Fixtures.plain eq_refl)
                      ltac:(intros p H; discriminate H))).
    reflexivity.
  - apply (proj1 (proj2 (empty_slice_drops_bracketed_segment Fixtures.forward 0
                           Fixtures.MyStruct "Missing[0]" ["String"] Fixtures.plain
                           eq_refl)
                    ltac:(intros p H; discriminate H))).
  - apply (proj1 (empty_slice_drops_bracketed_segment Fixtures.forward 0
                    Fixtures.MyStruct "a]b[" [] Fixtures.plain eq_refl)).
    reflexivity.
Defined.

Section MalformedFacts.

Variable rt : runtime.

Hypothesis order_permutes : forall entries, Permutation (MapOrder rt entries) entries.

Lemma MapIndex_of_member (entries : list (string * val)) (k : string) :
  In k (map fst entries) -> Reflect.MapIndex entries k <> None.
Proof.
  induction entries as [|[k' d] entries IH]; cbn [map fst In Reflect.MapIndex];
    [intros []|].
  intros [->|H].
  - rewrite String.eqb_refl. discriminate.
  - destruct (String.eqb k' k); [discriminate|exact (IH H)].
Qed.

(** The first element of a collection that is not empty. *)
Lemma indexFunction_first (v : Value) :
  isAggregable v = true ->
  (Reflect.Len v =? 0) = false ->
  exists d elems, indexFunction rt v = Ok (Some d :: elems).
Proof.
  intros Hagg Hlen. destruct v as [[]|]; try (cbn in Hagg; discriminate).
  - destruct items as [|x items]; [discriminate|].
    exists x, (map Some items). reflexivity.
  - cbn [indexFunction].
    destruct entries as [|kv entries]; [discriminate|].
    pose proof (order_permutes (kv :: entries)) as P.
    destruct (MapOrder rt (kv :: entries)) as [|[k x] ordered] eqn:Eo.
    + apply Permutation_nil in P. discriminate.
    + cbn [map fst].
      assert (Hin : In k (map fst (kv :: entries))).
      { apply (Permutation_in _ (Permutation_map fst P)). left. reflexivity. }
      destruct (Reflect.MapIndex (kv :: entries) k) as [d|] eqn:Ed.
      * eauto.
      * exfalso. exact (MapIndex_of_member _ _ Hin Ed).
Qed.

End MalformedFacts.

(** X7.  With [ExpandStringAsJSON] unset and an input in which no slice
    and no map is empty, a first segment that [parseIndex] rejects makes
    [lookup] return that error, however the input is nested: every
    broadcast of the path to the elements meets the same error at its
    first element. *)
Theorem malformed_segment_is_reported (rt : runtime) (opts : Options)
    (part : string) (rest : list string) (e : error) (fuel : nat) (i : iface) :
  (forall entries, Permutation (MapOrder rt entries) entries) ->
  ExpandStringAsJSON opts = false ->
  parseIndex part = Err e ->
  inhabitedValue i = true ->
  (depthOf i < fuel)%nat ->
  lookup rt fuel i (part :: rest) opts = Err e.
Proof.
  intros Hperm Hopt Hparse. revert i.
  induction fuel as [|fuel IH]; intros i Hi Hfuel; [lia|].
  rewrite lookup_step.
  assert (Hexp : forall v, expanded rt opts v = v).
  { intros v. unfold expanded. rewrite Hopt. reflexivity. }
  rewrite Hexp. cbn [lookupLoop]. rewrite Hexp. unfold debugPre. rewrite Hopt.
  cbn [bind]. rewrite (getValueByName_parse_error rt i part opts e Hparse).
  destruct (isAggregable i) eqn:Eagg; [|reflexivity]. cbn [negb].
  unfold aggreateAggregableValue.
  pose proof (inhabited_Len i Eagg Hi) as Hlen. rewrite Hlen.
  destruct (indexFunction_first rt Hperm i Eagg Hlen) as [d [elems Hidx]].
  rewrite Hidx. cbn [bind aggregateLoop].
  pose proof (inhabited_indexFunction rt i _ Hi Hidx) as Hin.
  pose proof (depth_indexFunction rt i _ Hidx) as Hd.
  apply Forall_inv in Hin. apply Forall_inv in Hd.
  destruct (Reflect.Interface (Some d)) as [j| | |] eqn:Ej;
    try (destruct d; discriminate).
  cbn [bind].
  rewrite (IH j (inhabited_Interface _ _ Hin Ej)).
  - reflexivity.
  - pose proof (depth_Interface _ _ Ej). lia.
Qed.

Lemma malformed_segment_is_reported_witness :
  lookup Fixtures.forward 5 (Some Fixtures.series) ["Cast["; "Role"] Fixtures.plain
  = Err ErrMalformedIndex.
Proof.
  apply (malformed_segment_is_reported Fixtures.forward Fixtures.plain "Cast[" ["Role"]
           ErrMalformedIndex 5 (Some Fixtures.series)).
  - intros entries. apply Permutation_refl.
  - reflexivity.
  - reflexivity.
  - reflexivity.
  - vm_compute. lia.
Defined.

(** ** How the steps of the driver compose *)

Section CompositionFacts.

Variable rt : runtime.

Lemma getValueByName_ok_valid (v v' : Value) (key : string) (opts : Options) :
  getValueByName rt v key opts = Ok v' -> exists d, v = Some d.
Proof.
  destruct v as [d|]; [eauto|].
  intros H. exfalso. exact (getValueByName_zero_fails _ _ H).
Qed.

Lemma lookupLoop_expanded (rec : iface -> list string -> Options -> outcome Value)
    (opts : Options) (value : Value) (path : list string) :
  lookupLoop rt rec (expanded rt opts value) path opts
  = match path with
    | [] => Ok (expanded rt opts value)
    | _ => lookupLoop rt rec value path opts
    end.
Proof.
  destruct path as [|part rest]; [reflexivity|].
  cbn [lookupLoop]. rewrite expanded_idem. reflexivity.
Qed.

Lemma lookup_one_step (fuel : nat) (i : iface) (v' : Value) (part : string)
    (rest : list string) (opts : Options) :
  getValueByName rt (expanded rt opts i) part opts = Ok v' ->
  lookup rt (S fuel) i (part :: rest) opts
  = match rest with
    | [] => Ok v'
    | _ => lookup rt (S fuel) v' rest opts
    end.
Proof.
  intros H. rewrite lookup_step. cbn [lookupLoop]. rewrite expanded_idem, H.
  destruct (getValueByName_ok_valid _ _ _ _ H) as [d ->].
  rewrite debugPre_valid. cbn [bind].
  destruct rest as [|part' rest']; [reflexivity|].
  rewrite lookup_step, lookupLoop_expanded. reflexivity.
Qed.

Lemma aggregateLoop_results (rec : iface -> list string -> Options -> outcome Value)
    (path : list string) (opts : Options) (elems : list Value) :
  forall acc values,
    aggregateLoop rec elems path opts acc = Ok values <->
    exists results,
      Forall2 (fun e r => (i <- Reflect.Interface e ;; rec i path opts) = Ok r)
        elems results
      /\ values = acc ++ results.
Proof.
  induction elems as [|e elems IH]; intros acc values; cbn [aggregateLoop].
  - split.
    + intros H. injection H as <-. exists []. split; [constructor|].
      now rewrite app_nil_r.
    + intros [results [HF ->]]. inversion HF. now rewrite app_nil_r.
  - split.
    + intros H.
      destruct (Reflect.Interface e) as [i| | |] eqn:Ei; cbn [bind] in H;
        try discriminate.
      destruct (rec i path opts) as [r| | |] eqn:Er; cbn [bind] in H;
        try discriminate.
      apply IH in H as [results [HF ->]]. exists (r :: results). split.
      * constructor; [|exact HF]. rewrite Ei. cbn [bind]. exact Er.
      * rewrite <- app_assoc. reflexivity.
    + intros [results [HF ->]]. inversion HF as [|e' r elems' results' Hr HF' E1 E2].
      subst.
      destruct (Reflect.Interface e) as [i| | |]; cbn [bind] in Hr |- *;
        try discriminate.
      rewrite Hr. cbn [bind].
      apply IH. exists results'. split; [exact HF'|].
      rewrite <- app_assoc. reflexivity.
Qed.

End CompositionFacts.

(** X8.  Over a collection that is not empty the aggregation returns a
    value exactly when the lookup on every element returns one, and that
    value is the merge of the per-element results, one per element, in
    the order of the elements. *)
Theorem aggregation_merges_results (rt : runtime) (fuel : nat) (v : Value)
    (path : list string) (opts : Options) (elems : list Value) (r : Value) :
  Reflect.Len v <> 0 ->
  indexFunction rt v = Ok elems ->
  (aggreateAggregableValue rt (lookup rt fuel) v path opts = Ok r <->
   exists results,
     Forall2 (fun e x => (i <- Reflect.Interface e ;; lookup rt fuel i path opts) = Ok x)
       elems results
     /\ mergeValue results = Ok r).
Proof.
  intros Hlen Hidx. apply Z.eqb_neq in Hlen.
  unfold aggreateAggregableValue. rewrite Hlen, Hidx. cbn [bind].
  pose proof (aggregateLoop_results (lookup rt fuel) path opts elems []) as Hloop.
  split.
  - intros H.
    destruct (aggregateLoop (lookup rt fuel) elems path opts []) as [values| | |];
      cbn [bind] in H; try discriminate.
    destruct (proj1 (Hloop values) eq_refl) as [results [HF ->]].
    exists results. split; [exact HF|exact H].
  - intros [results [HF Hm]].
    rewrite (proj2 (Hloop results) (ex_intro _ results (conj HF eq_refl))).
    exact Hm.
Qed.

Lemma aggregation_merges_results_witness :
  aggreateAggregableValue Fixtures.forward (lookup Fixtures.forward 1)
    (Some (VSlice (TStruct "Cast")
             [Fixtures.cast "a" "Hannibal"; Fixtures.cast "b" "Murdock"]))
    ["Role"] Fixtures.plain
  = Ok (Some (VSlice TString [VString "Hannibal"; VString "Murdock"])).
Proof.
  apply (proj2 (aggregation_merges_results Fixtures.forward 1
                  (Some (VSlice (TStruct "Cast")
                           [Fixtures.cast "a" "Hannibal"; Fixtures.cast "b" "Murdock"]))
                  ["Role"] Fixtures.plain
                  [Some (Fixtures.cast "a" "Hannibal"); Some (Fixtures.cast "b" "Murdock")]
                  _ ltac:(discriminate) eq_refl)).
  exists [Some (VString "Hannibal"); Some (VString "Murdock")]. split.
  - repeat constructor.
  - reflexivity.
Defined.

(** X9.  The walk composes: when the segments of [before] resolve one
    after the other without an error, [lookup] on [before ++ after]
    returns what [lookup] on [after] returns from the value reached (that
    value itself when [after] is empty). *)
Theorem lookup_composes (rt : runtime) (fuel : nat) (opts : Options)
    (before after : list string) :
  before <> [] ->
  forall (i : iface) (v' : Value),
    resolveAll rt opts i before = Ok v' ->
    lookup rt (S fuel) i (before ++ after) opts
    = match after with
      | [] => Ok v'
      | _ => lookup rt (S fuel) v' after opts
      end.
Proof.
  induction before as [|part before IH]; intros Hne i v' H; [congruence|].
  cbn [resolveAll] in H.
  destruct (getValueByName rt (expanded rt opts i) part opts) as [v1| | |] eqn:Eg;
    cbn [bind] in H; try discriminate.
  cbn [app]. rewrite (lookup_one_step rt fuel i v1 part (before ++ after) opts Eg).
  destruct before as [|part' before'].
  - cbn [resolveAll] in H. injection H as <-. cbn [app].
    destruct after; reflexivity.
  - cbn [app]. exact (IH ltac:(discriminate) v1 v' H).
Qed.

Lemma lookup_composes_witness :
  lookup Fixtures.forward 3 (Some Fixtures.series) (["A-Team"; "Cast[1]"] ++ ["Role"])
    Fixtures.plain
  = lookup Fixtures.forward 3 (Some (Fixtures.cast "Dwight Schultz" "Murdock")) ["Role"]
      Fixtures.plain.
Proof.
  apply (lookup_composes Fixtures.forward 2 Fixtures.plain ["A-Team"; "Cast[1]"] ["Role"]
           ltac:(discriminate) (Some Fixtures.series)
           (Some (Fixtures.cast "Dwight Schultz" "Murdock"))).
  reflexivity.
Defined.

(** X10.  An exact match has priority: when the struct has a field, or the
    map a key, that equals the name of the segment, the resolution of the
    segment does not depend on the options; the match under case folding
    is tried only after the exact one failed. *)
Theorem exact_match_has_priority (rt : runtime) (d : val) (key name : string)
    (index : Z) (opts1 opts2 : Options) :
  parseIndex key = Ok (name, index) ->
  (exists n fields, d = VStruct n fields /\ Reflect.FieldByName fields name <> None)
  \/ (exists kt et entries,
        d = VMap kt et entries /\ Reflect.MapIndex entries name <> None) ->
  getValueByName rt (Some d) key opts1 = getValueByName rt (Some d) key opts2.
Proof.
  intros Hparse [[n [fields [-> Hf]]]|[kt [et [entries [-> Hm]]]]];
    cbn [getValueByName getValueByName_val]; rewrite Hparse;
    cbn [bind fst snd switchValue].
  - unfold structCase.
    destruct (Reflect.FieldByName fields name) as [x|]; [|congruence].
    rewrite Kind_valid, !andb_false_r. reflexivity.
  - unfold mapCase. destruct (negb (kind_eqb (TypeKind kt) KString)); [reflexivity|].
    destruct (Reflect.MapIndex entries name) as [x|]; [|congruence].
    rewrite Kind_valid, !andb_false_r. reflexivity.
Qed.

Lemma exact_match_has_priority_witness :
  getValueByName Fixtures.forward (Some Fixtures.caseFixtureStruct) "Testfield"
    Fixtures.folding
  = getValueByName Fixtures.forward (Some Fixtures.caseFixtureStruct) "Testfield"
      Fixtures.plain.
Proof.
  apply (exact_match_has_priority Fixtures.forward Fixtures.caseFixtureStruct
           "Testfield" "Testfield" (-1) Fixtures.folding Fixtures.plain eq_refl).
  left. eexists. eexists. split; [reflexivity|]. discriminate.
Defined.

(** X11.  On a [nil] input the first segment decides: with
    [ExpandStringAsJSON] set the debugging call evaluates [value.Type()]
    on the zero Value and [Lookup] panics whatever the path; with the
    option unset [Lookup] returns [ErrKeyNotFound] when the first segment
    parses and the error of [parseIndex] when it does not. *)
Theorem lookup_on_nil (rt : runtime) (fuel : nat) (path : string) (opts : Options) :
  (ExpandStringAsJSON opts = true ->
   Lookup rt (S fuel) None path opts = Panic CallOnZeroValue)
  /\ (ExpandStringAsJSON opts = false ->
      forall (part : string) (rest : list string),
        GoString.Split path SplitToken = part :: rest ->
        Lookup rt (S fuel) None path opts
        = match parseIndex part with
          | Ok _ => Err ErrKeyNotFound
          | Err e => Err e
          | Panic p => Panic p
          | OutOfFuel => OutOfFuel
          end).
Proof.
  split.
  - intros Hopt. unfold Lookup.
    destruct (Split_nonempty path SplitToken) as [part [rest ->]].
    rewrite lookup_step. unfold expanded. rewrite Hopt.
    cbn [expandStringAsJSON lookupLoop]. unfold expanded, debugPre. rewrite Hopt.
    reflexivity.
  - intros Hopt part rest Hs. unfold Lookup. rewrite Hs, lookup_step.
    unfold expanded. rewrite Hopt. cbn [lookupLoop]. unfold expanded, debugPre.
    rewrite Hopt. cbn [bind getValueByName]. unfold getValueByName_zero.
    destruct (parseIndex part) as [[nm idx]| | |]; reflexivity.
Qed.

Lemma lookup_on_nil_witness :
  Lookup Fixtures.forward 1 None "a.b"
    {| ExpandStringAsJSON := true; CaseInsentitive := false |}
  = Panic CallOnZeroValue
  /\ Lookup Fixtures.forward 1 None "a.b" Fixtures.plain = Err ErrKeyNotFound.
Proof.
  pose proof (lookup_on_nil Fixtures.forward 0 "a.b"
                {| ExpandStringAsJSON := true; CaseInsentitive := false |}) as [H1 _].
  pose proof (lookup_on_nil Fixtures.forward 0 "a.b" Fixtures.plain) as [_ H2].
  split; [exact (H1 eq_refl)|exact (H2 eq_refl "a" ["b"] eq_refl)].
Defined.

(** ** Maps whose keys are not strings *)

(** C10 (counterexample).  On a map with [int] keys a segment that
    [parseIndex] rejects never reaches the probe key: [Lookup] returns
    [ErrMalformedIndex], and on the empty map of that type it returns an
    empty slice; neither call panics. *)
Lemma map_key_must_be_string_counterexample :
  TypeKind TInt <> KString
  /\ Lookup Fixtures.forward 2 (Some (VMap TInt TString [("1", VString "one")])) "1["
       Fixtures.plain = Err ErrMalformedIndex
  /\ Lookup Fixtures.forward 2 (Some (VMap TInt TString [])) "1["
       Fixtures.plain = Ok (Some (VSlice TString [])).
Proof. split; [discriminate|split; reflexivity]. Qed.

(** C10 (amended).  On a map the probe key is set with [SetString].  A
    segment that [parseIndex] rejects returns the error of [parseIndex]
    before the map is touched, whatever the key type.  For a segment that
    parses and a map whose key type is not of kind [String], the
    resolution panics, on the map itself and behind pointers and
    interfaces, and [Lookup] panics when the walk brings that segment to
    such a map: at the root, after segments that resolved without error,
    or in the first element of a slice.  When the kind is [String] (a
    defined string type included) the resolution of a segment without
    index returns a value or fails with [ErrKeyNotFound]. *)
Theorem map_key_must_be_string (rt : runtime) (kt et : type)
    (entries : list (string * val)) (opts : Options) :
  (forall (key : string) (e : error),
     parseIndex key = Err e ->
     getValueByName rt (Some (VMap kt et entries)) key opts = Err e)
  /\ (TypeKind kt <> KString ->
      forall (key name : string) (index : Z),
        parseIndex key = Ok (name, index) ->
        (forall d : val,
           getRealValue (Some d) = Some (VMap kt et entries) ->
           getValueByName rt (Some d) key opts = Panic SetStringOnNonString)
        /\ (forall (fuel : nat) (i : iface) (path : string)
                   (before rest : list string) (d : val),
              GoString.Split path SplitToken = before ++ key :: rest ->
              resolveAll rt opts i before = Ok (Some d) ->
              getRealValue (Some d) = Some (VMap kt et entries) ->
              Lookup rt (S fuel) i path opts = Panic SetStringOnNonString)
        /\ (forall (fuel : nat) (t : type) (d : val) (items : list val)
                   (path : string) (rest : list string),
              GoString.Split path SplitToken = key :: rest ->
              getRealValue (Some d) = Some (VMap kt et entries) ->
              Lookup rt (S (S fuel)) (Some (VSlice t (d :: items))) path opts
              = Panic SetStringOnNonString))
  /\ (TypeKind kt = KString ->
      forall key name : string,
        parseIndex key = Ok (name, -1) ->
        (exists value,
           getValueByName rt (Some (VMap kt et entries)) key opts = Ok value)
        \/ getValueByName rt (Some (VMap kt et entries)) key opts
           = Err ErrKeyNotFound).
Proof.
  split; [|split].
  - intros key e Hparse. cbn [getValueByName getValueByName_val].
    rewrite Hparse. reflexivity.
  - intros Hk key name index Hparse.
    assert (Hprobe : forall (d : val) (key name : string) (index : Z),
              parseIndex key = Ok (name, index) ->
              getRealValue (Some d) = Some (VMap kt et entries) ->
              getValueByName rt (Some d) key opts = Panic SetStringOnNonString).
    { clear key name index Hparse.
      induction d as [d IH] using val_indirection_ind.
      intros key name index Hparse Hreal.
      pose proof (proj1 (parseIndex_name_again name index key Hparse)) as Hname.
      destruct d; cbn [getRealValue realValueOf] in Hreal; try discriminate;
        cbn [getValueByName getValueByName_val]; rewrite Hparse;
        cbn [bind fst snd].
      - destruct dyn as [d'|]; [|discriminate].
        exact (IH d' (or_intror eq_refl) name name (-1) Hname Hreal).
      - destruct target as [d'|]; [|discriminate].
        exact (IH d' (or_introl (ex_intro _ elem eq_refl)) name name (-1) Hname Hreal).
      - injection Hreal as -> -> ->. cbn [switchValue]. unfold mapCase.
        apply kind_eqb_neq in Hk. rewrite Hk. reflexivity. }
    assert (Hroot : forall (fuel : nat) (d : val) (rest : list string),
              getRealValue (Some d) = Some (VMap kt et entries) ->
              lookup rt (S fuel) (Some d) (key :: rest) opts
              = Panic SetStringOnNonString).
    { intros fuel d rest Hreal. rewrite lookup_step.
      assert (Hd : expanded rt opts (Some d) = Some d).
      { apply expanded_not_string. destruct d; discriminate. }
      rewrite Hd. cbn [lookupLoop]. rewrite Hd, debugPre_valid. cbn [bind].
      rewrite (Hprobe d key name index Hparse Hreal). reflexivity. }
    split; [|split].
    + intros d Hreal. exact (Hprobe d key name index Hparse Hreal).
    + intros fuel i path before rest d Hsplit Hres Hreal.
      unfold Lookup. rewrite Hsplit. clear Hsplit.
      assert (Hwalk : lookup rt (S fuel) i (before ++ key :: rest) opts
                      = Panic SetStringOnNonString).
      { revert i Hres. induction before as [|part before IH]; intros i Hres.
        - cbn [resolveAll] in Hres. injection Hres as ->.
          exact (Hroot fuel d rest Hreal).
        - cbn [resolveAll] in Hres.
          destruct (getValueByName rt (expanded rt opts i) part opts) as [v1| | |] eqn:Eg;
            cbn [bind] in Hres; try discriminate.
          cbn [app].
          rewrite (lookup_one_step rt fuel i v1 part (before ++ key :: rest) opts Eg).
          specialize (IH v1 Hres).
          destruct (before ++ key :: rest) eqn:Ea;
            [destruct before; discriminate|exact IH]. }
      rewrite Hwalk. reflexivity.
    + intros fuel t d items path rest Hsplit Hreal.
      unfold Lookup. rewrite Hsplit.
      rewrite (lookup_slice_step rt (S fuel) t (d :: items) key rest opts)
        by (intros p Hp; congruence).
      unfold aggreateAggregableValue.
      cbn [Reflect.Len List.length indexFunction map bind aggregateLoop].
      destruct (Z.of_nat (S (List.length items)) =? 0) eqn:El;
        [apply Z.eqb_eq in El; lia|].
      cbn [bind aggregateLoop].
      assert (Hi : exists d', Reflect.Interface (Some d) = Ok (Some d')
                              /\ getRealValue (Some d') = Some (VMap kt et entries)).
      { destruct d; cbn [getRealValue realValueOf] in Hreal; try discriminate.
        - destruct dyn as [d'|]; [|discriminate]. exists d'. split; [reflexivity|exact Hreal].
        - eexists. split; [reflexivity|exact Hreal].
        - eexists. split; [reflexivity|exact Hreal]. }
      destruct Hi as [d' [-> Hreal']]. cbn [bind].
      rewrite (Hroot fuel d' rest Hreal'). reflexivity.
  - intros Hk key name Hparse. cbn [getValueByName getValueByName_val]. rewrite Hparse.
    cbn [bind fst snd switchValue]. unfold mapCase.
    apply kind_eqb_eq in Hk. rewrite Hk. cbn [negb].
    match goal with
    | |- context [bind (if ?c then _ else _) _] => destruct c
    end.
    + destruct (find _ _) as [[k x]|]; cbn [bind]; rewrite afterSwitch_no_index;
        match goal with
        | |- context [Reflect.IsValid ?v] => destruct (Reflect.IsValid v)
        end; eauto.
    + cbn [bind]. rewrite afterSwitch_no_index.
      destruct (Reflect.IsValid _); eauto.
Qed.

Lemma map_key_must_be_string_witness :
  getValueByName Fixtures.forward (Some (VMap TInt TString [("1", VString "one")]))
    "1[" Fixtures.plain = Err ErrMalformedIndex
  /\ getValueByName Fixtures.forward
       (Some (VPtr (TMap TInt TString) (Some (VMap TInt TString [("1", VString "one")]))))
       "1" Fixtures.plain = Panic SetStringOnNonString
  /\ Lookup Fixtures.forward 1
       (Some (VStruct "T" [("Codes", VMap TInt TString [("1", VString "one")])]))
       "Codes.1" Fixtures.plain = Panic SetStringOnNonString
  /\ Lookup Fixtures.forward 2
       (Some (VSlice (TMap TInt TString) [VMap TInt TString [("1", VString "one")]]))
       "1" Fixtures.plain = Panic SetStringOnNonString
  /\ ((exists value, getValueByName Fixtures.forward (Some Fixtures.mapFixtureNamed)
                       "foo" Fixtures.plain = Ok value)
      \/ getValueByName Fixtures.forward (Some Fixtures.mapFixtureNamed)
           "foo" Fixtures.plain = Err ErrKeyNotFound).
Proof.
  pose proof (map_key_must_be_string Fixtures.forward TInt TString
                [("1", VString "one")] Fixtures.plain) as [H1 [H2 _]].
  pose proof (map_key_must_be_string Fixtures.forward (TNamed "MyKey" TString) TInt
                [("foo", VInt 42)] Fixtures.plain) as [_ [_ H3]].
  specialize (H2 ltac:(discriminate) "1" "1" (-1) eq_refl).
  destruct H2 as [H2a [H2b H2c]].
  split; [|split; [|split; [|split]]].
  - apply H1. reflexivity.
  - apply H2a. reflexivity.
  - apply (H2b O _ "Codes.1" ["Codes"] [] (VMap TInt TString [("1", VString "one")]));
      reflexivity.
  - apply (H2c O (TMap TInt TString) (VMap TInt TString [("1", VString "one")]) []
             "1" []); reflexivity.
  - apply (H3 eq_refl "foo" "foo"). reflexivity.
Defined.

Section BudgetFacts.

Variable rt : runtime.

Lemma lookup_fuel_mono_le (fuel fuel' : nat) (i : iface) (path : list string)
    (opts : Options) (r : outcome Value) :
  (fuel <= fuel')%nat ->
  lookup rt fuel i path opts = r -> r <> OutOfFuel ->
  lookup rt fuel' i path opts = r.
Proof.
  intros Hle H Hr. induction Hle as [|fuel' _ IH]; [exact H|].
  exact (lookup_fuel_mono rt fuel' i path opts r IH Hr).
Qed.

End BudgetFacts.

(** X12.  With [ExpandStringAsJSON] unset the recursion of [lookup]
    through the aggregator is bounded by the nesting depth of the input:
    with any budget above that depth the call comes to an end, and two
    such budgets give the same result. *)
Theorem lookup_budget_is_irrelevant (rt : runtime) (opts : Options)
    (fuel1 fuel2 : nat) (i : iface) (path : list string) :
  ExpandStringAsJSON opts = false ->
  (depthOf i < fuel1)%nat ->
  (depthOf i < fuel2)%nat ->
  lookup rt fuel1 i path opts <> OutOfFuel
  /\ lookup rt fuel1 i path opts = lookup rt fuel2 i path opts.
Proof.
  intros Hopt H1 H2.
  pose proof (lookup_terminates rt opts fuel1 Hopt i path H1) as T1.
  pose proof (lookup_terminates rt opts fuel2 Hopt i path H2) as T2.
  split; [exact T1|].
  destruct (Nat.le_ge_cases fuel1 fuel2) as [Hle|Hle].
  - symmetry. exact (lookup_fuel_mono_le rt fuel1 fuel2 i path opts _ Hle eq_refl T1).
  - exact (lookup_fuel_mono_le rt fuel2 fuel1 i path opts _ Hle eq_refl T2).
Qed.

Lemma lookup_budget_is_irrelevant_witness :
  lookup Fixtures.forward 9 (Some Fixtures.structFixture)
    ["StructSlice"; "StructSlice"; "String"] Fixtures.plain <> OutOfFuel
  /\ lookup Fixtures.forward 9 (Some Fixtures.structFixture)
       ["StructSlice"; "StructSlice"; "String"] Fixtures.plain
     = lookup Fixtures.forward 12 (Some Fixtures.structFixture)
         ["StructSlice"; "StructSlice"; "String"] Fixtures.plain.
Proof.
  apply (lookup_budget_is_irrelevant Fixtures.forward Fixtures.plain 9 12
           (Some Fixtures.structFixture)).
  - reflexivity.
  - vm_compute. lia.
  - vm_compute. lia.
Defined.

(** ** The later revision *)

Section LaterFacts.

Variable rt : runtime.

Lemma compareWithMatchFunc_spec (fs : list Later.MatchFunc) (a b : string) :
  Later.compareWithMatchFunc fs a b = true <-> exists f, In f fs /\ f a = f b.
Proof.
  induction fs as [|f fs IH]; cbn [Later.compareWithMatchFunc].
  - split; [discriminate|intros [f [[] _]]].
  - destruct (String.eqb (f a) (f b)) eqn:E.
    + apply String.eqb_eq in E. split; [|reflexivity].
      intros _. exists f. split; [left; reflexivity|exact E].
    + apply String.eqb_neq in E. rewrite IH. split.
      * intros [g [Hg Hab]]. exists g. split; [right; exact Hg|exact Hab].
      * intros [g [[<-|Hg] Hab]]; [contradiction|]. exists g. split; assumption.
Qed.

Lemma ContainsAny_brackets (s : string) :
  Later.ContainsAny s (Later.indexOpenChar ++ Later.indexCloseChar)
  = GoString.occurs "[" s || GoString.occurs "]" s.
Proof. cbn. now rewrite orb_false_r. Qed.

Lemma hasIndex_occurs (s : string) : hasIndex s = GoString.occurs "[" s.
Proof.
  unfold hasIndex, IndexOpenChar.
  pose proof (Index_byte_absent "[" s) as H.
  destruct (GoString.occurs "[" s); destruct (GoString.Index s "[" =? -1) eqn:E;
    try reflexivity.
  - apply Z.eqb_eq in E. apply H in E. discriminate.
  - apply Z.eqb_neq in E. exfalso. apply E, H. reflexivity.
Qed.

Lemma lookupType_cons (part : string) (rest : list string) (t : type) :
  lookupType rt (part :: rest) t =
  match t with
  | TSlice e | TArray _ e | TMap _ e =>
      if hasIndex part then lookupType rt rest e else lookupType rt (part :: rest) e
  | TPtr e => lookupType rt (part :: rest) e
  | TInterface => Some t
  | TStruct name =>
      match find (fun f => String.eqb (fst f) part) (StructDecl rt name) with
      | Some (_, ft) => lookupType rt rest ft
      | None => None
      end
  | TNamed _ u =>
      match u with
      | TInterface => Some t
      | _ => lookupType rt (part :: rest) u
      end
  | _ => None
  end.
Proof. destruct t; reflexivity. Qed.

Lemma Later_lookupType_cons (part : string) (rest : list string) (t : type) :
  Later.lookupType rt (part :: rest) t =
  match t with
  | TSlice e | TArray _ e | TMap _ e =>
      if Later.ContainsAny part (Later.indexOpenChar ++ Later.indexCloseChar)
      then Later.lookupType rt rest e else Later.lookupType rt (part :: rest) e
  | TPtr e => Later.lookupType rt (part :: rest) e
  | TInterface => Some t
  | TStruct name =>
      match find (fun f => String.eqb (fst f) part) (StructDecl rt name) with
      | Some (_, ft) => Later.lookupType rt rest ft
      | None => None
      end
  | TNamed _ u =>
      match u with
      | TInterface => Some t
      | _ => Later.lookupType rt (part :: rest) u
      end
  | _ => None
  end.
Proof. destruct t; reflexivity. Qed.

Lemma find_pointwise (A : Type) (p q : A -> bool) (l : list A) :
  (forall x, p x = q x) -> find p l = find q l.
Proof.
  intros H. induction l as [|x l IH]; [reflexivity|].
  cbn [find]. rewrite H, IH. reflexivity.
Qed.

End LaterFacts.

(** X13.  [getSplitToken] never returns the empty string, for which
    [strings.Split] would cut the path into single characters: it returns
    the [SplitToken] of the options when that is not empty, and ["."]
    when it is empty or the options are [nil]. *)
Theorem getSplitToken_is_not_empty (opts : option Later.Options) :
  Later.getSplitToken opts <> ""
  /\ (forall o, opts = Some o -> Later.SplitToken o <> "" ->
                Later.getSplitToken opts = Later.SplitToken o)
  /\ (forall o, opts = Some o -> Later.SplitToken o = "" ->
                Later.getSplitToken opts = ".")
  /\ (opts = None -> Later.getSplitToken opts = ".").
Proof.
  unfold Later.getSplitToken, Later.defaultSplitToken.
  destruct opts as [o|].
  - destruct (String.eqb (Later.SplitToken o) "") eqn:E; cbn [negb].
    + apply String.eqb_eq in E. repeat split; try discriminate.
      * intros o' H Hne. injection H as <-. contradiction.
    + apply String.eqb_neq in E. repeat split; try discriminate; try exact E.
      * intros o' H _. injection H as <-. reflexivity.
      * intros o' H He. injection H as <-. contradiction.
  - repeat split; discriminate.
Qed.

Lemma getSplitToken_is_not_empty_witness :
  Later.getSplitToken
    (Some {| Later.ExpandStringAsJSON := false; Later.MatchFunctions := [];
             Later.SplitToken := "/" |}) = "/"
  /\ Later.getSplitToken
       (Some {| Later.ExpandStringAsJSON := false; Later.MatchFunctions := [];
                Later.SplitToken := "" |}) = ".".
Proof.
  split.
  - exact (proj1 (proj2 (getSplitToken_is_not_empty
                           (Some {| Later.ExpandStringAsJSON := false;
                                    Later.MatchFunctions := [];
                                    Later.SplitToken := "/" |})))
             _ eq_refl ltac:(discriminate)).
  - exact (proj1 (proj2 (proj2 (getSplitToken_is_not_empty
                                  (Some {| Later.ExpandStringAsJSON := false;
                                           Later.MatchFunctions := [];
                                           Later.SplitToken := "" |}))))
             _ eq_refl eq_refl).
Defined.

(** X14.  [compareWithMatchFunc] holds exactly when one of the functions
    maps both names to the same string; it does not depend on the order
    of its two names (the struct case passes the field name first, the
    map case the key of the segment first), it fails for every pair when
    there is no function, and equal names match as soon as there is one. *)
Theorem compareWithMatchFunc_matches (fs : list Later.MatchFunc) (a b : string) :
  (Later.compareWithMatchFunc fs a b = true <-> exists f, In f fs /\ f a = f b)
  /\ Later.compareWithMatchFunc fs a b = Later.compareWithMatchFunc fs b a
  /\ Later.compareWithMatchFunc [] a b = false
  /\ (fs <> [] -> Later.compareWithMatchFunc fs a a = true).
Proof.
  split; [apply compareWithMatchFunc_spec|]. split; [|split; [reflexivity|]].
  - destruct (Later.compareWithMatchFunc fs b a) eqn:E.
    + apply compareWithMatchFunc_spec in E as [f [Hf Hab]].
      apply compareWithMatchFunc_spec. exists f. split; [exact Hf|congruence].
    + destruct (Later.compareWithMatchFunc fs a b) eqn:E'; [|reflexivity].
      apply compareWithMatchFunc_spec in E' as [f [Hf Hab]].
      assert (Later.compareWithMatchFunc fs b a = true) as E''.
      { apply compareWithMatchFunc_spec. exists f. split; [exact Hf|congruence]. }
      congruence.
  - intros Hne. destruct fs as [|f fs]; [congruence|].
    apply compareWithMatchFunc_spec. exists f. split; [left|]; reflexivity.
Qed.

Lemma compareWithMatchFunc_matches_witness :
  Later.compareWithMatchFunc [fun s => s; Fixtures.toLower] "Foo" "Foo" = true.
Proof.
  apply (proj2 (proj2 (proj2 (compareWithMatchFunc_matches
                                [fun s => s; Fixtures.toLower] "Foo" "Foo")))).
  discriminate.
Defined.

(** X15.  The [switch] of the later revision and that of the earlier one
    find the same value: with no match function as with
    [CaseInsentitive] unset, and with the one match function [fold] as
    with [CaseInsentitive] set, when [strings.EqualFold] holds for two
    names exactly when [fold] maps them to the same string. *)
Theorem matching_agrees (rt : runtime) (d : val) (key : string)
    (expand : bool) (token : string) (fold : string -> string) :
  Later.switchValue rt d key
    {| Later.ExpandStringAsJSON := expand; Later.MatchFunctions := [];
       Later.SplitToken := token |}
  = switchValue rt d key {| ExpandStringAsJSON := expand; CaseInsentitive := false |}
  /\ ((forall a b, EqualFold rt a b = String.eqb (fold a) (fold b)) ->
      Later.switchValue rt d key
        {| Later.ExpandStringAsJSON := expand; Later.MatchFunctions := [fold];
           Later.SplitToken := token |}
      = switchValue rt d key {| ExpandStringAsJSON := expand; CaseInsentitive := true |}).
Proof.
  split.
  - destruct d; try reflexivity.
    + cbn [Later.switchValue switchValue]. unfold Later.mapCase, mapCase.
      cbn [Later.MatchFunctions CaseInsentitive andb Later.compareWithMatchFunc].
      destruct (negb (kind_eqb (TypeKind key0) KString)); [reflexivity|].
      destruct (kind_eqb (Reflect.Kind (Reflect.MapIndex entries key)) KInvalid);
        [|reflexivity].
      destruct (find (fun _ => false) (MapOrder rt entries)) as [[k x]|] eqn:Ef;
        [|reflexivity].
      apply find_some in Ef as [_ Ef]. discriminate.
    + cbn [Later.switchValue switchValue]. unfold Later.structCase, structCase.
      cbn [Later.MatchFunctions CaseInsentitive andb Later.compareWithMatchFunc].
      destruct (kind_eqb (Reflect.Kind (Reflect.FieldByName fields key)) KInvalid);
        [|reflexivity].
      destruct (find (fun _ => false) fields) as [[k x]|] eqn:Ef; [|reflexivity].
      apply find_some in Ef as [_ Ef]. discriminate.
  - intros Hfold.
    assert (Hcmp : forall a b, Later.compareWithMatchFunc [fold] a b = EqualFold rt a b).
    { intros a b. cbn [Later.compareWithMatchFunc]. rewrite Hfold.
      destruct (String.eqb (fold a) (fold b)); reflexivity. }
    destruct d; try reflexivity.
    + cbn [Later.switchValue switchValue]. unfold Later.mapCase, mapCase.
      cbn [Later.MatchFunctions CaseInsentitive andb].
      destruct (negb (kind_eqb (TypeKind key0) KString)); [reflexivity|].
      destruct (kind_eqb (Reflect.Kind (Reflect.MapIndex entries key)) KInvalid);
        [|reflexivity].
      rewrite (find_pointwise _ _ _ (MapOrder rt entries) (fun e => Hcmp key (fst e))).
      reflexivity.
    + cbn [Later.switchValue switchValue]. unfold Later.structCase, structCase.
      cbn [Later.MatchFunctions CaseInsentitive andb].
      destruct (kind_eqb (Reflect.Kind (Reflect.FieldByName fields key)) KInvalid);
        [|reflexivity].
      rewrite (find_pointwise _ _ _ fields (fun f => Hcmp (fst f) key)). reflexivity.
Qed.

Lemma matching_agrees_witness :
  Later.switchValue Fixtures.forward Fixtures.caseFixtureStruct "testfield"
    {| Later.ExpandStringAsJSON := false; Later.MatchFunctions := [Fixtures.toLower];
       Later.SplitToken := "." |}
  = switchValue Fixtures.forward Fixtures.caseFixtureStruct "testfield" Fixtures.folding.
Proof.
  apply (proj2 (matching_agrees Fixtures.forward Fixtures.caseFixtureStruct "testfield"
                  false "." (Fixtures.toLower))).
  intros a b. cbn [EqualFold Fixtures.forward]. revert b.
  induction a as [|x a IH]; intros [|y b]; try reflexivity.
  cbn [Fixtures.asciiEqualFold Fixtures.toLower String.eqb]. rewrite IH.
  destruct (Ascii.eqb (Fixtures.lower x) (Fixtures.lower y)); reflexivity.
Defined.

(** X16.  The two revisions of [lookupType] agree on every path in which
    each segment holding [']'] also holds ['[']: the earlier one takes a
    segment as indexed when it holds ['['], the later one when it holds
    ['['] or [']']. *)
Theorem lookupType_revisions_agree (rt : runtime) (path : list string) (t : type) :
  Forall (fun s => GoString.occurs "]" s = true -> GoString.occurs "[" s = true) path ->
  Later.lookupType rt path t = lookupType rt path t.
Proof.
  intros Hpath. revert t.
  induction Hpath as [|part rest Hpart _ IH]; intros t.
  - destruct t; reflexivity.
  - assert (Htest : Later.ContainsAny part (Later.indexOpenChar ++ Later.indexCloseChar)
                    = hasIndex part).
    { rewrite ContainsAny_brackets, hasIndex_occurs.
      destruct (GoString.occurs "[" part); [reflexivity|].
      destruct (GoString.occurs "]" part); [|reflexivity].
      symmetry. exact (Hpart eq_refl). }
    induction t as [| | | | | |n u IHu|e IHe|e IHe|n e IHe|k _ e IHe|n];
      rewrite (lookupType_cons rt), (Later_lookupType_cons rt); try reflexivity.
    + destruct u; try reflexivity; exact IHu.
    + exact IHe.
    + rewrite Htest. destruct (hasIndex part); [apply IH|exact IHe].
    + rewrite Htest. destruct (hasIndex part); [apply IH|exact IHe].
    + rewrite Htest. destruct (hasIndex part); [apply IH|exact IHe].
    + destruct (find _ (StructDecl rt n)) as [[f ft]|]; [apply IH|reflexivity].
Qed.

Lemma lookupType_revisions_agree_witness :
  Later.lookupType Fixtures.forward ["StructSlice[0]"; "Map"] (TSlice Fixtures.MyStruct)
  = lookupType Fixtures.forward ["StructSlice[0]"; "Map"] (TSlice Fixtures.MyStruct)
  /\ Later.lookupType Fixtures.forward ["String]"] (TSlice Fixtures.MyStruct)
     <> lookupType Fixtures.forward ["String]"] (TSlice Fixtures.MyStruct).
Proof.
  split; [|vm_compute; discriminate].
  apply (lookupType_revisions_agree Fixtures.forward ["StructSlice[0]"; "Map"]).
  repeat constructor; intros H; vm_compute in H; try discriminate; reflexivity.
Defined.

(** ** Roots that are not aggregated *)

(** X17.  A missing key on a root that is no collection is final: on a
    struct without a field of the name (and, with [CaseInsentitive], without
    a field equal to it under case folding), and on a boolean, a number, a
    function or an array, every segment that parses makes [lookup] return
    [ErrKeyNotFound], whatever the rest of the path. *)
Theorem missing_key_is_not_found (rt : runtime) (fuel : nat) (d : val)
    (part name : string) (index : Z) (rest : list string) (opts : Options) :
  parseIndex part = Ok (name, index) ->
  (exists n fields,
     d = VStruct n fields
     /\ Reflect.FieldByName fields name = None
     /\ (CaseInsentitive opts = false
         \/ forall f, In f fields -> EqualFold rt (fst f) name = false))
  \/ In (Reflect.Kind (Some d)) [KBool; KInt; KFloat64; KFunc; KArray] ->
  lookup rt (S fuel) (Some d) (part :: rest) opts = Err ErrKeyNotFound.
Proof.
  intros Hparse Hd.
  assert (Hkind : Reflect.Kind (Some d) <> KString
                  /\ isAggregable (Some d) = false
                  /\ getValueByName rt (Some d) part opts = Err ErrKeyNotFound).
  { destruct Hd as [[n [fields [-> [Hf Hfold]]]]|Hk].
    - split; [discriminate|]. split; [reflexivity|].
      cbn [getValueByName getValueByName_val]. rewrite Hparse.
      cbn [bind fst snd switchValue]. unfold structCase. rewrite Hf.
      assert (Hfind : find (fun f => EqualFold rt (fst f) name) fields = None
                      \/ CaseInsentitive opts = false).
      { destruct Hfold as [Hc|Hall]; [right; exact Hc|left].
        destruct (find (fun f => EqualFold rt (fst f) name) fields) as [f|] eqn:Ef;
          [|reflexivity].
        apply find_some in Ef as [Hin Hf']. rewrite (Hall f Hin) in Hf'. discriminate. }
      destruct Hfind as [-> | ->]; [|reflexivity].
      destruct (CaseInsentitive opts && _); reflexivity.
    - destruct d; cbn in Hk;
        repeat (destruct Hk as [Hk|Hk]; try discriminate); try contradiction;
        (split; [discriminate|]; split; [reflexivity|]);
        cbn [getValueByName getValueByName_val]; rewrite Hparse; reflexivity. }
  destruct Hkind as [Hs [Hagg Hg]].
  rewrite lookup_step, (expanded_not_string rt opts d Hs). cbn [lookupLoop].
  rewrite (expanded_not_string rt opts d Hs), debugPre_valid. cbn [bind].
  rewrite Hg, Hagg. reflexivity.
Qed.

Lemma missing_key_is_not_found_witness :
  lookup Fixtures.forward 1 (Some Fixtures.structFixture) ["qux[3]"; "String"]
    Fixtures.folding = Err ErrKeyNotFound
  /\ lookup Fixtures.forward 1 (Some (VInt 42)) ["foo"] Fixtures.plain
     = Err ErrKeyNotFound.
Proof.
  split.
  - apply (missing_key_is_not_found Fixtures.forward 0 Fixtures.structFixture
             "qux[3]" "qux" 3 ["String"] Fixtures.folding eq_refl).
    left. eexists. eexists. split; [reflexivity|]. split; [reflexivity|].
    right. intros f Hin. cbn in Hin.
    repeat (destruct Hin as [<-|Hin]; [reflexivity|]). destruct Hin.
  - apply (missing_key_is_not_found Fixtures.forward 0 (VInt 42) "foo" "foo" (-1) []
             Fixtures.plain eq_refl).
    right. right. left. reflexivity.
Defined.

(** X18.  A pointer is followed when a segment is matched, but the
    aggregator is asked of the pointer itself: when the segment fails on
    a pointer or an interface, [lookup] returns that error and does not
    broadcast, so on a pointer to a slice every segment that parses fails
    with [ErrKeyNotFound]. *)
Theorem pointer_is_not_aggregated (rt : runtime) (fuel : nat) (d : val)
    (part : string) (rest : list string) (opts : Options) :
  Reflect.Kind (Some d) = KPtr \/ Reflect.Kind (Some d) = KInterface ->
  (forall (e : error),
     getValueByName rt (Some d) part opts = Err e ->
     lookup rt (S fuel) (Some d) (part :: rest) opts = Err e)
  /\ (forall (t elem : type) (items : list val) (name : string) (index : Z),
        d = VPtr t (Some (VSlice elem items)) ->
        parseIndex part = Ok (name, index) ->
        lookup rt (S fuel) (Some d) (part :: rest) opts = Err ErrKeyNotFound).
Proof.
  intros Hk.
  assert (Hs : Reflect.Kind (Some d) <> KString) by (destruct Hk as [-> | ->]; discriminate).
  assert (Hagg : isAggregable (Some d) = false).
  { unfold isAggregable. destruct Hk as [-> | ->]; reflexivity. }
  assert (H1 : forall e, getValueByName rt (Some d) part opts = Err e ->
                         lookup rt (S fuel) (Some d) (part :: rest) opts = Err e).
  { intros e Hg.
    rewrite lookup_step, (expanded_not_string rt opts d Hs). cbn [lookupLoop].
    rewrite (expanded_not_string rt opts d Hs), debugPre_valid. cbn [bind].
    rewrite Hg, Hagg. reflexivity. }
  split; [exact H1|].
  intros t elem items name index -> Hparse. apply H1.
  cbn [getValueByName getValueByName_val]. rewrite Hparse. cbn [bind fst snd].
  destruct (parseIndex_name_again name index part Hparse) as [Hn _].
  rewrite Hn. reflexivity.
Qed.

Lemma pointer_is_not_aggregated_witness :
  lookup Fixtures.forward 2
    (Some (VPtr (TSlice (TStruct "Cast"))
             (Some (VSlice (TStruct "Cast") [Fixtures.cast "a" "b"]))))
    ["Role"] Fixtures.plain = Err ErrKeyNotFound
  /\ lookup Fixtures.forward 2
       (Some (VSlice (TStruct "Cast") [Fixtures.cast "a" "b"]))
       ["Role"] Fixtures.plain = Ok (Some (VSlice TString [VString "b"])).
Proof.
  split; [|reflexivity].
  apply (proj2 (pointer_is_not_aggregated Fixtures.forward 1
                  (VPtr (TSlice (TStruct "Cast"))
                     (Some (VSlice (TStruct "Cast") [Fixtures.cast "a" "b"])))
                  "Role" [] Fixtures.plain (or_introl eq_refl))
           (TSlice (TStruct "Cast")) (TStruct "Cast") [Fixtures.cast "a" "b"] "Role" (-1)
           eq_refl eq_refl).
Defined.

(** ** The elements of a collection and the type-only resolver *)

Section TabulateFacts.

Lemma MapIndex_of_entry (entries : list (string * val)) (k : string) (x : val) :
  NoDup (map fst entries) ->
  In (k, x) entries ->
  Reflect.MapIndex entries k = Some x.
Proof.
  induction entries as [|[k' d] entries IH]; cbn [map fst In Reflect.MapIndex];
    intros Hnd Hin; [destruct Hin|].
  inversion Hnd as [|? ? Hnotin Hnd']. subst.
  destruct Hin as [E|Hin].
  - injection E as -> ->. rewrite String.eqb_refl. reflexivity.
  - destruct (String.eqb k' k) eqn:E; [|exact (IH Hnd' Hin)].
    apply String.eqb_eq in E. subst k'. exfalso. apply Hnotin.
    apply (in_map fst) in Hin. exact Hin.
Qed.

End TabulateFacts.

(** X19.  [indexFunction] on a map whose keys are distinct delivers, for
    the keys in the order of [MapKeys], the value stored under each key:
    the values of the entries in the order of iteration, as many as
    [Len] counts. *)
Theorem indexFunction_of_map (rt : runtime) (kt et : type)
    (entries : list (string * val)) :
  NoDup (map fst entries) ->
  Permutation (MapOrder rt entries) entries ->
  indexFunction rt (Some (VMap kt et entries))
  = Ok (map (fun kv => Some (snd kv)) (MapOrder rt entries))
  /\ Z.of_nat (List.length (MapOrder rt entries))
     = Reflect.Len (Some (VMap kt et entries)).
Proof.
  intros Hnd Hperm. split.
  - cbn [indexFunction]. f_equal. rewrite map_map.
    apply map_ext_in. intros [k x] Hin. cbn [fst snd].
    apply (MapIndex_of_entry entries k x Hnd).
    exact (Permutation_in _ Hperm Hin).
  - cbn [Reflect.Len]. rewrite (Permutation_length Hperm). reflexivity.
Qed.

Lemma indexFunction_of_map_witness :
  indexFunction Fixtures.backward (Some Fixtures.caseFixtureMap)
  = Ok [Some (VInt 3); Some (VInt 2); Some (VInt 1); Some (VInt 0)].
Proof.
  refine (proj1 (indexFunction_of_map Fixtures.backward TString TInt
                   [("Foo", VInt 0); ("TestKey", VInt 1); ("Testkey", VInt 2);
                    ("testKey", VInt 3)] _ _)).
  - repeat constructor; cbn; intuition discriminate.
  - cbn [MapOrder Fixtures.backward]. apply Permutation_sym, Permutation_rev.
Defined.

(** X20.  For a first segment without ['['] the type-only resolver looks
    through every leading pointer, slice, array and map: it resolves the
    segment on the type found under them, as a field when that is a struct
    (by the exact name only), as the type itself when it is an interface,
    and fails on any other type. *)
Theorem lookupType_looks_through (rt : runtime) (part : string)
    (rest : list string) (t : type) :
  hasIndex part = false ->
  lookupType rt (part :: rest) t =
  match innermost t with
  | TStruct name =>
      match find (fun f => String.eqb (fst f) part) (StructDecl rt name) with
      | Some (_, ft) => lookupType rt rest ft
      | None => None
      end
  | TInterface => Some (innermost t)
  | TNamed _ TInterface => Some (innermost t)
  | _ => None
  end.
Proof.
  intros Hidx.
  induction t as [| | | | | |n u IHu|e IHe|e IHe|n e IHe|k _ e IHe|n];
    rewrite lookupType_cons; cbn [innermost]; try reflexivity;
    try (rewrite Hidx); try exact IHe.
  destruct u; try reflexivity; exact IHu.
Qed.

Lemma lookupType_looks_through_witness :
  lookupType Fixtures.forward ["String"]
    (TSlice (TPtr (TMap TString (TSlice Fixtures.MyStruct))))
  = Some TString.
Proof.
  exact (lookupType_looks_through Fixtures.forward "String" []
           (TSlice (TPtr (TMap TString (TSlice Fixtures.MyStruct)))) eq_refl).
Defined.

Section NestingFacts.

Variable rt : runtime.

Lemma lookup_slice_field (fuel : nat) (A name : string) (fields : list (string * val))
    (c : type) (xs : list val) (opts : Options) :
  GoString.occurs "[" name = false ->
  GoString.occurs "]" name = false ->
  Reflect.FieldByName fields name = Some (VSlice c xs) ->
  lookup rt (S fuel) (Some (VStruct A fields)) [name] opts = Ok (Some (VSlice c xs)).
Proof.
  intros Ho Hc Hf. rewrite lookup_step.
  rewrite (expanded_not_string rt opts (VStruct A fields)) by discriminate.
  cbn [lookupLoop].
  rewrite (expanded_not_string rt opts (VStruct A fields)) by discriminate.
  rewrite debugPre_valid. cbn [bind getValueByName getValueByName_val].
  rewrite (parseIndex_plain name Ho Hc). cbn [bind fst snd switchValue].
  unfold structCase. rewrite Hf, Kind_valid, andb_false_r. reflexivity.
Qed.

Lemma aggregateLoop_slice_fields (fuel : nat) (A name : string) (c : type)
    (opts : Options) (items : list val) :
  GoString.occurs "[" name = false ->
  GoString.occurs "]" name = false ->
  Forall (fun item => exists fields xs,
            item = VStruct A fields
            /\ Reflect.FieldByName fields name = Some (VSlice c xs)) items ->
  forall acc,
    aggregateLoop (lookup rt (S fuel)) (map Some items) [name] opts acc
    = Ok (acc ++ map (fun item => Some (VSlice c (fieldItems name item))) items).
Proof.
  intros Ho Hc Hall. induction Hall as [|item items [fields [xs [-> Hf]]] _ IH];
    intros acc.
  - cbn [map aggregateLoop]. now rewrite app_nil_r.
  - cbn [map aggregateLoop Reflect.Interface bind].
    rewrite (lookup_slice_field fuel A name fields c xs opts Ho Hc Hf).
    cbn [bind]. rewrite IH, <- app_assoc.
    cbn [fieldItems app]. rewrite Hf. reflexivity.
Qed.

End NestingFacts.

(** X21.  For a struct type whose field [name] is declared as a slice of
    [c], the aggregation of the path [name] over a slice of such structs
    returns the items of the fields, flattened into one slice of [c], when
    the slice is not empty, but the empty slice of slices of [c] when it
    is empty: the type of the result depends on whether there are
    elements. *)
Theorem slice_field_nesting (rt : runtime) (fuel : nat) (A name : string)
    (c : type) (opts : Options) (items : list val) :
  GoString.occurs "[" name = false ->
  GoString.occurs "]" name = false ->
  find (fun f => String.eqb (fst f) name) (StructDecl rt A) = Some (name, TSlice c) ->
  Forall (fun item => exists fields xs,
            item = VStruct A fields
            /\ Reflect.FieldByName fields name = Some (VSlice c xs)) items ->
  lookup rt (S (S fuel)) (Some (VSlice (TStruct A) items)) [name] opts
  = match items with
    | [] => Ok (Some (VSlice (TSlice c) []))
    | _ => Ok (Some (VSlice c (List.concat (map (fieldItems name) items))))
    end.
Proof.
  intros Ho Hc Hdecl Hall.
  assert (Hp : forall p, parseIndex name <> Panic p).
  { intros p. rewrite (parseIndex_plain name Ho Hc). discriminate. }
  rewrite (lookup_slice_step rt (S fuel) (TStruct A) items name [] opts Hp).
  destruct items as [|item items].
  - rewrite aggregate_empty by reflexivity. cbn [TypeOf].
    rewrite lookupType_cons, hasIndex_occurs, Ho, lookupType_cons, Hdecl.
    reflexivity.
  - unfold aggreateAggregableValue.
    replace (Reflect.Len (Some (VSlice (TStruct A) (item :: items))) =? 0) with false
      by (symmetry; apply Z.eqb_neq; cbn [Reflect.Len List.length]; lia).
    cbn [indexFunction bind].
    change (Some item :: map Some items) with (map Some (item :: items)).
    rewrite (aggregateLoop_slice_fields rt fuel A name c opts (item :: items) Ho Hc Hall).
    cbn [app bind]. unfold mergeValue, removeZeroValues.
    set (results := map (fun it => Some (VSlice c (fieldItems name it))) (item :: items)).
    assert (Hvalid : filter Reflect.IsValid results
                     = map Some (map (fun it => VSlice c (fieldItems name it))
                                   (item :: items))).
    { subst results. generalize (item :: items) as l.
      induction l as [|x l IH]; [reflexivity|].
      cbn [map filter Reflect.IsValid]. now rewrite IH. }
    rewrite Hvalid. cbn [map isMergeable Reflect.Kind TypeOf TypeKind kind_eqb orb
                         Reflect.Type_ bind TypeElem Reflect.SliceOf Reflect.MakeSlice].
    change (Some (VSlice c (fieldItems name item))
            :: map Some (map (fun it => VSlice c (fieldItems name it)) items))
      with (map Some (map (fun it => VSlice c (fieldItems name it)) (item :: items))).
    rewrite (mergeLoop_slices c).
    + cbn [app]. rewrite map_map. reflexivity.
    + apply Forall_forall. intros x Hx. apply in_map_iff in Hx as [it [<- _]].
      eexists. reflexivity.
Qed.

Lemma slice_field_nesting_witness :
  lookup Fixtures.forward 2 (Some (VSlice (TStruct "Serie") [])) ["Cast"] Fixtures.plain
  = Ok (Some (VSlice (TSlice (TStruct "Cast")) []))
  /\ lookup Fixtures.forward 2
       (Some (VSlice (TStruct "Serie")
                [VStruct "Serie" [("Cast", VSlice (TStruct "Cast") [Fixtures.cast "a" "b"])];
                 VStruct "Serie" [("Cast", VSlice (TStruct "Cast") [Fixtures.cast "c" "d"])]]))
       ["Cast"] Fixtures.plain
     = Ok (Some (VSlice (TStruct "Cast") [Fixtures.cast "a" "b"; Fixtures.cast "c" "d"])).
Proof.
  split.
  - apply (slice_field_nesting Fixtures.forward 0 "Serie" "Cast" (TStruct "Cast")
             Fixtures.plain [] eq_refl eq_refl eq_refl). constructor.
  - apply (slice_field_nesting Fixtures.forward 0 "Serie" "Cast" (TStruct "Cast")
             Fixtures.plain
             [VStruct "Serie" [("Cast", VSlice (TStruct "Cast") [Fixtures.cast "a" "b"])];
              VStruct "Serie" [("Cast", VSlice (TStruct "Cast") [Fixtures.cast "c" "d"])]]
             eq_refl eq_refl eq_refl).
    repeat constructor; eexists; eexists; split; reflexivity.
Defined.

(** ** Strings that hold JSON, and keys that are there *)

Section DirectHitFacts.



End DirectHitFacts.

(** X22.  With [ExpandStringAsJSON] set, a string that is not empty and
    decodes as a JSON object stands for the map of its members wherever
    a segment is applied to it: [lookup] with a path of at least one
    segment returns on the string what it returns on that map.  A string
    that is not expanded has no keys: every segment that parses fails on
    it with [ErrKeyNotFound]. *)
Theorem json_string_stands_for_its_object (rt : runtime) (fuel : nat) (s : string)
    (part : string) (rest : list string) (opts : Options) :
  (forall entries,
     ExpandStringAsJSON opts = true ->
     s <> "" ->
     Unmarshal rt s = Some entries ->
     lookup rt fuel (Some (VString s)) (part :: rest) opts
     = lookup rt fuel (Some (VMap TString TInterface entries)) (part :: rest) opts)
  /\ (forall name index,
        ExpandStringAsJSON opts = false \/ s = "" \/ Unmarshal rt s = None ->
        parseIndex part = Ok (name, index) ->
        lookup rt (S fuel) (Some (VString s)) (part :: rest) opts = Err ErrKeyNotFound).
Proof.
  split.
  - intros entries Hopt Hne Hjson. destruct fuel as [|fuel]; [reflexivity|].
    rewrite !lookup_step. f_equal.
    rewrite (expanded_not_string rt opts (VMap TString TInterface entries))
      by discriminate.
    unfold expanded, expandStringAsJSON. rewrite Hopt, Hjson.
    apply String.eqb_neq in Hne. rewrite Hne. reflexivity.
  - intros name index Hcase Hparse.
    assert (Hexp : expanded rt opts (Some (VString s)) = Some (VString s)).
    { unfold expanded, expandStringAsJSON.
      destruct (ExpandStringAsJSON opts); [|reflexivity].
      destruct Hcase as [H|[-> | ->]]; [discriminate|reflexivity|].
      destruct (String.eqb s ""); reflexivity. }
    rewrite lookup_step, Hexp. cbn [lookupLoop]. rewrite Hexp, debugPre_valid.
    cbn [bind getValueByName getValueByName_val]. rewrite Hparse. reflexivity.
Qed.

Lemma json_string_stands_for_its_object_witness :
  lookup Fixtures.forward 1 (Some (VString "{}")) ["String"] Fixtures.plain
  = Err ErrKeyNotFound
  /\ lookup Fixtures.decoding 1 (Some (VString "{}")) ["String"]
       {| ExpandStringAsJSON := true; CaseInsentitive := false |}
     = lookup Fixtures.decoding 1 (Some (VMap TString TInterface [])) ["String"]
         {| ExpandStringAsJSON := true; CaseInsentitive := false |}.
Proof.
  split.
  - apply (proj2 (json_string_stands_for_its_object Fixtures.forward 0 "{}" "String" []
                    Fixtures.plain) "String" (-1)).
    + left. reflexivity.
    + reflexivity.
  - apply (proj1 (json_string_stands_for_its_object Fixtures.decoding 1 "{}" "String" []
                    {| ExpandStringAsJSON := true; CaseInsentitive := false |}) []).
    + reflexivity.
    + discriminate.
    + reflexivity.
Defined.



(** ** The tests of the repository *)

Section Tests.

Import Fixtures.

Example TestLookup_Map :
  run (VMap TString TInt [("foo", VInt 42)]) "foo" plain = Ok (Some (VInt 42)).
Proof. reflexivity. Qed.

Example TestLookup_Ptr : run (ref structFixture) "String" plain = Ok (Some (VString "foo")).
Proof. reflexivity. Qed.

Example TestLookup_Interface : run structFixture "Interface" plain = Ok (Some (VString "foo")).
Proof. reflexivity. Qed.

Example TestLookup_StructPlusMap : run structFixture "Map.foo" plain = Ok (Some (VInt 42)).
Proof. reflexivity. Qed.

Example TestLookup_MapNamed : run mapFixtureNamed "foo" plain = Ok (Some (VInt 42)).
Proof. reflexivity. Qed.

Example TestLookup_NotFound :
  run structFixture "qux" plain = Err ErrKeyNotFound
  /\ run mapFixture "qux" plain = Err ErrKeyNotFound.
Proof. split; reflexivity. Qed.

Example TestAggregableLookup_StructIndex :
  run structFixture "StructSlice.Map.foo" plain = Ok (Some (VSlice TInt [VInt 42; VInt 42])).
Proof. reflexivity. Qed.

Example TestAggregableLookup_StructNestedMap :
  run structFixture "StructSlice[0].String" plain = Ok (Some (VString "foo")).
Proof. reflexivity. Qed.

Example TestAggregableLookupString_Complex :
  run structFixture "StructSlice.StructSlice[0].String" plain
  = Ok (Some (VSlice TString [VString "bar"; VString "foo"; VString "qux"; VString "baz"]))
  /\ run structFixture "StructSlice[0].Map.foo" plain = Ok (Some (VInt 42)).
Proof. split; reflexivity. Qed.

Example TestAggregableLookup_EmptyMap :
  run (VMap TString (TPtr MyStruct) []) "Map" plain
  = Ok (Some (VSlice (TMap TString TInt) [])).
Proof. reflexivity. Qed.

Example TestMergeValueZero :
  mergeValue [None; Some (VString "foo")] = Ok (Some (VSlice TString [VString "foo"])).
Proof. reflexivity. Qed.

Example TestParseIndexMalFormed :
  parseIndex "foo[]" = Err ErrMalformedIndex
  /\ parseIndex "foo[42" = Err ErrMalformedIndex
  /\ parseIndex "foo42]" = Err ErrMalformedIndex.
Proof. repeat split. Qed.

Example TestLookup_CaseSensitive : run structFixture "STring" plain = Err ErrKeyNotFound.
Proof. reflexivity. Qed.

Example TestLookup_CaseInsensitive : run structFixture "STring" folding = Ok (Some (VString "foo")).
Proof. reflexivity. Qed.

Example TestLookup_CaseInsensitive_FirstMatch :
  run caseFixtureStruct "testfield" folding = Ok (Some (VInt 1))
  /\ run caseFixtureStruct "Testfield" folding = Ok (Some (VInt 2)).
Proof. split; reflexivity. Qed.

Example TestLookup_Map_CaseInsensitive_ExactMatch :
  run caseFixtureMap "Testkey" folding = Ok (Some (VInt 2)).
Proof. reflexivity. Qed.

Example ExampleLookupString :
  run series "A-Team.Cast.Role" plain
  = Ok (Some (VSlice TString [VString "Hannibal"; VString "Murdock";
                              VString "Baracus"; VString "Faceman"]))
  /\ run series "A-Team.Cast[0].Actor" plain = Ok (Some (VString "George Peppard")).
Proof. split; reflexivity. Qed.

End Tests.
